(** * Closed-form Lambertian solver and location parametrizations

    A shallow embedding of [code/closed_form.py] and
    [code/parametrizations/locations.py], of the settings lookup of
    [code/experiment_settings.py] and of the scores of [code/evaluation.py].

    Tensors of floats are read as nested lists of real numbers: rounding,
    overflow and NaN are outside this model, so an operation either yields a
    real value or raises.  What raises in Python is a [Raise] here. *)

From Stdlib Require Import String.
From Stdlib Require Import Reals Lra Lia List ZArith Bool Psatz.
Import ListNotations.
Open Scope R_scope.

(** ** Exceptions *)

Inductive exn : Type :=
| RuntimeError (msg : string)   (* raised by torch: singular matrix, shape mismatch *)
| LoggedError (msg : string)    (* raised by [utils.logging.error] *)
| NameError (name : string)     (* an unbound Python name *)
| TypeError (msg : string)      (* a value of the wrong kind *)
| IndexError.                   (* an index or a mask that does not fit *)

Inductive result (A : Type) : Type :=
| Ok (a : A)
| Raise (e : exn).
Arguments Ok {A} a.
Arguments Raise {A} e.

Definition bind {A B} (r : result A) (k : A -> result B) : result B :=
  match r with
  | Ok a => k a
  | Raise e => Raise e
  end.

Notation "x <- c1 ;; c2" := (bind c1 (fun x => c2))
  (at level 61, c1 at next level, right associativity).
Notation "c1 ;;; c2" := (bind c1 (fun _ => c2))
  (at level 61, right associativity).

Fixpoint mapM {A B} (f : A -> result B) (xs : list A) : result (list B) :=
  match xs with
  | [] => Ok []
  | x :: xs' => y <- f x ;; ys <- mapM f xs' ;; Ok (y :: ys)
  end.

(** ** List helpers shared by both files *)

Fixpoint zip_with {A B C} (f : A -> B -> C) (xs : list A) (ys : list B) : list C :=
  match xs, ys with
  | x :: xs', y :: ys' => f x y :: zip_with f xs' ys'
  | _, _ => []
  end.

Definition Rsum (xs : list R) : R := fold_right Rplus 0 xs.

(** [(b).float()] *)
Definition to_float (b : bool) : R := if b then 1 else 0.

(** [x.sign()] *)
Definition sign (x : R) : R :=
  if Rlt_dec 0 x then 1 else if Rlt_dec x 0 then -1 else 0.

(** * utils.vectors *)

Module Vectors.

Abbreviation vec3 := (R * R * R)%type.
Abbreviation mat3 := (vec3 * vec3 * vec3)%type.   (* three rows *)

Definition zero3 : vec3 := (0, 0, 0).

Definition vadd (a b : vec3) : vec3 :=
  let '(a1, a2, a3) := a in let '(b1, b2, b3) := b in (a1 + b1, a2 + b2, a3 + b3).

Definition vsub (a b : vec3) : vec3 :=
  let '(a1, a2, a3) := a in let '(b1, b2, b3) := b in (a1 - b1, a2 - b2, a3 - b3).

Definition vscale (k : R) (a : vec3) : vec3 :=
  let '(a1, a2, a3) := a in (k * a1, k * a2, k * a3).

Definition vsum (vs : list vec3) : vec3 := fold_right vadd zero3 vs.

(** Modelled from the spec: [utils.vectors.inner_product], the sum of the
    products of the components ("Vector math primitives (normalize,
    inner/cross product)"). *)
Definition inner_product (a b : vec3) : R :=
  let '(a1, a2, a3) := a in let '(b1, b2, b3) := b in a1 * b1 + a2 * b2 + a3 * b3.

(** Modelled from the spec: [utils.vectors.cross_product]. *)
Definition cross_product (a b : vec3) : vec3 :=
  let '(a1, a2, a3) := a in let '(b1, b2, b3) := b in
  (a2 * b3 - a3 * b2, a3 * b1 - a1 * b3, a1 * b2 - a2 * b1).

(** Modelled from the spec: [utils.vectors.norm], the Euclidean length. *)
Definition norm (a : vec3) : R := sqrt (inner_product a a).

(** Modelled from the spec: [utils.vectors.normalize], the vector divided by
    its length.  The zero vector stays zero: [implied_normal_image] tests
    [norm(normal_image) == 0] on normalized vectors to find the pixels that
    have no normal yet. *)
Definition normalize (a : vec3) : vec3 :=
  if Req_EM_T (norm a) 0 then zero3 else vscale (/ norm a) a.

(** 3x3 matrices, as far as the solver needs them. *)

Definition eye3 : mat3 := ((1, 0, 0), (0, 1, 0), (0, 0, 1)).
Definition mzero : mat3 := (zero3, zero3, zero3).

Definition madd (m n : mat3) : mat3 :=
  let '(m1, m2, m3) := m in let '(n1, n2, n3) := n in
  (vadd m1 n1, vadd m2 n2, vadd m3 n3).

Definition mscale (k : R) (m : mat3) : mat3 :=
  let '(m1, m2, m3) := m in (vscale k m1, vscale k m2, vscale k m3).

(** [a a^T] *)
Definition outer (a b : vec3) : mat3 :=
  let '(a1, a2, a3) := a in (vscale a1 b, vscale a2 b, vscale a3 b).

Definition mat_vec (m : mat3) (x : vec3) : vec3 :=
  let '(m1, m2, m3) := m in
  (inner_product m1 x, inner_product m2 x, inner_product m3 x).

Definition det3 (m : mat3) : R :=
  let '((a, b, c), (d, e, f), (g, h, i)) := m in
  a * (e * i - f * h) - b * (d * i - f * g) + c * (d * h - e * g).

Definition adjugate (m : mat3) : mat3 :=
  let '((a, b, c), (d, e, f), (g, h, i)) := m in
  ((e * i - f * h, c * h - b * i, b * f - c * e),
   (f * g - d * i, a * i - c * g, c * d - a * f),
   (d * h - e * g, b * g - a * h, a * e - b * d)).

(** [m.inverse()]: raises on a singular matrix. *)
Definition inverse3 (m : mat3) : result mat3 :=
  if Req_EM_T (det3 m) 0 then Raise (RuntimeError "singular matrix")
  else Ok (mscale (/ det3 m) (adjugate m)).

(** [x.inverse()] of a 1x1 matrix. *)
Definition inverse1 (x : R) : result R :=
  if Req_EM_T x 0 then Raise (RuntimeError "singular matrix") else Ok (/ x).

(** Symmetry and the quadratic form [x^T m x], to speak about positive
    definite systems. *)
Definition symmetric (m : mat3) : Prop :=
  let '((a, b, c), (d, e, f), (g, h, i)) := m in b = d /\ c = g /\ f = h.

Definition quad (m : mat3) (x : vec3) : R := inner_product x (mat_vec m x).

End Vectors.
Import Vectors.

(** * closed_form.py *)

Module ClosedForm.

(** The observation batch of one point after the batches are concatenated
    along the view axis: one entry per view. *)
Record PointViews : Type := {
  light_intensities : list vec3;   (* C x 3 colour channels *)
  light_directions : list vec3;    (* C x 3 *)
  shadows : list bool;             (* C *)
  observations : list vec3;        (* C x 3 colour channels *)
  occlusions : list bool           (* C *)
}.

(** One training batch as the collaborators return it, views first:
    [get_light_intensities] gives intensities, directions and shadows,
    [extract_observations] gives observations and occlusions. *)
Record Batch : Type := {
  batch_light_intensities : list (list vec3);   (* Cb x N x 3 *)
  batch_light_directions : list (list vec3);
  batch_shadows : list (list bool);
  batch_observations : list (list vec3);
  batch_occlusions : list (list bool)
}.

Definition channel (c : nat) (v : vec3) : R :=
  let '(v0, v1, v2) := v in
  match c with 0%nat => v0 | 1%nat => v1 | _ => v2 end.

Section Sentinel.

(** [utils.sentinels.OBSERVATION_OUT_OF_BOUNDS]; its value is not part of the
    solver. *)
Variable OBSERVATION_OUT_OF_BOUNDS : R.

(** [(batch_occlusions + (batch_observations[...,1] == OBSERVATION_OUT_OF_BOUNDS)) > 0],
    for one (view, point) entry. *)
Definition mark_out_of_bounds (occluded : bool) (observation : vec3) : bool :=
  occluded || (if Req_EM_T (channel 1 observation) OBSERVATION_OUT_OF_BOUNDS then true else false).

Definition batch_occlusions_marked (b : Batch) : list (list bool) :=
  zip_with (zip_with mark_out_of_bounds) (batch_occlusions b) (batch_observations b).

End Sentinel.

(** [t.transpose(0,1)] of a rectangular nested list with [n] columns. *)
Fixpoint transpose {A} (n : nat) (t : list (list A)) : list (list A) :=
  match t with
  | [] => repeat [] n
  | row :: t' => zip_with cons row (transpose n t')
  end.

(** [torch.cat(ts, dim=1)] of tensors with [n] rows each. *)
Fixpoint cat_dim1 {A} (n : nat) (ts : list (list (list A))) : list (list A) :=
  match ts with
  | [] => repeat [] n
  | t :: ts' => zip_with (@app A) t (cat_dim1 n ts')
  end.

Fixpoint zip_points (li ld : list (list vec3)) (sh : list (list bool))
  (ob : list (list vec3)) (oc : list (list bool)) : list PointViews :=
  match li, ld, sh, ob, oc with
  | a :: li', b :: ld', c :: sh', d :: ob', e :: oc' =>
      {| light_intensities := a; light_directions := b; shadows := c;
         observations := d; occlusions := e |} :: zip_points li' ld' sh' ob' oc'
  | _, _, _, _, _ => []
  end.

(** Lines 58-81: per batch, mark the out-of-bounds observations, transpose to
    points first, then concatenate the batches along the view axis.  [n] is
    the number of points. *)
Definition assemble (sentinel : R) (n : nat) (bs : list Batch) : list PointViews :=
  zip_points
    (cat_dim1 n (map (fun b => transpose n (batch_light_intensities b)) bs))
    (cat_dim1 n (map (fun b => transpose n (batch_light_directions b)) bs))
    (cat_dim1 n (map (fun b => transpose n (batch_shadows b)) bs))
    (cat_dim1 n (map (fun b => transpose n (batch_observations b)) bs))
    (cat_dim1 n (map (fun b => transpose n (batch_occlusions_marked sentinel b)) bs)).

(** ** Masks and the gray-scale system (lines 83-96) *)

(** [light_intensities[:,:,:,None] * light_directions[:,:,None,:]]: per view,
    one direction-weighted vector per colour channel. *)
Definition incident_light (p : PointViews) : list (vec3 * vec3 * vec3) :=
  zip_with (fun i d => let '(i0, i1, i2) := i in (vscale i0 d, vscale i1 d, vscale i2 d))
    (light_intensities p) (light_directions p).

Definition incident_channel (c : nat) (l : vec3 * vec3 * vec3) : vec3 :=
  let '(l0, l1, l2) := l in
  match c with 0%nat => l0 | 1%nat => l1 | _ => l2 end.

Definition shadowing_mask (p : PointViews) : list R :=
  map (fun s => to_float (negb s)) (shadows p).

Definition occlusion_mask (p : PointViews) : list R :=
  map (fun o => to_float (negb o)) (occlusions p).

Definition valid_mask (p : PointViews) : list R :=
  zip_with Rmult (shadowing_mask p) (occlusion_mask p).

(** [(t.sum(dim=1) <= 2).float()] *)
Definition at_most_two (xs : list R) : R :=
  if Rle_dec (Rsum xs) 2 then 1 else 0.

(** Line 90; computed by the source and never read afterwards. *)
Definition invalids (p : PointViews) : R := at_most_two (valid_mask p).

(** [torch.eye(3) * 1e8] *)
Definition eye : mat3 := mscale 1e8 eye3.

Definition mean3 (a b c : R) : R := (a + b + c) / 3.

Definition gray_light_intensities (p : PointViews) : list vec3 :=
  zip_with (fun l v => let '(l0, l1, l2) := l in
                       vscale v (vscale (/ 3) (vadd (vadd l0 l1) l2)))
    (incident_light p) (valid_mask p).

Definition gray_observations (p : PointViews) : list R :=
  zip_with (fun o v => let '(o0, o1, o2) := o in mean3 o0 o1 o2 * v)
    (observations p) (valid_mask p).

(** ** RANSAC (lines 98-132) *)

Definition subset_size (C : nat) : nat := Nat.min C 6.
Definition threshold : R := 1e4.
Definition estimated_outlier_ratio : R := 0.20.
Definition targeted_success_chance : R := 1 - 1e-4.

Definition nr_its (C : nat) : R :=
  if (subset_size C <? C)%nat
  then 10 * ln (1 - targeted_success_chance)
       / ln (1 - (1 - estimated_outlier_ratio) ^ subset_size C)
  else 1.

(** Python's [int(x)] on a float: truncation towards zero. *)
Definition py_int (x : R) : Z :=
  if Rle_dec 0 x then Int_part x else (- Int_part (- x))%Z.

(** [len(range(int(nr_its)))]: how often the loop body runs. *)
Definition ransac_iterations (C : nat) : nat := Z.to_nat (py_int (nr_its C)).

(** [t.index_select(dim=1, index=subset)].  [np.random.choice(C, ...)] only
    yields indices below [C]; an index out of range reads the default. *)
Definition index_select {A} (d : A) (xs : list A) (subset : list nat) : list A :=
  map (fun k => nth k xs d) subset.

(** [A.transpose(1,2) @ A] *)
Definition gram (A : list vec3) : mat3 :=
  fold_right (fun a m => madd (outer a a) m) mzero A.

(** [(A.transpose(1,2) @ A + reg).inverse() @ A.transpose(1,2)]: the columns
    of the regularized pseudo-inverse, one per row of [A]. *)
Definition regularized_pinv (A : list vec3) (reg : mat3) : result (list vec3) :=
  inv <- inverse3 (madd (gram A) reg) ;;
  Ok (map (mat_vec inv) A).

(** [P @ b] for the 3 x S matrix [P] given by its columns. *)
Definition pinv_apply (P : list vec3) (b : list R) : vec3 :=
  vsum (zip_with (fun col x => vscale x col) P b).

Record RansacState : Type := {
  best_inlier_counts : R;
  best_inliers : list R
}.

(** Lines 108-109. *)
Definition ransac_init (C : nat) : RansacState :=
  {| best_inlier_counts := 0 - 1; best_inliers := repeat 0 C |}.

(** Lines 114-121: the raw solution of one subset. *)
Definition solution_subset (p : PointViews) (subset : list nat) : result vec3 :=
  let intensities_subset := index_select zero3 (gray_light_intensities p) subset in
  let observations_subset := index_select 0 (gray_observations p) subset in
  let shadowing_subset := index_select 0 (shadowing_mask p) subset in
  let occlusion_subset := index_select 0 (occlusion_mask p) subset in
  let valid_subset := zip_with Rmult shadowing_subset occlusion_subset in
  let invalids_subset := at_most_two valid_subset in
  intensities_subset_pinv <-
    regularized_pinv intensities_subset (mscale invalids_subset eye) ;;
  Ok (pinv_apply intensities_subset_pinv observations_subset).

(** Lines 123-124: residuals over all views and the inlier flags. *)
Definition residuals_of (p : PointViews) (solution : vec3) : list R :=
  zip_with (fun l o => inner_product l solution - o)
    (gray_light_intensities p) (gray_observations p).

Definition inliers_of (p : PointViews) (solution : vec3) : list R :=
  zip_with (fun r v => to_float (if Rlt_dec (Rabs r) threshold then true else false) * v)
    (residuals_of p solution) (valid_mask p).

(** Lines 125-129: keep the better of the stored and the new inlier set. *)
Definition ransac_update (st : RansacState) (inliers : list R) : RansacState :=
  let inlier_counts := Rsum inliers in
  let better_subset :=
    to_float (if Rgt_dec inlier_counts (best_inlier_counts st) then true else false) in
  {| best_inlier_counts :=
       best_inlier_counts st * (1 - better_subset) + inlier_counts * better_subset;
     best_inliers :=
       zip_with (fun b i => b * (1 - better_subset) + i * better_subset)
         (best_inliers st) inliers |}.

(** One pass through the loop body for one point. *)
Definition ransac_step (p : PointViews) (st : RansacState) (subset : list nat)
  : result RansacState :=
  solution <- solution_subset p subset ;;
  Ok (ransac_update st (inliers_of p solution)).

(** The loop, for one point, over the subsets drawn in the iterations. *)
Fixpoint ransac_loop (p : PointViews) (st : RansacState) (subsets : list (list nat))
  : result RansacState :=
  match subsets with
  | [] => Ok st
  | subset :: rest => st' <- ransac_step p st subset ;; ransac_loop p st' rest
  end.

(** ** Refit on the best inlier group (lines 134-139) *)

Definition inlier_invalids (p : PointViews) (best : list R) : R :=
  at_most_two (zip_with Rmult (valid_mask p) best).

Definition inlier_normals (p : PointViews) (best : list R) : result vec3 :=
  let inlier_intensities := zip_with (fun l b => vscale b l) (gray_light_intensities p) best in
  let inlier_observations := zip_with Rmult (gray_observations p) best in
  inlier_intensities_pinv <-
    regularized_pinv inlier_intensities (mscale (inlier_invalids p best) eye) ;;
  Ok (normalize (pinv_apply inlier_intensities_pinv inlier_observations)).

(** ** Per-channel albedo (lines 141-153) *)

Definition inlier_mask (p : PointViews) (best : list R) : list R :=
  zip_with Rmult best (valid_mask p).

Definition c_light_intensities (p : PointViews) (best : list R) (normal : vec3) (c : nat)
  : list R :=
  zip_with (fun l m => inner_product normal (incident_channel c l) * m)
    (incident_light p) (inlier_mask p best).

Definition c_observations (p : PointViews) (best : list R) (c : nat) : list R :=
  zip_with (fun o m => channel c o * m) (observations p) (inlier_mask p best).

(** The fitted coefficient [c_albedo] of channel [c]. *)
Definition c_albedo (p : PointViews) (best : list R) (normal : vec3) (c : nat) : result R :=
  let cl := c_light_intensities p best normal c in
  inv <- inverse1 (Rsum (map (fun x => x * x) cl) + inlier_invalids p best) ;;
  let c_light_intensities_pinv := map (fun x => inv * x) cl in
  Ok (Rsum (zip_with Rmult c_light_intensities_pinv (c_observations p best c))).

Definition c_residuals (p : PointViews) (best : list R) (normal : vec3) (c : nat) (coef : R)
  : list R :=
  zip_with (fun l o => l * coef - o)
    (c_light_intensities p best normal c) (c_observations p best c).

Record PointResult : Type := {
  normal : vec3;
  albedos : vec3;
  inliers : list R;
  residuals : list vec3
}.

Fixpoint zip3 (a b c : list R) : list vec3 :=
  match a, b, c with
  | x :: a', y :: b', z :: c' => (x, y, z) :: zip3 a' b' c'
  | _, _, _ => []
  end.

(** Lines 134-155 for one point. *)
Definition refit (p : PointViews) (best : list R) : result PointResult :=
  n <- inlier_normals p best ;;
  a0 <- c_albedo p best n 0 ;;
  a1 <- c_albedo p best n 1 ;;
  a2 <- c_albedo p best n 2 ;;
  Ok {| normal := n;
        albedos := (PI * a0, PI * a1, PI * a2);
        inliers := best;
        residuals := zip3 (c_residuals p best n 0 a0)
                          (c_residuals p best n 1 a1)
                          (c_residuals p best n 2 a2) |}.

(** The solver for one point, given the subsets drawn by the loop. *)
Definition solve_point (subsets : list (list nat)) (p : PointViews) : result PointResult :=
  st <- ransac_loop p (ransac_init (length (observations p))) subsets ;;
  refit p (best_inliers st).

(** [closed_form_lambertian_solution]: [n] is the number of points, the
    batches are what the two collaborators return per training batch, and
    [draw k] is the subset that
    [np.random.choice(C, size=[subset_size], replace=False)] returns in
    iteration [k].  The tensors are solved point by point; the subsets are
    shared by all points. *)
Definition closed_form_lambertian_solution
  (sentinel : R) (n : nat) (draw : nat -> list nat) (batches : list Batch)
  : result (list PointResult) :=
  match batches with
  | [] => Raise (RuntimeError "torch.cat of an empty list")
  | _ =>
      let points := assemble sentinel n batches in
      (* observations.shape[1] *)
      let C := list_sum (map (fun b => length (batch_observations b)) batches) in
      mapM (solve_point (map draw (seq 0 (ransac_iterations C)))) points
  end.

(** Every tensor of the point has one entry per view. *)
Definition views_wf (C : nat) (p : PointViews) : Prop :=
  length (light_intensities p) = C /\ length (light_directions p) = C /\
  length (shadows p) = C /\ length (observations p) = C /\ length (occlusions p) = C.

(** The fitted coefficient as the specification words it: the 1x1 system
    always regularized by [+1]. *)
Definition c_albedo_plus_one (p : PointViews) (best : list R) (normal : vec3) (c : nat)
  : result R :=
  let cl := c_light_intensities p best normal c in
  inv <- inverse1 (Rsum (map (fun x => x * x) cl) + 1) ;;
  Ok (Rsum (zip_with Rmult (map (fun x => inv * x) cl) (c_observations p best c))).

(** A 0/1 entry of a float mask. *)
Definition is_flag (x : R) : Prop := x = 0 \/ x = 1.

(** What line 73 establishes between an occlusion flag and the observation
    it belongs to. *)
Definition flagged (sentinel : R) (occluded : bool) (observation : vec3) : Prop :=
  channel 1 observation = sentinel -> occluded = true.

End ClosedForm.

(** * parametrizations/locations.py *)

Module Locations.

(** An H x W image is the list of its rows. *)
Definition grid (A : Type) : Type := list (list A).

Definition height {A} (g : grid A) : nat := length g.
Definition width {A} (g : grid A) : nat :=
  match g with
  | [] => 0%nat
  | row :: _ => length row
  end.

Definition get {A} (d : A) (g : grid A) (i j : nat) : A := nth j (nth i g []) d.

Definition gmap {A B} (f : A -> B) (g : grid A) : grid B := map (map f) g.
Definition gmap2 {A B C} (f : A -> B -> C) (a : grid A) (b : grid B) : grid C :=
  zip_with (zip_with f) a b.

Fixpoint mapi_from {A B} (k : nat) (f : nat -> A -> B) (xs : list A) : list B :=
  match xs with
  | [] => []
  | x :: xs' => f k x :: mapi_from (S k) f xs'
  end.

Definition gmapi {A B} (f : nat -> nat -> A -> B) (g : grid A) : grid B :=
  mapi_from 0 (fun i row => mapi_from 0 (fun j x => f i j x) row) g.

(** Slices: [g[:-1]], [g[1:]], [g[:, :-1]], [g[:, 1:]]. *)
Definition rows_init {A} (g : grid A) : grid A := removelast g.
Definition rows_tail {A} (g : grid A) : grid A := tl g.
Definition cols_init {A} (g : grid A) : grid A := map (@removelast A) g.
Definition cols_tail {A} (g : grid A) : grid A := map (@tl A) g.

(** [m.sum()] of a boolean tensor. *)
Definition count_row (m : list bool) : nat := length (filter (fun b => b) m).
Definition count (m : grid bool) : nat := length (filter (fun b => b) (concat m)).

Definition same_shape {A B} (a : grid A) (b : grid B) : bool :=
  (length a =? length b)%nat
  && forallb (fun x => x) (zip_with (fun r s => (length r =? length s)%nat) a b).

(** An H x W tensor: [h] rows of [w] cells each. *)
Definition shape {A} (h w : nat) (g : grid A) : Prop :=
  length g = h /\ Forall (fun row => length row = w) g.

(** [torch.where(m, a, b)], cell by cell. *)
Definition gwhere {A} (m : grid bool) (a b : grid A) : grid A :=
  gmap2 (fun (c : bool) (xy : A * A) => if c then fst xy else snd xy) m (gmap2 pair a b).

(** ** Indexing with a boolean mask *)

Definition select_row {A} (m : list bool) (row : list A) : list A :=
  concat (zip_with (fun (b : bool) x => if b then [x] else []) m row).

(** [g[m]]: the cells under the mask, in row-major order. *)
Definition masked_select {A} (m : grid bool) (g : grid A) : result (list A) :=
  if same_shape m g then Ok (concat (zip_with select_row m g))
  else Raise IndexError.

Fixpoint scatter_row {A} (m : list bool) (row : list A) (vs : list A) : list A :=
  match m, row with
  | true :: m', x :: row' =>
      match vs with
      | v :: vs' => v :: scatter_row m' row' vs'
      | [] => row
      end
  | false :: m', x :: row' => x :: scatter_row m' row' vs
  | _, _ => row
  end.

Fixpoint scatter {A} (m : grid bool) (g : grid A) (vs : list A) : grid A :=
  match m, g with
  | mr :: m', row :: g' => scatter_row mr row vs :: scatter m' g' (skipn (count_row mr) vs)
  | _, _ => g
  end.

(** [g[m] = vs]: one value per masked cell in row-major order; a single
    value is broadcast to every masked cell. *)
Definition masked_assign {A} (m : grid bool) (g : grid A) (vs : list A) : result (grid A) :=
  if negb (same_shape m g) then Raise IndexError
  else if (length vs =? count m)%nat then Ok (scatter m g vs)
  else match vs with
       | [v] => Ok (gmap2 (fun (b : bool) x => if b then v else x) m g)
       | _ => Raise (RuntimeError "shape mismatch: value tensor cannot be broadcast to indexing result")
       end.

(** ** Calibration *)

(** The two blocks of the inverse pose that the code reads:
    [invRt[:3,:3]] and [invRt[:3,3:]]. *)
Record Pose : Type := {
  rotation : mat3;
  translation : vec3
}.

(** Modelled from the spec: [utils.depth_maps.depth_map_to_locations], which
    "unprojects each masked pixel's depth through (invK, invRt)": the pixel
    (column, row, 1) goes through the inverse intrinsics, is scaled by its
    depth and is moved to the world by the inverse pose. *)
Definition unproject (invK : mat3) (invRt : Pose) (i j : nat) (d : R) : vec3 :=
  vadd (mat_vec (rotation invRt) (vscale d (mat_vec invK (INR j, INR i, 1))))
       (translation invRt).

Definition depth_map_to_locations (depth : grid R) (invK : mat3) (invRt : Pose) : grid vec3 :=
  gmapi (unproject invK invRt) depth.

(** ** DepthMapParametrization *)

Record DepthMapParametrization : Type := {
  depth : grid R;
  mask : grid bool;
  invK : mat3;
  invRt : Pose;
  point_count : nat
}.

Fixpoint chunks {A} (h w : nat) (xs : list A) : grid A :=
  match h with
  | O => []
  | S h' => firstn w xs :: chunks h' w (skipn w xs)
  end.

(** [t.view(h, w)] of the elements of [t] in row-major order. *)
Definition view {A} (h w : nat) (xs : list A) : result (grid A) :=
  if (length xs =? h * w)%nat then Ok (chunks h w xs)
  else Raise (RuntimeError "shape is invalid for input size").

(** [DepthMapParametrization.initialize]; the mask comes as its elements in
    row-major order. *)
Definition initialize (depth0 : grid R) (mask0 : list R) (invK0 : mat3) (invRt0 : Pose)
  : result DepthMapParametrization :=
  m <- view (height depth0) (width depth0) mask0 ;;
  let self_mask := gmap (fun x => if Rgt_dec x 0 then true else false) m in
  Ok {| depth := depth0; mask := self_mask; invK := invK0; invRt := invRt0;
        point_count := count self_mask |}.

Definition location_vector (self : DepthMapParametrization) : result (list vec3) :=
  let depth_points := depth_map_to_locations (depth self) (invK self) (invRt self) in
  masked_select (mask self) depth_points.

Definition get_point_count (self : DepthMapParametrization) : nat := point_count self.

Section Images.

Context {A : Type}.

(** [blank] is a pixel of [torch.zeros(...)], after [fill_(filler)] when a
    filler is given. *)
Variable blank : A.

Definition create_image (self : DepthMapParametrization) (measurements : list A)
  : result (grid A) :=
  let image := map (fun row => map (fun _ => blank) row) (mask self) in
  masked_assign (mask self) image measurements.

Definition shape_eqb {B C} (a : grid B) (b : grid C) : bool :=
  (height a =? height b)%nat && (width a =? width b)%nat.

Definition create_vector (self : DepthMapParametrization) (measurement_image : grid A)
  : result (list A) :=
  if shape_eqb measurement_image (mask self) then
    masked_select (mask self) measurement_image
  else if (height (mask self) =? height measurement_image + 1)%nat
          && (width (mask self) =? width measurement_image + 1)%nat then
    masked_select (cols_init (rows_init (mask self))) measurement_image
  else Raise (LoggedError "Mask shape does not fit the measurement_image shape.").

End Images.

(** ** implied_normal_image *)

(** One output pixel of [conv2d(x, ones(1,1,5,5), padding=2)]: the sum of the
    5 x 5 window around (i, j), zero outside the image. *)
Definition padded (g : grid vec3) (i j : nat) : vec3 :=
  if (2 <=? i)%nat && (2 <=? j)%nat then get zero3 g (i - 2) (j - 2) else zero3.

Definition window_sum (g : grid vec3) (i j : nat) : vec3 :=
  vsum (flat_map (fun a => map (fun b => padded g (i + a) (j + b)) (seq 0 5)) (seq 0 5)).

Definition conv5x5 (g : grid vec3) : grid vec3 :=
  gmapi (fun i j _ => window_sum g i j) g.

Definition is_zero_norm (v : vec3) : bool :=
  if Req_EM_T (norm v) 0 then true else false.

(** [mask[-1,:].sum() + mask[:,-1].sum() > 0] *)
Definition touches_border (m : grid bool) : bool :=
  (0 <? count_row (last m []) + count_row (map (fun row => last row false) m))%nat.

(** Lines 54-63: the finite-difference normals, turned towards the camera. *)
Definition oriented_normals (location_image : grid vec3) (camloc : vec3) : grid vec3 :=
  let here := cols_init (rows_init location_image) in
  let down_vectors := gmap normalize (gmap2 vsub here (cols_init (rows_tail location_image))) in
  let right_vectors := gmap normalize (gmap2 vsub here (cols_tail (rows_init location_image))) in
  let normal_image := gmap normalize (gmap2 cross_product down_vectors right_vectors) in
  let reorientations :=
    gmap sign (gmap2 inner_product normal_image (gmap (vsub camloc) here)) in
  gmap2 (fun n s => vscale s n) normal_image reorientations.

(** One cell of lines 54-56: the finite-difference normal of pixel (i, j),
    before it is oriented. *)
Definition fd_normal (L : grid vec3) (i j : nat) : vec3 :=
  normalize (cross_product
               (normalize (vsub (get zero3 L i j) (get zero3 L (S i) j)))
               (normalize (vsub (get zero3 L i j) (get zero3 L i (S j))))).

(** Lines 65-69. *)
Definition local_normal_mean (normal_image : grid vec3) : grid vec3 :=
  gmap normalize (conv5x5 normal_image).

(** Lines 71-72. *)
Definition replacement_mask1 (m : grid bool) (normal_image : grid vec3) : grid bool :=
  let invalid_normals := gmap is_zero_norm normal_image in
  gmap2 andb (cols_init (rows_init m))
    (gmap2 orb (gmap2 orb invalid_normals (gmap negb (cols_init (rows_tail m))))
               (gmap negb (cols_tail (rows_init m)))).

(** Lines 76-77. *)
Definition replacement_mask2 (m : grid bool) (normal_image : grid vec3) : grid bool :=
  gmap2 andb (gmap is_zero_norm normal_image) (cols_init (rows_init m)).

(** Lines 82-97: one row of zeros below, then one column of zeros on the
    right.  [w] is [normal_image.shape[1]]. *)
Definition zero_pad (w : nat) (normal_image : grid vec3) : grid vec3 :=
  map (fun row => row ++ [zero3]) (normal_image ++ [repeat zero3 w]).

Definition implied_normal_image (self : DepthMapParametrization) : result (grid vec3) :=
  locations <- location_vector self ;;
  location_image <- create_image zero3 self locations ;;
  match mask self with
  | [] => Raise IndexError
  | [] :: _ => Raise IndexError
  | _ => Ok tt
  end ;;;
  (if touches_border (mask self)
   then Raise (LoggedError "The mask should not reach the bottom and right image edges.")
   else Ok tt) ;;;
  let camloc := translation (invRt self) in
  let normal_image := oriented_normals location_image camloc in
  let local_mean := local_normal_mean normal_image in
  let mask1 := replacement_mask1 (mask self) normal_image in
  replacements <- masked_select mask1 local_mean ;;
  normal_image <- masked_assign mask1 normal_image replacements ;;
  let mask2 := replacement_mask2 (mask self) normal_image in
  let mean_normal := normalize (vsum (concat local_mean)) in
  normal_image <- masked_assign mask2 normal_image [mean_normal] ;;
  (* [normal_image] is one column narrower than the mask *)
  Ok (zero_pad (width (mask self) - 1) normal_image).

(** ** PlaneParametrization.initialize *)

(** What a Python name can be bound to, as far as [initialize] cares: an
    integer, usable as a tensor dimension, or some other object. *)
Inductive PyValue : Type :=
| PyInt (n : nat)
| PyObject.

(** The names bound at module level when [initialize] runs: the imports and
    the definitions of the file, none of them an integer. *)
Definition module_globals : list (string * PyValue) :=
  map (fun name => (name, PyObject))
    ["ABC"; "abstractmethod"; "torch"; "Parametrization"; "depth_map_to_locations";
     "error"; "inner_product"; "cross_product"; "normalize"; "norm"; "lru_cache";
     "LocationParametrization"; "DepthMapParametrization"; "PlaneParametrization";
     "LocationParametrizationFactory"]%string.

Fixpoint assoc (name : string) (env : list (string * PyValue)) : option PyValue :=
  match env with
  | [] => None
  | (k, v) :: env' => if String.eqb k name then Some v else assoc name env'
  end.

Record PlaneParametrization : Type := {
  plane_invK : mat3;
  plane_invRt : Pose;
  plane_mask : grid bool;
  p_plane : vec3;
  camera_rays : list vec3;
  plane_point_count : nat
}.

Section Plane.

(** The bindings of Python's [builtins] module. *)
Variable builtins : list (string * PyValue).

(** [world_points.pinverse().sum(dim=1)] *)
Variable pinverse_sum : list vec3 -> vec3.

(** Reading a name that the function body does not assign, as [H] and [W]:
    the module's globals first, then the builtins. *)
Definition load_global (name : string) : result PyValue :=
  match assoc name (module_globals ++ builtins) with
  | Some v => Ok v
  | None => Raise (NameError name)
  end.

Definition as_dimension (v : PyValue) : result nat :=
  match v with
  | PyInt n => Ok n
  | PyObject => Raise (TypeError "an integer is required")
  end.

(** Lines 190-194, once [W] and [H] are known. *)
Definition plane_camera_rays (W H : nat) (m : grid bool) (invK0 : mat3) (invRt0 : Pose)
  : result (list vec3) :=
  let pixels := map (fun i => map (fun j => (INR j, INR i, 1)) (seq 0 W)) (seq 0 H) in
  masked_select m (gmap (fun x => mat_vec invK0 (mat_vec (rotation invRt0) x)) pixels).

Definition plane_initialize
  (depth0 : grid R) (mask0 : list R) (invK0 : mat3) (invRt0 : Pose)
  : result PlaneParametrization :=
  m <- view (height depth0) (width depth0) mask0 ;;
  let self_mask := gmap (fun x => if Rgt_dec x 0 then true else false) m in
  (* indexing by [mask] itself: the boolean H x W mask, or else an error *)
  world_points <- masked_select self_mask (depth_map_to_locations depth0 invK0 invRt0) ;;
  let plane := pinverse_sum world_points in
  W <- (v <- load_global "W" ;; as_dimension v) ;;
  H <- (v <- load_global "H" ;; as_dimension v) ;;
  rays <- plane_camera_rays W H self_mask invK0 invRt0 ;;
  Ok {| plane_invK := invK0; plane_invRt := invRt0; plane_mask := self_mask;
        p_plane := plane; camera_rays := rays; plane_point_count := count self_mask |}.

End Plane.

(** ** The remaining methods *)

(** [LocationParametrization.implied_normal_vector]. *)
Definition implied_normal_vector (self : DepthMapParametrization) : result (list vec3) :=
  normal_image <- implied_normal_image self ;;
  create_vector self normal_image.



(** [DepthMapParametrization.serialize] and [deserialize]; the latter
    assigns every attribute that [initialize] assigns. *)
Definition serialize (self : DepthMapParametrization) : grid R * mat3 * Pose * grid bool :=
  (depth self, invK self, invRt self, mask self).

Definition deserialize (args : grid R * mat3 * Pose * grid bool) : DepthMapParametrization :=
  let '(depth0, invK0, invRt0, mask0) := args in
  {| depth := depth0; mask := mask0; invK := invK0; invRt := invRt0;
     point_count := count mask0 |}.

(** [DepthMapParametrization.enforce_parameter_bounds]:
    [self.depth.data.clamp_(min=0.)]. *)
Definition enforce_parameter_bounds (self : DepthMapParametrization)
  : DepthMapParametrization :=
  {| depth := gmap (Rmax 0) (depth self); mask := mask self; invK := invK self;
     invRt := invRt self; point_count := point_count self |}.

(** [PlaneParametrization.location_vector]: every camera ray is followed
    from the camera location to the plane.  Where a ray is parallel to the
    plane the source divides by zero; the facts below exclude such rays. *)
Definition plane_location_vector (self : PlaneParametrization) : list vec3 :=
  let camera_loc := translation (plane_invRt self) in
  map (fun ray =>
         let ray_length := (1 - inner_product camera_loc (p_plane self))
                           / inner_product ray (p_plane self) in
         vadd camera_loc (vscale ray_length ray))
    (camera_rays self).

End Locations.

(** * experiment_settings.py *)

Module Settings.

(** A settings value, as the literal of main.py or [json.load] builds it.
    The keys of every mapping are strings. *)
#[warnings="-register-all"]
Inductive value : Type :=
| VNone
| VBool (b : bool)
| VInt (n : Z)
| VFloat (x : R)
| VStr (s : string)
| VList (items : list value)
| VDict (items : list (string * value)).

(** A Python [dict] with string keys, in insertion order. *)
Abbreviation dict := (list (string * value)).

Inductive exception : Type :=
| KeyError (key : value)
| IndexError
| TypeError
| ValueError
| AttributeError
| LoggedError (msg : string).     (* raised by utils.logging.error *)

Inductive outcome (A : Type) : Type :=
| Returns (a : A)
| Raises (e : exception).
Arguments Returns {A} a.
Arguments Raises {A} e.

Definition and_then {A B} (r : outcome A) (k : A -> outcome B) : outcome B :=
  match r with
  | Returns a => k a
  | Raises e => Raises e
  end.

Notation "x <~ c1 ;; c2" := (and_then c1 (fun x => c2))
  (at level 61, c1 at next level, right associativity).

(** [d.get(key)] *)
Fixpoint dict_get (key : string) (d : dict) : option value :=
  match d with
  | [] => None
  | (k, v) :: d' => if String.eqb k key then Some v else dict_get key d'
  end.

(** [d[key] = v]: an existing key keeps its place, a new one goes last. *)
Fixpoint dict_set (key : string) (v : value) (d : dict) : dict :=
  match d with
  | [] => [(key, v)]
  | (k, x) :: d' => if String.eqb k key then (k, v) :: d' else (k, x) :: dict_set key v d'
  end.

(** [d[key]] *)
Definition dict_item (key : string) (d : dict) : outcome value :=
  match dict_get key d with
  | Some v => Returns v
  | None => Raises (KeyError (VStr key))
  end.

Section Update.

(** [dict(l)] of a non-empty list [l]: a mapping if every element is a
    pair with a hashable first component, an exception otherwise. *)
Variable dict_of_pairs : list value -> outcome dict.

(** [dict(v)] *)
Definition dict_of (v : value) : outcome dict :=
  match v with
  | VDict items => Returns items
  | VList [] => Returns []
  | VList items => dict_of_pairs items
  | VStr EmptyString => Returns []
  | VStr _ => Raises ValueError
  | VNone | VBool _ | VInt _ | VFloat _ => Raises TypeError
  end.

(** [isinstance(v, collections.abc.Mapping)] *)
Definition is_mapping (v : value) : bool :=
  match v with
  | VDict _ => true
  | _ => false
  end.

(** [recursive_update(dictionary, updates)], lines 18-25. *)
Fixpoint recursive_update (dictionary updates : value) {struct updates} : outcome dict :=
  d <~ dict_of dictionary ;;
  match updates with
  | VDict items =>
      (fix loop (items : dict) (d : dict) {struct items} : outcome dict :=
         match items with
         | [] => Returns d
         | (key, v) :: rest =>
             match v with
             | VDict _ =>
                 inner <~ recursive_update
                               (match dict_get key d with Some x => x | None => VDict [] end) v ;;
                 loop rest (dict_set key (VDict inner) d)
             | _ => loop rest (dict_set key v d)
             end
         end) items d
  | _ => Raises AttributeError
  end.

(** The [for] loop of lines 20-24 on its own, over the items that are left
    to process. *)
Fixpoint update_items (items : dict) (d : dict) : outcome dict :=
  match items with
  | [] => Returns d
  | (key, v) :: rest =>
      match v with
      | VDict _ =>
          inner <~ recursive_update
                        (match dict_get key d with Some x => x | None => VDict [] end) v ;;
          update_items rest (dict_set key (VDict inner) d)
      | _ => update_items rest (dict_set key v d)
      end
  end.

(** [v[index]] for a list index that is not negative. *)
Definition subscript (v : value) (index : nat) : outcome value :=
  match v with
  | VList items =>
      match nth_error items index with
      | Some x => Returns x
      | None => Raises IndexError
      end
  | VDict _ => Raises (KeyError (VInt (Z.of_nat index)))
  | VStr s =>
      match String.get index s with
      | Some c => Returns (VStr (String c EmptyString))
      | None => Raises IndexError
      end
  | VNone | VBool _ | VInt _ | VFloat _ => Raises TypeError
  end.

(** [ExperimentSettings.get], lines 55-61; [settings] is [self.settings]. *)
Definition get (settings : dict) (name : string) (index : option nat) : outcome value :=
  subsettings <~ dict_item name settings ;;
  match index with
  | None => Returns subsettings
  | Some i =>
      subsettings <~ subscript subsettings i ;;
      if String.eqb name "optimization_steps" then
        defaults <~ dict_item "default_optimization_settings" settings ;;
        merged <~ recursive_update defaults subsettings ;;
        Returns (VDict merged)
      else Returns subsettings
  end.


End Update.

(** The keys of a mapping are distinct, at every depth. *)
Fixpoint distinct_keys (v : value) : Prop :=
  match v with
  | VDict items =>
      NoDup (map fst items) /\
      (fix all (items : dict) : Prop :=
         match items with
         | [] => True
         | (_, x) :: rest => distinct_keys x /\ all rest
         end) items
  | _ => True
  end.

End Settings.

(** * evaluation.py *)

Module Evaluation.

(** Lines 105-109 of [render_depth_normals] for one pixel of the rendered
    colour image: the colour is decoded into a vector, a pixel whose three
    channels are all 1 is invalid and set to zero, and the vector is divided
    by its length (plus 1 where the pixel is invalid). *)
Definition invalid_pixel (normals_rgb : vec3) : bool :=
  let '(r, g, b) := normals_rgb in
  (if Req_EM_T r 1 then true else false)
  && (if Req_EM_T g 1 then true else false)
  && (if Req_EM_T b 1 then true else false).

Definition decoded_normal (normals_rgb : vec3) : vec3 :=
  let '(r, g, b) := normals_rgb in
  let normals := ((128 - r * 255) / 128, (128 - g * 255) / 128, (128 - b * 255) / 128) in
  let invalids := invalid_pixel normals_rgb in
  let normals := if invalids then zero3 else normals in
  vscale (/ (norm normals + to_float invalids)) normals.

(** One pixel of the arrays that [evaluate_state] compares; the dilated and
    the eroded ground-truth depth come from OpenCV. *)
Record Pixel : Type := {
  estimated_depth : R;
  gt_depth_aligned : R;
  dilated_depth : R;
  eroded_depth : R;
  estimated_normals : vec3;
  gt_normals_aligned : vec3
}.

(** Lines 156-166, pixel by pixel. *)
Definition depth_diff (p : Pixel) : R := Rabs (estimated_depth p - gt_depth_aligned p).

Definition edges (p : Pixel) : bool :=
  if Rgt_dec (dilated_depth p - eroded_depth p) 0.02 then true else false.

Definition valid_pixels (p : Pixel) : bool :=
  (if Rgt_dec (estimated_depth p) 0 then true else false)
  && (if Rgt_dec (gt_depth_aligned p) 0 then true else false)
  && (if Rlt_dec (depth_diff p) 0.02 then true else false).

Definition edgevalid_pixels (p : Pixel) : bool := valid_pixels p && negb (edges p).

(** [x.clip(min=-1., max=1.)] *)
Definition clip (x : R) : R := Rmin (Rmax x (-1)) 1.

Definition normal_dotprods (p : Pixel) : R :=
  clip (inner_product (gt_normals_aligned p) (estimated_normals p)).

Definition normal_anglediff (p : Pixel) : R := acos (normal_dotprods p) / PI * 180.

(** Lines 168-169: the sums run over all pixels of the image. *)
Definition average_accuracy (image : list Pixel) : R :=
  Rsum (map (fun p => depth_diff p * to_float (edgevalid_pixels p)) image)
  / Rsum (map (fun p => to_float (edgevalid_pixels p)) image).

Definition average_angle_error (image : list Pixel) : R :=
  Rsum (map (fun p => to_float (edgevalid_pixels p) * normal_anglediff p) image)
  / Rsum (map (fun p => to_float (edgevalid_pixels p)) image).

(** ** CustomShaderCache *)

Section ShaderCache.

(** The shader programs of pyrender, the sources of a shader and the
    dictionary of preprocessor defines; [ShaderProgram] is pyrender's
    constructor. *)
Variables program shader defines : Type.
Variable ShaderProgram : string -> string -> option defines -> program.

(** The attribute [self.program]; [None] after [__init__]. *)
Record CustomShaderCache : Type := { cached_program : option program }.

Definition new_cache : CustomShaderCache := {| cached_program := None |}.

(** [get_program], lines 61-68: the program returned and the cache
    afterwards. *)
Definition get_program (self : CustomShaderCache)
  (vertex_shader fragment_shader : shader) (geometry_shader : option shader)
  (defs : option defines) : program * CustomShaderCache :=
  match cached_program self with
  | None =>
      let p := ShaderProgram "thirdparty/pyrender_shaders/evaluation_mesh.vert"
                 "thirdparty/pyrender_shaders/evaluation_mesh.frag" defs in
      (p, {| cached_program := Some p |})
  | Some p => (p, self)
  end.

(** The programs that a sequence of calls returns, one call after the
    other on the same cache. *)
Fixpoint get_programs (self : CustomShaderCache)
  (calls : list (shader * shader * option shader * option defines)) : list program :=
  match calls with
  | [] => []
  | (vertex_shader, fragment_shader, geometry_shader, defs) :: rest =>
      let '(p, self') := get_program self vertex_shader fragment_shader geometry_shader defs in
      p :: get_programs self' rest
  end.

End ShaderCache.

End Evaluation.

(** * Concrete scenes *)

Module Examples.
Import ClosedForm.

(** Four unshadowed, unoccluded views of one point under white unit lights;
    the first two views share their light direction, and the second one
    observes a highlight of 1e5 where the first observes nothing. *)
Definition p4 : PointViews :=
  {| light_intensities := [(1, 1, 1); (1, 1, 1); (1, 1, 1); (1, 1, 1)];
     light_directions := [(1, 0, 0); (1, 0, 0); (0, 1, 0); (0, 0, 1)];
     shadows := [false; false; false; false];
     observations := [(0, 0, 0); (1e5, 1e5, 1e5); (0, 0, 0); (0, 0, 0)];
     occlusions := [false; false; false; false] |}.

(** Three valid views of one point with normal (0, 0, 1) and albedo pi,
    lit along the three axes by white unit lights. *)
Definition p3 : PointViews :=
  {| light_intensities := [(1, 1, 1); (1, 1, 1); (1, 1, 1)];
     light_directions := [(1, 0, 0); (0, 1, 0); (0, 0, 1)];
     shadows := [false; false; false];
     observations := [(0, 0, 0); (0, 0, 0); (1, 1, 1)];
     occlusions := [false; false; false] |}.

(** One view in shadow, one valid view. *)
Definition p2 : PointViews :=
  {| light_intensities := [(1, 1, 1); (1, 1, 1)];
     light_directions := [(0, 0, 1); (1, 0, 0)];
     shadows := [true; false];
     observations := [(0, 0, 0); (3, 3, 3)];
     occlusions := [false; false] |}.

(** One batch of two views of one point; the extractor flags neither view as
    occluded.  With the sentinel -1, the first observation is out of bounds
    in channel 1, the second one only in channel 0. *)
Definition b2 : Batch :=
  {| batch_light_intensities := [[(1, 1, 1)]; [(1, 1, 1)]];
     batch_light_directions := [[(0, 0, 1)]; [(0, 0, 1)]];
     batch_shadows := [[false]; [false]];
     batch_observations := [[(5, -1, 5)]; [(-1, 0, 0)]];
     batch_occlusions := [[false]; [false]] |}.

(** Two views of one point, the first in shadow, the second occluded: no
    valid view at all. *)
Definition p_dark : PointViews :=
  {| light_intensities := [(1, 1, 1); (1, 1, 1)];
     light_directions := [(0, 0, 1); (1, 0, 0)];
     shadows := [true; false];
     observations := [(2, 2, 2); (3, 3, 3)];
     occlusions := [false; true] |}.

(** The same two views as one batch of one point. *)
Definition b_dark : Batch :=
  {| batch_light_intensities := [[(1, 1, 1)]; [(1, 1, 1)]];
     batch_light_directions := [[(0, 0, 1)]; [(1, 0, 0)]];
     batch_shadows := [[true]; [false]];
     batch_observations := [[(2, 2, 2)]; [(3, 3, 3)]];
     batch_occlusions := [[false]; [true]] |}.

(** The camera at the origin looking along z, with identity intrinsics. *)
Definition camera0 : Locations.Pose :=
  {| Locations.rotation := eye3; Locations.translation := (0, 0, 0) |}.

(** A 1 x 1 depth map whose only pixel is masked: the mask reaches the last
    row and the last column. *)
Definition depth1 : Locations.grid R := [[1]].
Definition mask1 : list R := [1].

(** A 3 x 3 depth map of constant depth 1 with the pixels (0,0), (0,1) and
    (1,0) masked. *)
Definition depth3 : Locations.grid R := [[1; 1; 1]; [1; 1; 1]; [1; 1; 1]].
Definition mask3 : list R := [1; 1; 0; 1; 0; 0; 0; 0; 0].

(** A 2 x 2 depth map of constant depth 1 with only the pixel (0,0) masked. *)
Definition depth2 : Locations.grid R := [[1; 1]; [1; 1]].
Definition mask2 : list R := [1; 0; 0; 0].

(** The same depth map seen by a camera at (0, 0, -1), with the pixels (0,1)
    and (1,0) masked: the unmasked pixel (0,0) has a masked neighbour below
    and a masked neighbour beside. *)
Definition camera1 : Locations.Pose :=
  {| Locations.rotation := eye3; Locations.translation := (0, 0, -1) |}.
Definition mask3b : list R := [0; 1; 0; 1; 0; 0; 0; 0; 0].

(** The states that [initialize] builds from them. *)
Definition self1 : Locations.DepthMapParametrization :=
  let m := Locations.gmap (fun x => if Rgt_dec x 0 then true else false)
             (Locations.chunks 1 1 mask1) in
  {| Locations.depth := depth1; Locations.mask := m; Locations.invK := eye3;
     Locations.invRt := camera0; Locations.point_count := Locations.count m |}.

Definition self2 : Locations.DepthMapParametrization :=
  let m := Locations.gmap (fun x => if Rgt_dec x 0 then true else false)
             (Locations.chunks 2 2 mask2) in
  {| Locations.depth := depth2; Locations.mask := m; Locations.invK := eye3;
     Locations.invRt := camera0; Locations.point_count := Locations.count m |}.

Definition self3b : Locations.DepthMapParametrization :=
  let m := Locations.gmap (fun x => if Rgt_dec x 0 then true else false)
             (Locations.chunks 3 3 mask3b) in
  {| Locations.depth := depth3; Locations.mask := m; Locations.invK := eye3;
     Locations.invRt := camera1; Locations.point_count := Locations.count m |}.

Definition self3 : Locations.DepthMapParametrization :=
  let m := Locations.gmap (fun x => if Rgt_dec x 0 then true else false)
             (Locations.chunks 3 3 mask3) in
  {| Locations.depth := depth3; Locations.mask := m; Locations.invK := eye3;
     Locations.invRt := camera0; Locations.point_count := Locations.count m |}.

(** A plane at depth 2 in front of [camera0], seen along one ray. *)
Definition plane1 : Locations.PlaneParametrization :=
  {| Locations.plane_invK := eye3; Locations.plane_invRt := camera0;
     Locations.plane_mask := [[true; false]]; Locations.p_plane := (0, 0, 1 / 2);
     Locations.camera_rays := [(0, 0, 1)]; Locations.plane_point_count := 1 |}.

End Examples.

Module SettingsExamples.
Import Settings.
Open Scope string_scope.

(** The optimization settings of main.py; the list of parameters and the
    losses of the defaults are shortened. *)
Definition main_defaults : dict :=
  [("parameters", VList [VStr "locations"; VStr "poses"; VStr "normals"]);
   ("losses", VDict [("photoconsistency L1", VFloat 1e-4);
                     ("normal smoothness", VFloat 1)]);
   ("iterations", VInt 1000);
   ("visualize_initial", VBool false);
   ("visualize_results", VBool true)].

Definition main_settings : dict :=
  [("default_optimization_settings", VDict main_defaults);
   ("optimization_steps",
    VList [VDict [("parameters", VList [VStr "diffuse_materials"; VStr "specular_weights";
                                         VStr "specular_materials"]);
                  ("visualize_initial", VBool true)]])].

(** What step 0 runs with. *)
Definition main_step0 : dict :=
  [("parameters", VList [VStr "diffuse_materials"; VStr "specular_weights";
                         VStr "specular_materials"]);
   ("losses", VDict [("photoconsistency L1", VFloat 1e-4);
                     ("normal smoothness", VFloat 1)]);
   ("iterations", VInt 1000);
   ("visualize_initial", VBool true);
   ("visualize_results", VBool true)].

(** The defaults with one loss and the iterations overridden. *)
Definition main_nested : dict :=
  [("parameters", VList [VStr "locations"; VStr "poses"; VStr "normals"]);
   ("losses", VDict [("photoconsistency L1", VFloat 1e-4);
                     ("normal smoothness", VFloat 2)]);
   ("iterations", VInt 10);
   ("visualize_initial", VBool false);
   ("visualize_results", VBool true)].

End SettingsExamples.

Module EvaluationExamples.
Import Evaluation.

(** A pixel on a flat part of the scan, estimated one centimetre short,
    with the normal of the scan. *)
Definition pixel1 : Pixel :=
  {| estimated_depth := 1; gt_depth_aligned := 1.01; dilated_depth := 1.01;
     eroded_depth := 1.01; estimated_normals := (0, 0, 1);
     gt_normals_aligned := (0, 0, 1) |}.

End EvaluationExamples.

(** * Tactics *)

(** Settle the comparisons of concrete reals that a run of the code meets,
    one at a time, each by linear arithmetic. *)
Ltac decide_one :=
  match goal with
  | |- context [Req_EM_T ?a ?b] =>
      first [ assert (a = b) by lra; destruct (Req_EM_T a b); [|exfalso; tauto]
            | assert (a <> b) by lra; destruct (Req_EM_T a b); [exfalso; tauto|] ]
  | |- context [Rle_dec ?a ?b] =>
      first [ assert (a <= b) by lra; destruct (Rle_dec a b); [|exfalso; tauto]
            | assert (~ a <= b) by lra; destruct (Rle_dec a b); [exfalso; tauto|] ]
  | |- context [Rlt_dec ?a ?b] =>
      first [ assert (a < b) by lra; destruct (Rlt_dec a b); [|exfalso; tauto]
            | assert (~ a < b) by lra; destruct (Rlt_dec a b); [exfalso; tauto|] ]
  | |- context [Rgt_dec ?a ?b] =>
      first [ assert (a > b) by lra; destruct (Rgt_dec a b); [|exfalso; tauto]
            | assert (~ a > b) by lra; destruct (Rgt_dec a b); [exfalso; tauto|] ]
  | |- context [Rabs ?a] =>
      first [ rewrite (Rabs_right a) by lra | rewrite (Rabs_left a) by lra ]
  end.

Ltac run_reals := repeat decide_one.

(** Equal tuples and lists of reals, component by component. *)
Ltac reals_eq := repeat (f_equal; try lra); try lra.

(** * Facts about the list helpers *)

Section ListFacts.

Context {A B C : Type}.

Lemma zip_with_length (f : A -> B -> C) (xs : list A) (ys : list B) :
  length (zip_with f xs ys) = Nat.min (length xs) (length ys).
Proof.
  revert ys; induction xs as [|x xs IH]; intros [|y ys]; simpl; auto.
Qed.

Lemma zip_with_nth (f : A -> B -> C) (da : A) (db : B) (dc : C) :
  forall (xs : list A) (ys : list B) (k : nat),
    (k < length xs)%nat -> (k < length ys)%nat ->
    nth k (zip_with f xs ys) dc = f (nth k xs da) (nth k ys db).
Proof.
  induction xs as [|x xs IH]; intros [|y ys] [|k]; simpl; intros; try lia; auto.
  apply IH; lia.
Qed.

Lemma zip_with_map_same (f : A -> B -> C) {D : Type} (g : D -> A) (h : D -> B) (l : list D) :
  zip_with f (map g l) (map h l) = map (fun x => f (g x) (h x)) l.
Proof.
  induction l as [|x l IH]; simpl; congruence.
Qed.

End ListFacts.

Lemma Rsum_app (xs ys : list R) : Rsum (xs ++ ys) = Rsum xs + Rsum ys.
Proof.
  induction xs as [|x xs IH]; simpl.
  - unfold Rsum; simpl; lra.
  - unfold Rsum in *; simpl; rewrite IH; lra.
Qed.

Lemma Rsum_nonneg (xs : list R) : Forall (fun x => 0 <= x) xs -> 0 <= Rsum xs.
Proof.
  induction 1 as [|x xs Hx _ IH]; unfold Rsum in *; simpl; lra.
Qed.

Lemma Rsum_le (xs ys : list R) : Forall2 Rle xs ys -> Rsum xs <= Rsum ys.
Proof.
  induction 1 as [|x y xs ys Hxy _ IH]; unfold Rsum in *; simpl; lra.
Qed.

Lemma Rsum_scale (k : R) (xs : list R) : Rsum (map (Rmult k) xs) = k * Rsum xs.
Proof.
  induction xs as [|x xs IH]; unfold Rsum in *; simpl; [lra | rewrite IH; lra].
Qed.

Lemma to_float_cases (b : bool) : to_float b = 0 \/ to_float b = 1.
Proof. destruct b; simpl; auto. Qed.

Lemma sign_cases (x : R) :
  (0 < x /\ sign x = 1) \/ (x < 0 /\ sign x = -1) \/ (x = 0 /\ sign x = 0).
Proof.
  unfold sign.
  destruct (Rlt_dec 0 x); [left; split; auto|].
  destruct (Rlt_dec x 0); [right; left; split; auto|].
  right; right; split; [lra | reflexivity].
Qed.

Lemma sign_mult_nonneg (x : R) : 0 <= sign x * x.
Proof. destruct (sign_cases x) as [[H E]|[[H E]|[H E]]]; rewrite E; lra. Qed.

(** * Facts about utils.vectors *)

Module VectorFacts.

Lemma inner_product_comm (a b : vec3) : inner_product a b = inner_product b a.
Proof. destruct a as [[a1 a2] a3], b as [[b1 b2] b3]; simpl; ring. Qed.

Lemma inner_product_vscale_l (k : R) (a b : vec3) :
  inner_product (vscale k a) b = k * inner_product a b.
Proof. destruct a as [[a1 a2] a3], b as [[b1 b2] b3]; simpl; ring. Qed.

Lemma inner_product_vadd_r (a b c : vec3) :
  inner_product a (vadd b c) = inner_product a b + inner_product a c.
Proof. destruct a as [[a1 a2] a3], b as [[b1 b2] b3], c as [[c1 c2] c3]; simpl; ring. Qed.

Lemma inner_self_nonneg (a : vec3) : 0 <= inner_product a a.
Proof. destruct a as [[a1 a2] a3]; simpl; nra. Qed.

Lemma inner_self_zero (a : vec3) : inner_product a a = 0 -> a = zero3.
Proof.
  destruct a as [[a1 a2] a3]; unfold zero3; simpl; intros H.
  assert (a1 = 0) by nra. assert (a2 = 0) by nra. assert (a3 = 0) by nra.
  congruence.
Qed.

Lemma inner_self_pos (a : vec3) : a <> zero3 -> 0 < inner_product a a.
Proof.
  intros Ha. destruct (Rle_lt_or_eq_dec _ _ (inner_self_nonneg a)) as [H|H]; auto.
  exfalso; apply Ha, inner_self_zero; auto.
Qed.

Lemma norm_nonneg (a : vec3) : 0 <= norm a.
Proof. apply sqrt_pos. Qed.

Lemma norm_zero3 : norm zero3 = 0.
Proof.
  unfold norm, zero3; simpl.
  replace (0 * 0 + 0 * 0 + 0 * 0) with 0 by ring. apply sqrt_0.
Qed.

Lemma norm_eq_0 (a : vec3) : norm a = 0 -> a = zero3.
Proof.
  intros H. apply inner_self_zero, sqrt_eq_0; auto using inner_self_nonneg.
Qed.

Lemma norm_vscale (k : R) (a : vec3) : norm (vscale k a) = Rabs k * norm a.
Proof.
  unfold norm.
  replace (inner_product (vscale k a) (vscale k a)) with (k * k * inner_product a a)
    by (destruct a as [[a1 a2] a3]; simpl; ring).
  rewrite sqrt_mult; auto using inner_self_nonneg; [|nra].
  f_equal. replace (k * k) with (Rsqr k) by (unfold Rsqr; ring). apply sqrt_Rsqr_abs.
Qed.

Lemma normalize_zero (a : vec3) : norm a = 0 -> normalize a = zero3.
Proof. intros H; unfold normalize; destruct (Req_EM_T (norm a) 0); tauto. Qed.

Lemma normalize_unit (a : vec3) : norm a <> 0 -> norm (normalize a) = 1.
Proof.
  intros H; unfold normalize; destruct (Req_EM_T (norm a) 0); [tauto|].
  rewrite norm_vscale. pose proof (norm_nonneg a).
  rewrite Rabs_right.
  - field; auto.
  - apply Rle_ge, Rlt_le, Rinv_0_lt_compat; lra.
Qed.

(** A normalized vector has length one, or it is the zero vector. *)
Lemma normalize_cases (a : vec3) : norm (normalize a) = 1 \/ normalize a = zero3.
Proof.
  destruct (Req_EM_T (norm a) 0); [right; apply normalize_zero | left; apply normalize_unit]; auto.
Qed.

Lemma vscale_sign_cases (s : R) (a : vec3) :
  (norm a = 1 \/ a = zero3) ->
  norm (vscale (sign s) a) = 1 \/ vscale (sign s) a = zero3.
Proof.
  intros [H|H].
  - destruct (sign_cases s) as [[_ E]|[[_ E]|[_ E]]]; rewrite E.
    + left; rewrite norm_vscale, Rabs_R1; lra.
    + left; rewrite norm_vscale.
      replace (Rabs (-1)) with 1 by (unfold Rabs; destruct (Rcase_abs (-1)); lra). lra.
    + right; destruct a as [[a1 a2] a3]; unfold zero3; simpl; f_equal; [f_equal|]; ring.
  - right; subst a; unfold zero3; simpl; f_equal; [f_equal|]; ring.
Qed.

(** ** Positive definite 3x3 systems *)

Lemma quad_madd (m n : mat3) (x : vec3) : quad (madd m n) x = quad m x + quad n x.
Proof.
  destruct m as [[[[m11 m12] m13] [[m21 m22] m23]] [[m31 m32] m33]].
  destruct n as [[[[n11 n12] n13] [[n21 n22] n23]] [[n31 n32] n33]].
  destruct x as [[x1 x2] x3]; unfold quad; simpl; ring.
Qed.

Lemma quad_mscale (k : R) (m : mat3) (x : vec3) : quad (mscale k m) x = k * quad m x.
Proof.
  destruct m as [[[[m11 m12] m13] [[m21 m22] m23]] [[m31 m32] m33]].
  destruct x as [[x1 x2] x3]; unfold quad; simpl; ring.
Qed.

Lemma quad_outer (a x : vec3) : quad (outer a a) x = inner_product a x * inner_product a x.
Proof.
  destruct a as [[a1 a2] a3], x as [[x1 x2] x3]; unfold quad; simpl; ring.
Qed.

Lemma quad_eye3 (x : vec3) : quad eye3 x = inner_product x x.
Proof. destruct x as [[x1 x2] x3]; unfold quad; simpl; ring. Qed.

Lemma quad_mzero (x : vec3) : quad mzero x = 0.
Proof. destruct x as [[x1 x2] x3]; unfold quad; simpl; ring. Qed.

Lemma symmetric_madd (m n : mat3) : symmetric m -> symmetric n -> symmetric (madd m n).
Proof.
  destruct m as [[[[m11 m12] m13] [[m21 m22] m23]] [[m31 m32] m33]].
  destruct n as [[[[n11 n12] n13] [[n21 n22] n23]] [[n31 n32] n33]].
  simpl; intros (-> & -> & ->) (-> & -> & ->); auto.
Qed.

Lemma symmetric_mscale (k : R) (m : mat3) : symmetric m -> symmetric (mscale k m).
Proof.
  destruct m as [[[[m11 m12] m13] [[m21 m22] m23]] [[m31 m32] m33]].
  simpl; intros (-> & -> & ->); auto.
Qed.

Lemma symmetric_outer (a : vec3) : symmetric (outer a a).
Proof. destruct a as [[a1 a2] a3]; simpl; repeat split; ring. Qed.

Lemma symmetric_eye3 : symmetric eye3.
Proof. simpl; auto. Qed.

(** Sylvester's criterion, as far as it is needed: a symmetric matrix whose
    quadratic form is positive away from zero has a positive determinant. *)
Lemma positive_definite_det (m : mat3) :
  symmetric m -> (forall x, x <> zero3 -> 0 < quad m x) -> 0 < det3 m.
Proof.
  destruct m as [[[[a b] c] [[d e] f]] [[g h] i]].
  simpl; intros (-> & -> & ->) Hpd.
  assert (Ha : 0 < a).
  { specialize (Hpd (1, 0, 0)). unfold quad in Hpd; simpl in Hpd.
    assert ((1, 0, 0) <> zero3) by (unfold zero3; intros E; injection E; lra).
    specialize (Hpd H). nra. }
  assert (Hm : 0 < a * e - d * d).
  { specialize (Hpd (- d, a, 0)). unfold quad in Hpd; simpl in Hpd.
    assert ((- d, a, 0) <> zero3) by (unfold zero3; intros E; injection E; lra).
    specialize (Hpd H). nra. }
  specialize (Hpd (d * h - g * e, d * g - a * h, a * e - d * d)).
  unfold quad in Hpd; simpl in Hpd.
  assert ((d * h - g * e, d * g - a * h, a * e - d * d) <> zero3)
    by (unfold zero3; intros E; injection E; lra).
  specialize (Hpd H).
  match goal with
  | |- 0 < ?D =>
      assert (E : (a * e - d * d) * D
                  = (d * h - g * e) * (a * (d * h - g * e) + d * (d * g - a * h) + g * (a * e - d * d))
                  + (d * g - a * h) * (d * (d * h - g * e) + e * (d * g - a * h) + h * (a * e - d * d))
                  + (a * e - d * d) * (g * (d * h - g * e) + h * (d * g - a * h) + i * (a * e - d * d)))
        by ring
  end.
  rewrite <- E in Hpd.
  apply Rmult_lt_reg_l with (a * e - d * d); auto. lra.
Qed.

End VectorFacts.
Import VectorFacts.

(** * Facts about closed_form.py *)

Module ClosedFormFacts.
Import ClosedForm.

(** ** Shapes *)

Section Shapes.

Variable C : nat.
Variable p : PointViews.
Hypothesis Hwf : views_wf C p.

Lemma valid_mask_length : length (valid_mask p) = C.
Proof.
  destruct Hwf as (_ & _ & Hs & _ & Ho).
  unfold valid_mask, shadowing_mask, occlusion_mask.
  rewrite zip_with_length, !length_map, Hs, Ho. lia.
Qed.

Lemma incident_light_length : length (incident_light p) = C.
Proof.
  destruct Hwf as (Hi & Hd & _).
  unfold incident_light. rewrite zip_with_length, Hi, Hd. lia.
Qed.

Lemma gray_light_intensities_length : length (gray_light_intensities p) = C.
Proof.
  unfold gray_light_intensities.
  rewrite zip_with_length, incident_light_length, valid_mask_length. lia.
Qed.

Lemma gray_observations_length : length (gray_observations p) = C.
Proof.
  destruct Hwf as (_ & _ & _ & Ho & _).
  unfold gray_observations. rewrite zip_with_length, Ho, valid_mask_length. lia.
Qed.

Lemma inliers_of_length (solution : vec3) : length (inliers_of p solution) = C.
Proof.
  unfold inliers_of, residuals_of.
  rewrite !zip_with_length, gray_light_intensities_length, gray_observations_length,
    valid_mask_length. lia.
Qed.

End Shapes.

(** ** The update of the best inlier set *)

Lemma blend_keep (xs ys : list R) :
  length xs = length ys ->
  zip_with (fun b i => b * (1 - 0) + i * 0) xs ys = xs.
Proof.
  revert ys; induction xs as [|x xs IH]; intros [|y ys]; simpl; intros H; try lia; auto.
  rewrite IH by lia. f_equal. ring.
Qed.

Lemma blend_take (xs ys : list R) :
  length xs = length ys ->
  zip_with (fun b i => b * (1 - 1) + i * 1) xs ys = ys.
Proof.
  revert ys; induction xs as [|x xs IH]; intros [|y ys]; simpl; intros H; try lia; auto.
  rewrite IH by lia. f_equal. ring.
Qed.

Lemma ransac_update_better (st : RansacState) (inl : list R) :
  length (best_inliers st) = length inl ->
  Rsum inl > best_inlier_counts st ->
  ransac_update st inl = {| best_inlier_counts := Rsum inl; best_inliers := inl |}.
Proof.
  intros Hlen Hgt. unfold ransac_update.
  destruct (Rgt_dec (Rsum inl) (best_inlier_counts st)); [|tauto].
  simpl. rewrite blend_take by auto. f_equal. ring.
Qed.

Lemma ransac_update_not_better (st : RansacState) (inl : list R) :
  length (best_inliers st) = length inl ->
  Rsum inl <= best_inlier_counts st ->
  ransac_update st inl = st.
Proof.
  intros Hlen Hle. unfold ransac_update.
  destruct (Rgt_dec (Rsum inl) (best_inlier_counts st)); [lra|].
  simpl. rewrite blend_keep by auto. destruct st; simpl. f_equal. ring.
Qed.

Lemma ransac_update_count_monotone (st : RansacState) (inl : list R) :
  best_inlier_counts st <= best_inlier_counts (ransac_update st inl).
Proof.
  unfold ransac_update.
  destruct (Rgt_dec (Rsum inl) (best_inlier_counts st)); simpl; lra.
Qed.

Lemma ransac_update_length (st : RansacState) (inl : list R) :
  length (best_inliers st) = length inl ->
  length (best_inliers (ransac_update st inl)) = length inl.
Proof.
  intros H. unfold ransac_update; simpl. rewrite zip_with_length. lia.
Qed.

Lemma ransac_step_inv (p : PointViews) (st st' : RansacState) (subset : list nat) :
  ransac_step p st subset = Ok st' ->
  exists solution,
    solution_subset p subset = Ok solution /\
    st' = ransac_update st (inliers_of p solution).
Proof.
  unfold ransac_step. destruct (solution_subset p subset) as [sol|e]; simpl; intros H.
  - exists sol. split; congruence.
  - discriminate.
Qed.

Lemma ransac_step_count_monotone (p : PointViews) (st st' : RansacState) (subset : list nat) :
  ransac_step p st subset = Ok st' -> best_inlier_counts st <= best_inlier_counts st'.
Proof.
  intros H. apply ransac_step_inv in H as (sol & _ & ->).
  apply ransac_update_count_monotone.
Qed.

Lemma ransac_loop_count_monotone (p : PointViews) (subsets : list (list nat)) :
  forall st st', ransac_loop p st subsets = Ok st' ->
    best_inlier_counts st <= best_inlier_counts st'.
Proof.
  induction subsets as [|s subsets IH]; simpl; intros st st' H.
  - injection H as <-. lra.
  - destruct (ransac_step p st s) as [st1|e] eqn:E; simpl in H; [|discriminate].
    apply ransac_step_count_monotone in E. apply IH in H. lra.
Qed.

Lemma ransac_loop_length (C : nat) (p : PointViews) (subsets : list (list nat)) :
  views_wf C p ->
  forall st st', length (best_inliers st) = C ->
    ransac_loop p st subsets = Ok st' -> length (best_inliers st') = C.
Proof.
  intros Hwf. induction subsets as [|s subsets IH]; simpl; intros st st' Hlen H.
  - injection H as <-. auto.
  - destruct (ransac_step p st s) as [st1|e] eqn:E; simpl in H; [|discriminate].
    apply ransac_step_inv in E as (sol & _ & ->).
    apply IH in H; auto.
    rewrite ransac_update_length; rewrite (inliers_of_length C); auto.
Qed.

(** C2: the best inlier count of a point starts at -1 and never decreases
    from one iteration to the next, nor over any further iterations; the
    stored inlier mask and count are replaced by an iteration's result when
    its inlier count is strictly greater than the stored one, and on a tie
    or a smaller count the earlier state is kept as it is. *)
Theorem ransac_best_count_monotone
  (C : nat) (p : PointViews) (pre : list (list nat)) (subset : list nat)
  (rest : list (list nat)) (st st' st'' : RansacState)
  (Hwf : views_wf C p)
  (Hpre : ransac_loop p (ransac_init C) pre = Ok st)
  (Hstep : ransac_step p st subset = Ok st')
  (Hrest : ransac_loop p st' rest = Ok st'') :
  best_inlier_counts (ransac_init C) = -1 /\
  best_inlier_counts st <= best_inlier_counts st' /\
  best_inlier_counts st' <= best_inlier_counts st'' /\
  exists solution,
    solution_subset p subset = Ok solution /\
    (Rsum (inliers_of p solution) > best_inlier_counts st ->
       best_inlier_counts st' = Rsum (inliers_of p solution) /\
       best_inliers st' = inliers_of p solution) /\
    (Rsum (inliers_of p solution) <= best_inlier_counts st -> st' = st).
Proof.
  split; [simpl; lra|].
  split; [eapply ransac_step_count_monotone; eauto|].
  split; [eapply ransac_loop_count_monotone; eauto|].
  assert (Hlen : length (best_inliers st) = C).
  { eapply ransac_loop_length; eauto. simpl. apply repeat_length. }
  apply ransac_step_inv in Hstep as (sol & Hsol & ->).
  exists sol. split; auto.
  assert (Hl : length (best_inliers st) = length (inliers_of p sol))
    by (rewrite (inliers_of_length C); auto).
  split; intros Hcmp.
  - rewrite ransac_update_better; auto.
  - apply ransac_update_not_better; auto.
Qed.


(** ** The number of iterations *)

Lemma Int_part_IZR_between (x : R) (z : Z) : IZR z <= x < IZR z + 1 -> Int_part x = z.
Proof. intros [H1 H2]. symmetry. apply Int_part_spec. lra. Qed.

Lemma py_int_between (x : R) (z : Z) : (0 <= z)%Z -> IZR z <= x < IZR z + 1 -> py_int x = z.
Proof.
  intros Hz H. unfold py_int.
  assert (0 <= IZR z) by (apply IZR_le in Hz; auto).
  destruct (Rle_dec 0 x); [apply Int_part_IZR_between; auto | lra].
Qed.

Lemma pow_ratio (a b : Z) (n : nat) :
  (0 < b)%Z -> (IZR a / IZR b) ^ n = IZR (a ^ Z.of_nat n) / IZR (b ^ Z.of_nat n).
Proof.
  intros Hb. assert (IZR b <> 0) by (apply not_0_IZR; lia).
  unfold Rdiv. rewrite Rpow_mult_distr, pow_inv, !pow_IZR. reflexivity.
Qed.

Lemma ratio_lt (a b c d : Z) :
  (0 < b)%Z -> (0 < d)%Z -> (a * d < c * b)%Z -> IZR a / IZR b < IZR c / IZR d.
Proof.
  intros Hb Hd H.
  apply IZR_lt in Hb, Hd, H. rewrite !mult_IZR in H.
  apply Rmult_lt_reg_r with (IZR b * IZR d); [nra|].
  field_simplify; lra.
Qed.

(** The two bounds that pin the iteration count: with a = 1e-4 and
    b = 1 - 0.8^6, b^303 < a^10 < b^302. *)
Lemma success_power_bounds :
  (11529 / 15625) ^ 303 < (1 / 10000) ^ 10 < (11529 / 15625) ^ 302.
Proof.
  rewrite !pow_ratio by lia.
  split; apply ratio_lt; try (vm_compute; reflexivity).
Qed.

Lemma nr_its_many_views (C : nat) : (6 < C)%nat -> 302 < nr_its C < 303.
Proof.
  intros HC. unfold nr_its, subset_size.
  replace (Nat.min C 6) with 6%nat by lia.
  destruct (6 <? C)%nat eqn:E; [|apply Nat.ltb_ge in E; lia].
  unfold targeted_success_chance, estimated_outlier_ratio.
  replace (1 - (1 - 1e-4)) with (1 / 10000) by lra.
  replace (1 - (1 - 0.20) ^ 6) with (11529 / 15625) by lra.
  pose proof success_power_bounds as [Hlo Hhi].
  assert (Ha : 0 < 1 / 10000) by lra.
  assert (Hb : 0 < 11529 / 15625) by lra.
  assert (Hlnb : ln (11529 / 15625) < 0).
  { rewrite <- ln_1. apply ln_increasing; lra. }
  apply ln_increasing in Hlo; [|apply pow_lt; lra].
  apply ln_increasing in Hhi; [|apply pow_lt; lra].
  rewrite !ln_pow in Hlo, Hhi by lra.
  rewrite !INR_IZR_INZ in Hlo, Hhi.
  simpl Z.of_nat in Hlo, Hhi.
  set (la := ln (1 / 10000)) in *. set (lb := ln (11529 / 15625)) in *.
  assert (Hinv : / lb < 0) by (apply Rinv_lt_0_compat; auto).
  assert (E1 : 10 * la / lb - 302 = (10 * la - 302 * lb) * / lb) by (field; lra).
  assert (E2 : 303 - 10 * la / lb = (303 * lb - 10 * la) * / lb) by (field; lra).
  split.
  - assert (0 < 10 * la / lb - 302); [|lra].
    rewrite E1. apply Rmult_neg_neg; lra.
  - assert (0 < 303 - 10 * la / lb); [|lra].
    rewrite E2. apply Rmult_neg_neg; lra.
Qed.

Lemma ransac_iterations_many_views (C : nat) : (6 < C)%nat -> ransac_iterations C = 302%nat.
Proof.
  intros HC. unfold ransac_iterations.
  rewrite (py_int_between _ 302%Z); [reflexivity | lia |].
  pose proof (nr_its_many_views C HC). lra.
Qed.

Lemma ransac_iterations_few_views (C : nat) : (C <= 6)%nat -> ransac_iterations C = 1%nat.
Proof.
  intros HC. unfold ransac_iterations, nr_its, subset_size.
  replace (Nat.min C 6) with C by lia.
  rewrite Nat.ltb_irrefl.
  rewrite (py_int_between _ 1%Z); [reflexivity | lia | lra].
Qed.

(** ** Entries of the masks *)

Lemma zip_with_Forall {A B C} (P : C -> Prop) (f : A -> B -> C) (xs : list A) (ys : list B) :
  (forall x y, P (f x y)) -> Forall P (zip_with f xs ys).
Proof.
  intros H. revert ys; induction xs as [|x xs IH]; intros [|y ys]; simpl; auto.
Qed.

Lemma zip_with_map {A B C A' B'} (f : A -> B -> C) (g : A' -> A) (h : B' -> B)
  (xs : list A') (ys : list B') :
  zip_with f (map g xs) (map h ys) = zip_with (fun x y => f (g x) (h y)) xs ys.
Proof.
  revert ys; induction xs as [|x xs IH]; intros [|y ys]; simpl; auto. now rewrite IH.
Qed.

Lemma valid_mask_flags (p : PointViews) : Forall is_flag (valid_mask p).
Proof.
  unfold valid_mask, shadowing_mask, occlusion_mask. rewrite zip_with_map.
  apply zip_with_Forall. intros [|] [|]; unfold is_flag; simpl; [left|left|left|right]; ring.
Qed.

Lemma inliers_of_flags (p : PointViews) (solution : vec3) :
  Forall is_flag (inliers_of p solution).
Proof.
  unfold inliers_of. pose proof (valid_mask_flags p) as Hv. revert Hv.
  generalize (valid_mask p) (residuals_of p solution).
  intros vs rs; revert rs; induction vs as [|v vs IH]; intros [|r rs] Hv; simpl; auto.
  inversion Hv as [|? ? Hv1 Hv2]; subst. constructor; auto.
  destruct (Rlt_dec (Rabs r) threshold); destruct Hv1 as [-> | ->];
    unfold is_flag; simpl; [left|right|left|left]; ring.
Qed.

Lemma flags_nonneg (xs : list R) : Forall is_flag xs -> Forall (fun x => 0 <= x) xs.
Proof. apply Forall_impl. intros x [-> | ->]; lra. Qed.

Lemma flags_unit (xs : list R) : Forall is_flag xs -> Forall (fun x => 0 <= x <= 1) xs.
Proof. apply Forall_impl. intros x [-> | ->]; lra. Qed.

Lemma inliers_of_nth (C : nat) (p : PointViews) (solution : vec3) (v : nat) :
  views_wf C p -> (v < C)%nat ->
  nth v (inliers_of p solution) 0
  = (if Rlt_dec (Rabs (nth v (residuals_of p solution) 0)) threshold then 1 else 0)
    * nth v (valid_mask p) 0.
Proof.
  intros Hwf Hv. unfold inliers_of.
  rewrite (zip_with_nth _ 0 0 0).
  - destruct (Rlt_dec _ threshold); reflexivity.
  - unfold residuals_of.
    rewrite zip_with_length, (gray_light_intensities_length C), (gray_observations_length C);
      auto; lia.
  - rewrite (valid_mask_length C p Hwf); auto.
Qed.

(** After the first pass through the loop body the stored inliers are those
    of that pass: any count beats the initial -1. *)
Lemma ransac_first_step (C : nat) (p : PointViews) (subset : list nat) (st : RansacState) :
  views_wf C p ->
  ransac_step p (ransac_init C) subset = Ok st ->
  exists solution,
    solution_subset p subset = Ok solution /\
    best_inliers st = inliers_of p solution /\
    best_inlier_counts st = Rsum (inliers_of p solution).
Proof.
  intros Hwf H. apply ransac_step_inv in H as (sol & Hsol & ->).
  exists sol. split; auto.
  rewrite ransac_update_better; simpl; auto.
  - rewrite repeat_length, (inliers_of_length C); auto.
  - pose proof (Rsum_nonneg _ (flags_nonneg _ (inliers_of_flags p sol))). lra.
Qed.

(** ** The scene [p4], step by step *)

Import Examples.

Lemma p4_wf : views_wf 4 p4.
Proof. repeat split. Qed.

Lemma p4_valid_mask : valid_mask p4 = [1; 1; 1; 1].
Proof.
  cbv [valid_mask shadowing_mask occlusion_mask p4 shadows occlusions map zip_with negb to_float].
  reals_eq.
Qed.

Lemma p4_gray_light_intensities :
  gray_light_intensities p4 = [(1, 0, 0); (1, 0, 0); (0, 1, 0); (0, 0, 1)].
Proof.
  unfold gray_light_intensities. rewrite p4_valid_mask.
  cbv [incident_light p4 light_intensities light_directions zip_with vscale vadd]. reals_eq.
Qed.

Lemma p4_gray_observations : gray_observations p4 = [0; 1e5; 0; 0].
Proof.
  unfold gray_observations. rewrite p4_valid_mask.
  cbv [p4 observations zip_with mean3]. reals_eq.
Qed.

Lemma inverse3_diag (a b c : R) :
  a <> 0 -> b <> 0 -> c <> 0 ->
  inverse3 ((a, 0, 0), (0, b, 0), (0, 0, c)) = Ok ((/ a, 0, 0), (0, / b, 0), (0, 0, / c)).
Proof.
  intros Ha Hb Hc. unfold inverse3.
  assert (Hd : det3 ((a, 0, 0), (0, b, 0), (0, 0, c)) = a * b * c) by (simpl; ring).
  assert (Hn : a * b * c <> 0) by (repeat apply Rmult_integral_contrapositive_currified; auto).
  destruct (Req_EM_T _ 0) as [E|E]; [rewrite Hd in E; tauto|].
  rewrite Hd. simpl. repeat f_equal; field; auto.
Qed.

Lemma p4_solution_subset : solution_subset p4 [0; 1; 2; 3]%nat = Ok (5e4, 0, 0).
Proof.
  unfold solution_subset, regularized_pinv.
  rewrite p4_gray_light_intensities, p4_gray_observations.
  replace (zip_with Rmult (index_select 0 (shadowing_mask p4) [0; 1; 2; 3]%nat)
             (index_select 0 (occlusion_mask p4) [0; 1; 2; 3]%nat)) with [1; 1; 1; 1]
    by (cbv [index_select shadowing_mask occlusion_mask p4 shadows occlusions map nth
             zip_with negb to_float]; reals_eq).
  replace (at_most_two [1; 1; 1; 1]) with 0
    by (cbv [at_most_two Rsum fold_right]; run_reals; reflexivity).
  replace (madd (gram (index_select zero3 [(1, 0, 0); (1, 0, 0); (0, 1, 0); (0, 0, 1)]
                         [0; 1; 2; 3]%nat)) (mscale 0 eye))
    with ((2, 0, 0), (0, 1, 0), (0, 0, 1))
    by (cbv [index_select map nth gram fold_right madd mscale outer eye eye3 mzero zero3
             vadd vscale]; reals_eq).
  rewrite inverse3_diag by lra.
  cbv [bind index_select map nth mat_vec inner_product pinv_apply zip_with vsum fold_right
       vadd vscale zero3].
  reals_eq.
Qed.

Lemma p4_inliers_of : inliers_of p4 (5e4, 0, 0) = [0; 0; 1; 1].
Proof.
  unfold inliers_of, residuals_of.
  rewrite p4_gray_light_intensities, p4_gray_observations, p4_valid_mask.
  cbv [zip_with inner_product threshold to_float].
  run_reals. reals_eq.
Qed.

Lemma p4_ransac_step :
  ransac_step p4 (ransac_init 4) [0; 1; 2; 3]%nat
  = Ok {| best_inlier_counts := 2; best_inliers := [0; 0; 1; 1] |}.
Proof.
  unfold ransac_step. rewrite p4_solution_subset. cbv [bind]. rewrite p4_inliers_of.
  rewrite ransac_update_better.
  - do 2 f_equal. cbv [Rsum fold_right]. lra.
  - reflexivity.
  - cbv [Rsum fold_right ransac_init best_inlier_counts]. lra.
Qed.

Lemma flags_0011_differ : [0; 0; 1; 1] <> [1; 1; 1; 1].
Proof. intros E. injection E. lra. Qed.

Lemma ransac_best_count_monotone_witness :
  best_inlier_counts (ransac_init 4) = -1 /\
  best_inlier_counts (ransac_init 4) <= 2 /\
  2 <= 2 /\
  exists solution,
    solution_subset p4 [0; 1; 2; 3]%nat = Ok solution /\
    (Rsum (inliers_of p4 solution) > best_inlier_counts (ransac_init 4) ->
       2 = Rsum (inliers_of p4 solution) /\ [0; 0; 1; 1] = inliers_of p4 solution) /\
    (Rsum (inliers_of p4 solution) <= best_inlier_counts (ransac_init 4) ->
       {| best_inlier_counts := 2; best_inliers := [0; 0; 1; 1] |} = ransac_init 4).
Proof.
  exact (ransac_best_count_monotone 4 p4 [] [0; 1; 2; 3]%nat []
           (ransac_init 4)
           {| best_inlier_counts := 2; best_inliers := [0; 0; 1; 1] |}
           {| best_inlier_counts := 2; best_inliers := [0; 0; 1; 1] |}
           p4_wf eq_refl p4_ransac_step eq_refl).
Defined.

(** C1: with more than [subset_size] views the loop body runs
    floor(10 ln(1 - targeted_success_chance) / ln(1 - (1 - estimated_outlier_ratio)^subset_size))
    times, which is 302 times; with at most [subset_size] views it runs
    once, and the inliers it leaves are those of that single pass: a view is
    an inlier when it is valid and the absolute residual of the gray fit is
    below the threshold, so the inliers are among the valid views. *)
Theorem ransac_iteration_count
  (C : nat) (draw : nat -> list nat) (p : PointViews) (st : RansacState) :
  ((subset_size C < C)%nat ->
     ransac_iterations C
     = Z.to_nat (Int_part (10 * ln (1 - targeted_success_chance)
                           / ln (1 - (1 - estimated_outlier_ratio) ^ subset_size C)))
     /\ ransac_iterations C = 302%nat) /\
  ((subset_size C >= C)%nat ->
     ransac_iterations C = 1%nat /\
     (views_wf C p ->
      ransac_loop p (ransac_init C) (map draw (seq 0 (ransac_iterations C))) = Ok st ->
      exists solution,
        solution_subset p (draw 0%nat) = Ok solution /\
        best_inliers st = inliers_of p solution /\
        forall v, (v < C)%nat ->
          nth v (best_inliers st) 0
          = (if Rlt_dec (Rabs (nth v (residuals_of p solution) 0)) threshold then 1 else 0)
            * nth v (valid_mask p) 0 /\
          (nth v (best_inliers st) 0 = 1 -> nth v (valid_mask p) 0 = 1))).
Proof.
  split.
  - intros HC. assert (H6 : (6 < C)%nat) by (unfold subset_size in HC; lia).
    split; [|apply ransac_iterations_many_views; auto].
    unfold ransac_iterations. f_equal.
    pose proof (nr_its_many_views C H6) as Hn.
    unfold nr_its in *. destruct (subset_size C <? C)%nat eqn:E;
      [|apply Nat.ltb_ge in E; lia].
    unfold py_int. destruct (Rle_dec 0 _); [reflexivity | lra].
  - intros HC. assert (H6 : (C <= 6)%nat) by (unfold subset_size in HC; lia).
    split; [apply ransac_iterations_few_views; auto|].
    intros Hwf Hloop. rewrite ransac_iterations_few_views in Hloop by auto.
    simpl in Hloop.
    destruct (ransac_step p (ransac_init C) (draw 0%nat)) as [st1|e] eqn:E;
      simpl in Hloop; [|discriminate].
    injection Hloop as <-.
    destruct (ransac_first_step C p _ _ Hwf E) as (sol & Hsol & Hbest & _).
    exists sol. repeat split; auto.
    + rewrite Hbest. apply (inliers_of_nth C); auto.
    + rewrite Hbest, (inliers_of_nth C); auto.
      assert (Hf : is_flag (nth v (valid_mask p) 0)).
      { pose proof (valid_mask_flags p) as F. rewrite Forall_forall in F.
        apply F, nth_In. rewrite (valid_mask_length C p Hwf); auto. }
      destruct (Rlt_dec _ threshold); destruct Hf as [-> | ->]; lra.
Qed.

Lemma ransac_iteration_count_witness :
  ((subset_size 7 < 7)%nat /\ ransac_iterations 7 = 302%nat) /\
  ((subset_size 4 >= 4)%nat /\ ransac_iterations 4 = 1%nat /\
   exists solution,
     solution_subset p4 [0; 1; 2; 3]%nat = Ok solution /\
     [0; 0; 1; 1] = inliers_of p4 solution).
Proof.
  split.
  - assert (H : (subset_size 7 < 7)%nat) by (vm_compute; lia).
    split; [exact H|].
    exact (proj2 (proj1 (ransac_iteration_count 7 (fun _ => []) p4 (ransac_init 7)) H)).
  - assert (H : (subset_size 4 >= 4)%nat) by (vm_compute; lia).
    split; [exact H|].
    pose proof (proj2 (ransac_iteration_count 4 (fun _ => [0; 1; 2; 3]%nat) p4
                         {| best_inlier_counts := 2; best_inliers := [0; 0; 1; 1] |}) H)
      as [Hits Hloop].
    split; [exact Hits|].
    destruct Hloop as (sol & Hsol & Hbest & _).
    + exact p4_wf.
    + rewrite Hits. simpl. rewrite p4_ransac_step. reflexivity.
    + exists sol. split; [exact Hsol | exact Hbest].
Defined.

(** C1, as stated, fails: four views make one iteration over all of them,
    every view is valid, and only two of them end up as inliers. *)
Lemma single_iteration_inliers_counterexample :
  (subset_size 4 >= 4)%nat /\
  ransac_iterations 4 = 1%nat /\
  ransac_loop p4 (ransac_init 4)
    (map (fun _ => [0; 1; 2; 3]%nat) (seq 0 (ransac_iterations 4)))
  = Ok {| best_inlier_counts := 2; best_inliers := [0; 0; 1; 1] |} /\
  valid_mask p4 = [1; 1; 1; 1] /\
  [0; 0; 1; 1] <> valid_mask p4.
Proof.
  assert (Hits : ransac_iterations 4 = 1%nat) by (apply ransac_iterations_few_views; lia).
  split; [vm_compute; lia|].
  split; [exact Hits|].
  split; [rewrite Hits; simpl; rewrite p4_ransac_step; reflexivity|].
  split; [exact p4_valid_mask|].
  rewrite p4_valid_mask. exact flags_0011_differ.
Qed.

(** ** Regularized systems can be solved *)

Lemma gram_symmetric (A : list vec3) : symmetric (gram A).
Proof.
  induction A as [|a A IH]; simpl.
  - repeat split; reflexivity.
  - apply symmetric_madd; auto using symmetric_outer.
Qed.

Lemma gram_quad_nonneg (A : list vec3) (x : vec3) : 0 <= quad (gram A) x.
Proof.
  induction A as [|a A IH]; simpl.
  - rewrite quad_mzero. lra.
  - rewrite quad_madd, quad_outer. nra.
Qed.

Lemma eye_symmetric : symmetric eye.
Proof. apply symmetric_mscale, symmetric_eye3. Qed.

Lemma regularized_det_pos (A : list vec3) : 0 < det3 (madd (gram A) (mscale 1 eye)).
Proof.
  apply positive_definite_det.
  - apply symmetric_madd; [apply gram_symmetric | apply symmetric_mscale, eye_symmetric].
  - intros x Hx. unfold eye. rewrite quad_madd, !quad_mscale, quad_eye3.
    pose proof (gram_quad_nonneg A x). pose proof (inner_self_pos x Hx). nra.
Qed.

Lemma regularized_pinv_ok (A : list vec3) :
  exists inv,
    inverse3 (madd (gram A) (mscale 1 eye)) = Ok inv /\
    regularized_pinv A (mscale 1 eye) = Ok (map (mat_vec inv) A).
Proof.
  unfold regularized_pinv, inverse3.
  pose proof (regularized_det_pos A).
  destruct (Req_EM_T _ 0) as [E|E]; [lra|].
  eexists; split; reflexivity.
Qed.

Lemma at_most_two_le (xs : list R) : Rsum xs <= 2 -> at_most_two xs = 1.
Proof. intros H; unfold at_most_two; destruct (Rle_dec (Rsum xs) 2); tauto. Qed.

Lemma solution_subset_degenerate (p : PointViews) (subset : list nat) :
  Rsum (zip_with Rmult (index_select 0 (shadowing_mask p) subset)
          (index_select 0 (occlusion_mask p) subset)) <= 2 ->
  exists inv,
    inverse3 (madd (gram (index_select zero3 (gray_light_intensities p) subset))
                (mscale 1 eye)) = Ok inv /\
    solution_subset p subset
    = Ok (pinv_apply (map (mat_vec inv) (index_select zero3 (gray_light_intensities p) subset))
            (index_select 0 (gray_observations p) subset)).
Proof.
  intros H. unfold solution_subset. rewrite (at_most_two_le _ H).
  destruct (regularized_pinv_ok (index_select zero3 (gray_light_intensities p) subset))
    as (inv & Hinv & Hp).
  exists inv. split; auto. rewrite Hp. reflexivity.
Qed.

Lemma inlier_normals_degenerate (p : PointViews) (best : list R) :
  Rsum (zip_with Rmult (valid_mask p) best) <= 2 ->
  exists inv,
    inverse3 (madd (gram (zip_with (fun l b => vscale b l) (gray_light_intensities p) best))
                (mscale 1 eye)) = Ok inv /\
    inlier_normals p best
    = Ok (normalize
            (pinv_apply
               (map (mat_vec inv)
                  (zip_with (fun l b => vscale b l) (gray_light_intensities p) best))
               (zip_with Rmult (gray_observations p) best))).
Proof.
  intros H. unfold inlier_normals, inlier_invalids. rewrite (at_most_two_le _ H).
  destruct (regularized_pinv_ok
              (zip_with (fun l b => vscale b l) (gray_light_intensities p) best))
    as (inv & Hinv & Hp).
  exists inv. split; auto. rewrite Hp. reflexivity.
Qed.

Lemma Rsum_squares_nonneg (xs : list R) : 0 <= Rsum (map (fun x => x * x) xs).
Proof. apply Rsum_nonneg, Forall_map, Forall_forall. intros x _. nra. Qed.

Lemma c_albedo_degenerate (p : PointViews) (best : list R) (n : vec3) (c : nat) :
  Rsum (zip_with Rmult (valid_mask p) best) <= 2 ->
  exists coef, c_albedo p best n c = Ok coef.
Proof.
  intros H. unfold c_albedo, inlier_invalids, inverse1. rewrite (at_most_two_le _ H).
  pose proof (Rsum_squares_nonneg (c_light_intensities p best n c)).
  destruct (Req_EM_T _ 0) as [E|E]; [lra|].
  eexists; reflexivity.
Qed.

Lemma refit_degenerate (p : PointViews) (best : list R) :
  Rsum (zip_with Rmult (valid_mask p) best) <= 2 ->
  exists r, refit p best = Ok r.
Proof.
  intros H. unfold refit.
  destruct (inlier_normals_degenerate p best H) as (inv & _ & ->). cbv [bind].
  set (n := normalize _).
  destruct (c_albedo_degenerate p best n 0 H) as (a0 & ->).
  destruct (c_albedo_degenerate p best n 1 H) as (a1 & ->).
  destruct (c_albedo_degenerate p best n 2 H) as (a2 & ->).
  eexists; reflexivity.
Qed.

(** ** Subsets drawn without replacement *)

Lemma Rsum_select_cons (x : R) (xs : list R) (subset : list nat) :
  NoDup subset ->
  Rsum (map (fun k => nth k (x :: xs) 0) subset)
  = (if existsb (Nat.eqb 0) subset then x else 0)
    + Rsum (map (fun k => nth k xs 0)
              (map Nat.pred (filter (fun k => negb (k =? 0)%nat) subset)))
  /\ NoDup (map Nat.pred (filter (fun k => negb (k =? 0)%nat) subset)).
Proof.
  induction 1 as [|k s Hk Hs [IH1 IH2]].
  - simpl. split; [unfold Rsum; simpl; lra | constructor].
  - destruct k as [|k].
    + simpl. assert (Hz : existsb (Nat.eqb 0) s = false).
      { destruct (existsb (Nat.eqb 0) s) eqn:E; auto.
        apply existsb_exists in E as (j & Hj & Ej). apply Nat.eqb_eq in Ej. subst j. tauto. }
      rewrite Hz in IH1. split; auto.
      unfold Rsum in *; simpl in *. rewrite IH1. lra.
    + simpl. split.
      * unfold Rsum in *; simpl in *. rewrite IH1. lra.
      * constructor; auto. intros Hin.
        apply in_map_iff in Hin as (j & Ej & Hj).
        apply filter_In in Hj as [Hj Hnz].
        destruct j as [|j]; [discriminate|]. simpl in Ej. subst j. tauto.
Qed.

Lemma Rsum_select_le (xs : list R) :
  Forall (fun x => 0 <= x) xs ->
  forall subset, NoDup subset -> Rsum (map (fun k => nth k xs 0) subset) <= Rsum xs.
Proof.
  induction 1 as [|x xs Hx Hxs IH]; intros subset Hnd.
  - replace (map (fun k => nth k [] 0) subset) with (map (fun _ : nat => 0) subset)
      by (apply map_ext; intros [|k]; reflexivity).
    clear Hnd. induction subset as [|k s IHs]; unfold Rsum in *; simpl in *; lra.
  - destruct (Rsum_select_cons x xs subset Hnd) as [E Hnd'].
    rewrite E. specialize (IH _ Hnd').
    replace (Rsum (x :: xs)) with (x + Rsum xs) by reflexivity.
    destruct (existsb (Nat.eqb 0) subset); lra.
Qed.

Lemma nth_zip_with_Rmult (xs ys : list R) (k : nat) :
  nth k (zip_with Rmult xs ys) 0 = nth k xs 0 * nth k ys 0.
Proof.
  revert ys k; induction xs as [|x xs IH]; intros [|y ys] [|k]; simpl; try ring; auto.
Qed.

Lemma valid_subset_select (p : PointViews) (subset : list nat) :
  zip_with Rmult (index_select 0 (shadowing_mask p) subset)
    (index_select 0 (occlusion_mask p) subset)
  = map (fun k => nth k (valid_mask p) 0) subset.
Proof.
  unfold index_select. rewrite zip_with_map_same. apply map_ext.
  intros k. unfold valid_mask. now rewrite nth_zip_with_Rmult.
Qed.

Lemma valid_subset_le (p : PointViews) (subset : list nat) :
  NoDup subset ->
  Rsum (zip_with Rmult (index_select 0 (shadowing_mask p) subset)
          (index_select 0 (occlusion_mask p) subset))
  <= Rsum (valid_mask p).
Proof.
  intros H. rewrite valid_subset_select.
  apply Rsum_select_le; auto. apply flags_nonneg, valid_mask_flags.
Qed.

Lemma Rsum_masked_le (xs ys : list R) :
  Forall (fun x => 0 <= x) xs -> Forall (fun y => 0 <= y <= 1) ys ->
  Rsum (zip_with Rmult xs ys) <= Rsum xs.
Proof.
  intros Hx. revert ys. induction Hx as [|x xs Hx0 Hxs IH]; intros ys Hy.
  - simpl. lra.
  - destruct ys as [|y ys]; simpl.
    + pose proof (Rsum_nonneg xs Hxs). unfold Rsum in *; simpl; lra.
    + inversion Hy as [|? ? Hy1 Hy2]; subst. specialize (IH ys Hy2).
      unfold Rsum in *; simpl. nra.
Qed.

Lemma blend_unit (beta : R) (bs inl : list R) :
  0 <= beta <= 1 ->
  Forall (fun b => 0 <= b <= 1) bs ->
  Forall (fun b => 0 <= b <= 1) inl ->
  Forall (fun b => 0 <= b <= 1) (zip_with (fun b i => b * (1 - beta) + i * beta) bs inl).
Proof.
  intros Hbeta Hb. revert inl.
  induction Hb as [|b bs Hb0 Hbs IH]; intros inl Hi; simpl; auto.
  destruct inl as [|i inl]; simpl; auto.
  inversion Hi as [|? ? Hi1 Hi2]; subst.
  constructor; auto. nra.
Qed.

(** The stored inlier flags stay between 0 and 1. *)
Lemma ransac_update_unit (st : RansacState) (inl : list R) :
  Forall (fun b => 0 <= b <= 1) (best_inliers st) ->
  Forall (fun b => 0 <= b <= 1) inl ->
  Forall (fun b => 0 <= b <= 1) (best_inliers (ransac_update st inl)).
Proof.
  intros Hb Hi. unfold ransac_update; simpl.
  apply blend_unit; auto.
  destruct (Rgt_dec _ _); simpl; lra.
Qed.

Lemma ransac_loop_degenerate (p : PointViews) (subsets : list (list nat)) :
  Rsum (valid_mask p) <= 2 ->
  Forall (@NoDup nat) subsets ->
  forall st, Forall (fun b => 0 <= b <= 1) (best_inliers st) ->
    exists st', ransac_loop p st subsets = Ok st' /\
                Forall (fun b => 0 <= b <= 1) (best_inliers st').
Proof.
  intros Hv. induction 1 as [|s subsets Hs Hrest IH]; intros st Hst; simpl.
  - exists st; auto.
  - assert (Hsub : Rsum (zip_with Rmult (index_select 0 (shadowing_mask p) s)
                           (index_select 0 (occlusion_mask p) s)) <= 2).
    { pose proof (valid_subset_le p s Hs). lra. }
    destruct (solution_subset_degenerate p s Hsub) as (inv & _ & Hsol).
    unfold ransac_step. rewrite Hsol. cbv [bind].
    apply IH. apply ransac_update_unit; auto.
    apply flags_unit, inliers_of_flags.
Qed.

Lemma repeat_zero_unit (C : nat) : Forall (fun b => 0 <= b <= 1) (repeat 0 C).
Proof. induction C; simpl; constructor; auto; lra. Qed.

(** C3: a point with at most two valid views never makes the solver raise.
    In a subset with at most two valid views the 3x3 system gets the 1e8
    diagonal and has an inverse; in a winning inlier set with at most two
    valid views the refit of the normal gets the same diagonal and the
    albedo fits get [+1], and the refit returns; with at most two valid
    views in all, and subsets drawn without replacement, the whole solve of
    the point returns a result. *)
Theorem degenerate_point_never_raises
  (p : PointViews) (subset : list nat) (best : list R) (subsets : list (list nat)) :
  (Rsum (zip_with Rmult (index_select 0 (shadowing_mask p) subset)
           (index_select 0 (occlusion_mask p) subset)) <= 2 ->
   exists inv,
     inverse3 (madd (gram (index_select zero3 (gray_light_intensities p) subset))
                 (mscale 1 eye)) = Ok inv /\
     solution_subset p subset
     = Ok (pinv_apply
             (map (mat_vec inv) (index_select zero3 (gray_light_intensities p) subset))
             (index_select 0 (gray_observations p) subset))) /\
  (Rsum (zip_with Rmult (valid_mask p) best) <= 2 ->
   inlier_invalids p best = 1 /\
   (exists inv,
      inverse3 (madd (gram (zip_with (fun l b => vscale b l) (gray_light_intensities p) best))
                  (mscale 1 eye)) = Ok inv) /\
   exists r, refit p best = Ok r) /\
  (Rsum (valid_mask p) <= 2 -> Forall (@NoDup nat) subsets ->
   exists r, solve_point subsets p = Ok r).
Proof.
  split; [apply solution_subset_degenerate|].
  split.
  - intros H. split; [apply at_most_two_le; auto|].
    split; [|apply refit_degenerate; auto].
    destruct (inlier_normals_degenerate p best H) as (inv & Hinv & _). eauto.
  - intros Hv Hs. unfold solve_point.
    destruct (ransac_loop_degenerate p subsets Hv Hs (ransac_init (length (observations p))))
      as (st & -> & Hst).
    { simpl. apply repeat_zero_unit. }
    cbv [bind]. apply refit_degenerate.
    pose proof (Rsum_masked_le (valid_mask p) (best_inliers st)
                  (flags_nonneg _ (valid_mask_flags p)) Hst). lra.
Qed.

Lemma degenerate_point_never_raises_witness :
  (exists inv,
     inverse3 (madd (gram (index_select zero3 (gray_light_intensities p2) [0; 1]%nat))
                 (mscale 1 eye)) = Ok inv /\
     solution_subset p2 [0; 1]%nat
     = Ok (pinv_apply
             (map (mat_vec inv) (index_select zero3 (gray_light_intensities p2) [0; 1]%nat))
             (index_select 0 (gray_observations p2) [0; 1]%nat))) /\
  (inlier_invalids p2 [0; 1] = 1 /\
   (exists inv,
      inverse3 (madd (gram (zip_with (fun l b => vscale b l) (gray_light_intensities p2) [0; 1]))
                  (mscale 1 eye)) = Ok inv) /\
   exists r, refit p2 [0; 1] = Ok r) /\
  (exists r, solve_point [[0; 1]%nat; [1; 0]%nat] p2 = Ok r).
Proof.
  pose proof (degenerate_point_never_raises p2 [0; 1]%nat [0; 1] [[0; 1]%nat; [1; 0]%nat])
    as (H1 & H2 & H3).
  split; [apply H1|split; [apply H2|apply H3]].
  - cbv [index_select shadowing_mask occlusion_mask p2 shadows occlusions map nth zip_with
         negb to_float Rsum fold_right]. lra.
  - cbv [valid_mask shadowing_mask occlusion_mask p2 shadows occlusions map zip_with
         negb to_float Rsum fold_right]. lra.
  - cbv [valid_mask shadowing_mask occlusion_mask p2 shadows occlusions map zip_with
         negb to_float Rsum fold_right]. lra.
  - repeat constructor; simpl; intuition lia.
Defined.

(** ** The albedo refit *)

Lemma Rsum_zip_scale (k : R) (xs ys : list R) :
  Rsum (zip_with Rmult (map (fun x => k * x) xs) ys) = k * Rsum (zip_with Rmult xs ys).
Proof.
  revert ys; induction xs as [|x xs IH]; intros [|y ys]; simpl;
    try (unfold Rsum; simpl; ring).
  unfold Rsum in *; simpl. rewrite IH. ring.
Qed.

Lemma c_albedo_normal_equation (p : PointViews) (best : list R) (n : vec3) (c : nat) (coef : R) :
  c_albedo p best n c = Ok coef ->
  (Rsum (map (fun x => x * x) (c_light_intensities p best n c)) + inlier_invalids p best) * coef
  = Rsum (zip_with Rmult (c_light_intensities p best n c) (c_observations p best c)).
Proof.
  unfold c_albedo, inverse1.
  destruct (Req_EM_T _ 0) as [E|E]; simpl; [discriminate|].
  intros H; injection H as <-.
  rewrite Rsum_zip_scale. field. exact E.
Qed.

Lemma c_residuals_length (p : PointViews) (best : list R) (n : vec3) (c : nat) (coef : R) :
  length (c_residuals p best n c coef)
  = Nat.min (Nat.min (length (incident_light p)) (length (inlier_mask p best)))
            (Nat.min (length (observations p)) (length (inlier_mask p best))).
Proof.
  unfold c_residuals, c_light_intensities, c_observations. now rewrite !zip_with_length.
Qed.

Lemma zip3_channels (a b c : list R) :
  length a = length b -> length b = length c ->
  map (channel 0) (zip3 a b c) = a /\
  map (channel 1) (zip3 a b c) = b /\
  map (channel 2) (zip3 a b c) = c.
Proof.
  revert b c; induction a as [|x a IH]; intros [|y b] [|z c]; simpl; intros H1 H2;
    try lia; auto.
  destruct (IH b c) as (E0 & E1 & E2); try lia.
  rewrite E0, E1, E2. auto.
Qed.

(** C7: in the per-channel refit the 1x1 system of a channel is augmented by
    the degeneracy flag of the point, which is 1 when the point has at most
    two valid inlier views and 0 otherwise; the reported albedo is pi times
    the fitted coefficient; the reported residual of a view is its masked
    shading times the coefficient minus its masked observation. *)
Theorem albedo_refit (p : PointViews) (best : list R) (r : PointResult) (c : nat)
  (Hc : (c < 3)%nat)
  (Hrefit : refit p best = Ok r) :
  inlier_invalids p best
  = (if Rle_dec (Rsum (zip_with Rmult (valid_mask p) best)) 2 then 1 else 0) /\
  exists coef,
    c_albedo p best (normal r) c = Ok coef /\
    (Rsum (map (fun x => x * x) (c_light_intensities p best (normal r) c))
     + inlier_invalids p best) * coef
    = Rsum (zip_with Rmult (c_light_intensities p best (normal r) c) (c_observations p best c)) /\
    channel c (albedos r) = PI * coef /\
    map (channel c) (residuals r)
    = zip_with (fun shading observation => shading * coef - observation)
        (c_light_intensities p best (normal r) c) (c_observations p best c).
Proof.
  split; [reflexivity|].
  unfold refit in Hrefit.
  destruct (inlier_normals p best) as [n|e]; simpl in Hrefit; [|discriminate].
  destruct (c_albedo p best n 0) as [a0|e] eqn:E0; simpl in Hrefit; [|discriminate].
  destruct (c_albedo p best n 1) as [a1|e] eqn:E1; simpl in Hrefit; [|discriminate].
  destruct (c_albedo p best n 2) as [a2|e] eqn:E2; simpl in Hrefit; [|discriminate].
  injection Hrefit as <-. simpl.
  destruct (zip3_channels (c_residuals p best n 0 a0) (c_residuals p best n 1 a1)
              (c_residuals p best n 2 a2)) as (R0 & R1 & R2);
    try (rewrite !c_residuals_length; reflexivity).
  destruct c as [|[|[|c]]]; [exists a0 | exists a1 | exists a2 | lia];
    (split; [assumption|]);
    (split; [apply c_albedo_normal_equation; assumption|]);
    (split; [reflexivity|]); assumption.
Qed.

(** ** The scene [p3], step by step *)

Lemma norm_unit_z : norm (0, 0, 1) = 1.
Proof.
  unfold norm; simpl. replace (0 * 0 + 0 * 0 + 1 * 1) with 1 by ring. apply sqrt_1.
Qed.

Lemma normalize_unit_z : normalize (0, 0, 1) = (0, 0, 1).
Proof.
  unfold normalize. rewrite norm_unit_z.
  destruct (Req_EM_T 1 0); [lra|]. simpl. reals_eq.
Qed.

Lemma p3_valid_mask : valid_mask p3 = [1; 1; 1].
Proof.
  cbv [valid_mask shadowing_mask occlusion_mask p3 shadows occlusions map zip_with negb to_float].
  reals_eq.
Qed.

Lemma p3_gray_light_intensities :
  gray_light_intensities p3 = [(1, 0, 0); (0, 1, 0); (0, 0, 1)].
Proof.
  unfold gray_light_intensities. rewrite p3_valid_mask.
  cbv [incident_light p3 light_intensities light_directions zip_with vscale vadd]. reals_eq.
Qed.

Lemma p3_gray_observations : gray_observations p3 = [0; 0; 1].
Proof.
  unfold gray_observations. rewrite p3_valid_mask.
  cbv [p3 observations zip_with mean3]. reals_eq.
Qed.

Lemma p3_inlier_invalids : inlier_invalids p3 [1; 1; 1] = 0.
Proof.
  unfold inlier_invalids. rewrite p3_valid_mask.
  cbv [at_most_two zip_with Rsum fold_right]. run_reals. reflexivity.
Qed.

Lemma p3_inlier_normals : inlier_normals p3 [1; 1; 1] = Ok (0, 0, 1).
Proof.
  unfold inlier_normals, regularized_pinv.
  rewrite p3_inlier_invalids, p3_gray_light_intensities, p3_gray_observations.
  replace (madd (gram (zip_with (fun l b => vscale b l)
                         [(1, 0, 0); (0, 1, 0); (0, 0, 1)] [1; 1; 1])) (mscale 0 eye))
    with ((1, 0, 0), (0, 1, 0), (0, 0, 1))
    by (cbv [zip_with gram fold_right madd mscale outer eye eye3 mzero zero3 vadd vscale];
        reals_eq).
  rewrite inverse3_diag by lra.
  cbv [bind]. f_equal. rewrite <- normalize_unit_z at 2. f_equal.
  cbv [map mat_vec inner_product pinv_apply zip_with vsum fold_right vadd vscale zero3].
  reals_eq.
Qed.

Lemma p3_c_light_intensities (c : nat) :
  c_light_intensities p3 [1; 1; 1] (0, 0, 1) c = [0; 0; 1].
Proof.
  unfold c_light_intensities, inlier_mask. rewrite p3_valid_mask.
  destruct c as [|[|c]];
    cbv [incident_light p3 light_intensities light_directions zip_with vscale incident_channel
         inner_product]; reals_eq.
Qed.

Lemma p3_c_observations (c : nat) : c_observations p3 [1; 1; 1] c = [0; 0; 1].
Proof.
  unfold c_observations, inlier_mask. rewrite p3_valid_mask.
  destruct c as [|[|c]]; cbv [p3 observations zip_with channel]; reals_eq.
Qed.

Lemma p3_c_albedo (c : nat) : c_albedo p3 [1; 1; 1] (0, 0, 1) c = Ok 1.
Proof.
  unfold c_albedo, inverse1.
  rewrite p3_inlier_invalids, p3_c_light_intensities, p3_c_observations.
  cbv [map Rsum fold_right zip_with]. run_reals.
  cbv [bind]. f_equal. field.
Qed.

Lemma p3_c_albedo_plus_one (c : nat) : c_albedo_plus_one p3 [1; 1; 1] (0, 0, 1) c = Ok (1 / 2).
Proof.
  unfold c_albedo_plus_one, inverse1.
  rewrite p3_c_light_intensities, p3_c_observations.
  cbv [map Rsum fold_right zip_with]. run_reals.
  cbv [bind]. f_equal. field.
Qed.

Lemma p3_refit :
  refit p3 [1; 1; 1]
  = Ok {| normal := (0, 0, 1);
          albedos := (PI * 1, PI * 1, PI * 1);
          inliers := [1; 1; 1];
          residuals := [(0, 0, 0); (0, 0, 0); (0, 0, 0)] |}.
Proof.
  unfold refit. rewrite p3_inlier_normals. cbv [bind]. rewrite !p3_c_albedo.
  unfold c_residuals. rewrite !p3_c_light_intensities, !p3_c_observations.
  cbv [zip_with zip3]. f_equal. f_equal. reals_eq.
Qed.

Lemma albedo_refit_witness :
  inlier_invalids p3 [1; 1; 1]
  = (if Rle_dec (Rsum (zip_with Rmult (valid_mask p3) [1; 1; 1])) 2 then 1 else 0) /\
  exists coef,
    c_albedo p3 [1; 1; 1] (0, 0, 1) 1 = Ok coef /\
    (Rsum (map (fun x => x * x) (c_light_intensities p3 [1; 1; 1] (0, 0, 1) 1))
     + inlier_invalids p3 [1; 1; 1]) * coef
    = Rsum (zip_with Rmult (c_light_intensities p3 [1; 1; 1] (0, 0, 1) 1)
              (c_observations p3 [1; 1; 1] 1)) /\
    PI * 1 = PI * coef /\
    [0; 0; 0]
    = zip_with (fun shading observation => shading * coef - observation)
        (c_light_intensities p3 [1; 1; 1] (0, 0, 1) 1) (c_observations p3 [1; 1; 1] 1).
Proof.
  exact (albedo_refit p3 [1; 1; 1]
           {| normal := (0, 0, 1);
              albedos := (PI * 1, PI * 1, PI * 1);
              inliers := [1; 1; 1];
              residuals := [(0, 0, 0); (0, 0, 0); (0, 0, 0)] |}
           1%nat (le_n_S _ _ (le_n_S _ _ (le_0_n _))) p3_refit).
Defined.

(** C7, as stated, fails: with three valid inlier views nothing is added to
    the 1x1 system; the refit of [p3] computes the normal (0, 0, 1) and the
    coefficient 1, where the system regularized by [+1] gives 1/2. *)
Lemma albedo_regularizer_counterexample :
  inlier_normals p3 [1; 1; 1] = Ok (0, 0, 1) /\
  inlier_invalids p3 [1; 1; 1] = 0 /\
  c_albedo p3 [1; 1; 1] (0, 0, 1) 0 = Ok 1 /\
  c_albedo_plus_one p3 [1; 1; 1] (0, 0, 1) 0 = Ok (1 / 2) /\
  1 <> 1 / 2.
Proof.
  split; [exact p3_inlier_normals|].
  split; [exact p3_inlier_invalids|].
  split; [exact (p3_c_albedo 0)|].
  split; [exact (p3_c_albedo_plus_one 0)|].
  lra.
Qed.

(** ** Out-of-bounds observations *)

Section OutOfBounds.

Variable sentinel : R.

Lemma mark_out_of_bounds_flagged (occluded : bool) (observation : vec3) :
  flagged sentinel (mark_out_of_bounds sentinel occluded observation) observation.
Proof.
  intros H. unfold mark_out_of_bounds.
  destruct (Req_EM_T _ sentinel); [apply orb_true_r | tauto].
Qed.

Lemma marked_row_flagged (occ : list bool) (obs : list vec3) :
  length occ = length obs ->
  Forall2 (flagged sentinel) (zip_with (mark_out_of_bounds sentinel) occ obs) obs.
Proof.
  revert obs; induction occ as [|o occ IH]; intros [|x obs]; simpl; intros H;
    try discriminate; constructor.
  - apply mark_out_of_bounds_flagged.
  - apply IH. lia.
Qed.

Lemma marked_batch_flagged (b : Batch) :
  Forall2 (fun r1 r2 => length r1 = length r2) (batch_occlusions b) (batch_observations b) ->
  Forall2 (Forall2 (flagged sentinel)) (batch_occlusions_marked sentinel b) (batch_observations b).
Proof.
  unfold batch_occlusions_marked.
  induction 1 as [|r1 r2 t1 t2 Hr Ht IH]; simpl; constructor; auto.
  apply marked_row_flagged; auto.
Qed.

End OutOfBounds.

Section Layout.

Context {A B : Type}.
Variable rel : A -> B -> Prop.

Lemma Forall2_repeat_nil (n : nat) :
  Forall2 (Forall2 rel) (repeat [] n) (repeat [] n).
Proof. induction n; simpl; constructor; auto. Qed.

Lemma Forall2_zip_with_cons (xs : list A) (ys : list B) (t : list (list A)) (u : list (list B)) :
  Forall2 rel xs ys -> Forall2 (Forall2 rel) t u ->
  Forall2 (Forall2 rel) (zip_with cons xs t) (zip_with cons ys u).
Proof.
  intros H. revert t u. induction H as [|x y xs ys Hxy Hrest IH]; intros t u Ht; simpl.
  - constructor.
  - destruct Ht as [|r s t u Hrs Htu]; constructor; auto.
Qed.

Lemma transpose_Forall2 (n : nat) (t : list (list A)) (u : list (list B)) :
  Forall2 (Forall2 rel) t u ->
  Forall2 (Forall2 rel) (transpose n t) (transpose n u).
Proof.
  induction 1 as [|r s t u Hrs Htu IH]; simpl.
  - apply Forall2_repeat_nil.
  - apply Forall2_zip_with_cons; auto.
Qed.

Lemma Forall2_zip_with_app (t t' : list (list A)) (u u' : list (list B)) :
  Forall2 (Forall2 rel) t u -> Forall2 (Forall2 rel) t' u' ->
  Forall2 (Forall2 rel) (zip_with (@app A) t t') (zip_with (@app B) u u').
Proof.
  intros H. revert t' u'. induction H as [|r s t u Hrs Htu IH]; intros t' u' H'; simpl.
  - constructor.
  - destruct H' as [|r' s' t' u' Hrs' Htu']; constructor; auto.
    apply Forall2_app; auto.
Qed.

Lemma cat_dim1_Forall2 (n : nat) (ts : list (list (list A))) (us : list (list (list B))) :
  Forall2 (Forall2 (Forall2 rel)) ts us ->
  Forall2 (Forall2 rel) (cat_dim1 n ts) (cat_dim1 n us).
Proof.
  induction 1 as [|t u ts us Htu Hrest IH]; simpl.
  - apply Forall2_repeat_nil.
  - apply Forall2_zip_with_app; auto.
Qed.

End Layout.

Lemma Forall2_map_same {A B C} (P : B -> C -> Prop) (f : A -> B) (g : A -> C) (l : list A) :
  Forall (fun x => P (f x) (g x)) l -> Forall2 P (map f l) (map g l).
Proof. induction 1; simpl; constructor; auto. Qed.

Lemma zip_points_Forall (P : list bool -> list vec3 -> Prop)
  (ob : list (list vec3)) (oc : list (list bool)) :
  Forall2 P oc ob ->
  forall li ld sh,
    Forall (fun pv => P (occlusions pv) (observations pv)) (zip_points li ld sh ob oc).
Proof.
  induction 1 as [|c d oc ob Hcd Hrest IH]; intros li ld sh.
  - destruct li, ld, sh; simpl; constructor.
  - destruct li as [|a li], ld as [|b ld], sh as [|s sh]; simpl; try constructor; auto.
Qed.

Lemma assemble_flagged (sentinel : R) (n : nat) (bs : list Batch) :
  Forall (fun b => Forall2 (fun r1 r2 => length r1 = length r2)
                     (batch_occlusions b) (batch_observations b)) bs ->
  Forall (fun pv => Forall2 (flagged sentinel) (occlusions pv) (observations pv))
    (assemble sentinel n bs).
Proof.
  intros H. unfold assemble. apply zip_points_Forall.
  apply cat_dim1_Forall2, Forall2_map_same.
  eapply Forall_impl; [|exact H]. intros b Hb.
  apply transpose_Forall2, marked_batch_flagged, Hb.
Qed.

Lemma Forall2_nth {A B} (P : A -> B -> Prop) (da : A) (db : B) (xs : list A) (ys : list B) :
  Forall2 P xs ys -> forall k, (k < length ys)%nat -> P (nth k xs da) (nth k ys db).
Proof.
  induction 1 as [|x y xs ys Hxy Hrest IH]; intros [|k] Hk; simpl in *; try lia; auto.
  apply IH. lia.
Qed.

Lemma occlusion_mask_nth (l : list bool) (k : nat) :
  nth k l false = true -> nth k (map (fun o => to_float (negb o)) l) 0 = 0.
Proof.
  revert k; induction l as [|o l IH]; intros [|k]; simpl; intros H;
    try discriminate; auto.
  subst o. reflexivity.
Qed.

Lemma occluded_is_invalid (p : PointViews) (k : nat) :
  nth k (occlusions p) false = true -> nth k (valid_mask p) 0 = 0.
Proof.
  intros H. unfold valid_mask. rewrite nth_zip_with_Rmult.
  unfold occlusion_mask. rewrite (occlusion_mask_nth _ _ H). ring.
Qed.

(** C9: line 73 marks an observation as occluded when its channel 1 equals
    the out-of-bounds sentinel; in the assembled tensors every view of every
    point whose observation has the sentinel in channel 1 is occluded, and
    its entry of the validity mask is 0. *)
Theorem out_of_bounds_is_occluded
  (sentinel : R) (n : nat) (bs : list Batch) (pv : PointViews) (k : nat)
  (Hshape : Forall (fun b => Forall2 (fun r1 r2 => length r1 = length r2)
                               (batch_occlusions b) (batch_observations b)) bs)
  (Hin : In pv (assemble sentinel n bs))
  (Hk : (k < length (observations pv))%nat)
  (Hoob : channel 1 (nth k (observations pv) zero3) = sentinel) :
  (forall occluded observation,
     channel 1 observation = sentinel ->
     mark_out_of_bounds sentinel occluded observation = true) /\
  nth k (occlusions pv) false = true /\
  nth k (valid_mask pv) 0 = 0.
Proof.
  split.
  - intros occ obs H. apply (mark_out_of_bounds_flagged sentinel occ obs H).
  - pose proof (assemble_flagged sentinel n bs Hshape) as F.
    rewrite Forall_forall in F. specialize (F pv Hin).
    pose proof (Forall2_nth _ false zero3 _ _ F k Hk Hoob) as Hocc.
    split; [exact Hocc | apply occluded_is_invalid; exact Hocc].
Qed.

Lemma out_of_bounds_is_occluded_witness :
  nth 0 (occlusions (nth 0 (assemble (-1) 1 [b2]) p2)) false = true /\
  nth 0 (valid_mask (nth 0 (assemble (-1) 1 [b2]) p2)) 0 = 0.
Proof.
  refine (proj2 (out_of_bounds_is_occluded (-1) 1 [b2] (nth 0 (assemble (-1) 1 [b2]) p2) 0
                   _ _ _ _)).
  - repeat constructor.
  - simpl. left. reflexivity.
  - simpl. lia.
  - simpl. reflexivity.
Defined.

(** C9, as stated, fails: the second view of [b2] carries the sentinel in
    channel 0 only; it stays unoccluded and valid. *)
Lemma out_of_bounds_any_channel_counterexample :
  channel 0 (nth 1 (observations (nth 0 (assemble (-1) 1 [b2]) p2)) zero3) = -1 /\
  nth 1 (occlusions (nth 0 (assemble (-1) 1 [b2]) p2)) true = false /\
  nth 1 (valid_mask (nth 0 (assemble (-1) 1 [b2]) p2)) 0 = 1.
Proof.
  split; [reflexivity|].
  assert (E : mark_out_of_bounds (-1) false (-1, 0, 0) = false).
  { unfold mark_out_of_bounds; simpl. destruct (Req_EM_T 0 (-1)); [lra | reflexivity]. }
  split.
  - simpl. exact E.
  - cbv [assemble b2 map batch_light_intensities batch_light_directions batch_shadows
         batch_observations batch_occlusions batch_occlusions_marked transpose cat_dim1
         repeat zip_with zip_points nth valid_mask shadowing_mask occlusion_mask shadows
         occlusions app].
    rewrite E. simpl. lra.
Qed.

(** ** The solver as a whole *)

Lemma mapM_Forall2 {A B} (f : A -> result B) (xs : list A) (ys : list B) :
  mapM f xs = Ok ys -> Forall2 (fun x y => f x = Ok y) xs ys.
Proof.
  revert ys; induction xs as [|x xs IH]; simpl; intros ys H.
  - injection H as <-. constructor.
  - destruct (f x) as [y|e] eqn:E; simpl in H; [|discriminate].
    destruct (mapM f xs) as [ys'|e]; simpl in H; [|discriminate].
    injection H as <-. constructor; auto.
Qed.

(** When the solver returns, every point was solved with the same
    [ransac_iterations C] subsets, [C] being the number of views of all
    batches together. *)
Lemma closed_form_lambertian_solution_points
  (sentinel : R) (n : nat) (draw : nat -> list nat) (batches : list Batch)
  (results : list PointResult) :
  closed_form_lambertian_solution sentinel n draw batches = Ok results ->
  let C := list_sum (map (fun b => length (batch_observations b)) batches) in
  let subsets := map draw (seq 0 (ransac_iterations C)) in
  length subsets = ransac_iterations C /\
  Forall2 (fun p r => solve_point subsets p = Ok r) (assemble sentinel n batches) results.
Proof.
  unfold closed_form_lambertian_solution. destruct batches as [|b bs]; [discriminate|].
  intros H. cbv zeta. split.
  - now rewrite length_map, length_seq.
  - apply mapM_Forall2, H.
Qed.

End ClosedFormFacts.

(** * Facts about parametrizations/locations.py *)

Module LocationFacts.
Import Locations.

(** ** Shapes *)

Create HintDb shapes.

Section Lists.

Context {A B : Type}.

Lemma removelast_length (l : list A) : length (removelast l) = (length l - 1)%nat.
Proof.
  rewrite removelast_firstn_len, length_firstn. lia.
Qed.

Lemma Forall_removelast (P : A -> Prop) (l : list A) : Forall P l -> Forall P (removelast l).
Proof.
  induction 1 as [|x l Hx Hl IH]; simpl; auto.
  destruct l; auto.
Qed.

Lemma tl_length (l : list A) : length (tl l) = (length l - 1)%nat.
Proof. destruct l; simpl; lia. Qed.

Lemma nth_removelast (d : A) (l : list A) (i : nat) :
  (i < length l - 1)%nat -> nth i (removelast l) d = nth i l d.
Proof.
  revert i; induction l as [|x l IH]; intros i Hi; simpl in *; [lia|].
  destruct l as [|y l]; simpl in *; [lia|].
  destruct i as [|i]; auto. apply IH. lia.
Qed.

Lemma nth_tl (d : A) (l : list A) (i : nat) : nth i (tl l) d = nth (S i) l d.
Proof. destruct l; simpl; auto. destruct i; auto. Qed.

Lemma mapi_from_length (f : nat -> A -> B) (l : list A) (k : nat) :
  length (mapi_from k f l) = length l.
Proof. revert k; induction l; intros k; simpl; auto. Qed.

Lemma mapi_from_nth (f : nat -> A -> B) (da : A) (db : B) (l : list A) :
  forall k i, (i < length l)%nat -> nth i (mapi_from k f l) db = f (k + i)%nat (nth i l da).
Proof.
  induction l as [|x l IH]; intros k [|i] Hi; simpl in *; try lia.
  - f_equal. lia.
  - rewrite IH by lia. f_equal. lia.
Qed.

Lemma shape_height (h w : nat) (g : grid A) : shape h w g -> height g = h.
Proof. intros [H _]; exact H. Qed.

Lemma shape_width (h w : nat) (g : grid A) : shape h w g -> (0 < h)%nat -> width g = w.
Proof.
  intros [H F] Hh. destruct g as [|r g]; simpl in *; [lia|].
  inversion F; auto.
Qed.

Lemma shape_row (h w : nat) (g : grid A) (i : nat) :
  shape h w g -> (i < h)%nat -> length (nth i g []) = w.
Proof.
  intros [H F] Hi. rewrite Forall_forall in F. apply F, nth_In. lia.
Qed.

End Lists.

Section Shapes.

Context {A B C : Type}.

Lemma shape_gmap (f : A -> B) (h w : nat) (g : grid A) :
  shape h w g -> shape h w (gmap f g).
Proof.
  intros [H F]. split; unfold gmap.
  - now rewrite length_map.
  - apply Forall_map. eapply Forall_impl; [|exact F]. intros r Hr. now rewrite length_map.
Qed.

Lemma shape_gmap2 (f : A -> B -> C) (h w : nat) (a : grid A) (b : grid B) :
  shape h w a -> shape h w b -> shape h w (gmap2 f a b).
Proof.
  intros [Ha Fa] [Hb Fb]. subst h. unfold gmap2. split.
  - rewrite zip_with_length. lia.
  - clear Hb. revert b Fb. induction Fa as [|r a Hr Fa IH]; intros [|s b] Fb; simpl; auto.
    inversion Fb; subst. constructor; auto.
    rewrite zip_with_length. lia.
Qed.

Lemma shape_rows_init (h w : nat) (g : grid A) :
  shape h w g -> shape (h - 1) w (rows_init g).
Proof.
  intros [H F]. split; unfold rows_init.
  - rewrite removelast_length. lia.
  - apply Forall_removelast; auto.
Qed.

Lemma shape_rows_tail (h w : nat) (g : grid A) :
  shape h w g -> shape (h - 1) w (rows_tail g).
Proof.
  intros [H F]. split; unfold rows_tail.
  - rewrite tl_length. lia.
  - destruct g; simpl; auto. inversion F; auto.
Qed.

Lemma shape_cols_init (h w : nat) (g : grid A) :
  shape h w g -> shape h (w - 1) (cols_init g).
Proof.
  intros [H F]. split; unfold cols_init.
  - now rewrite length_map.
  - apply Forall_map. eapply Forall_impl; [|exact F].
    intros r Hr. simpl in *. rewrite removelast_length. lia.
Qed.

Lemma shape_cols_tail (h w : nat) (g : grid A) :
  shape h w g -> shape h (w - 1) (cols_tail g).
Proof.
  intros [H F]. split; unfold cols_tail.
  - now rewrite length_map.
  - apply Forall_map. eapply Forall_impl; [|exact F].
    intros r Hr. simpl in *. rewrite tl_length. lia.
Qed.

Lemma shape_gmapi (f : nat -> nat -> A -> B) (h w : nat) (g : grid A) :
  shape h w g -> shape h w (gmapi f g).
Proof.
  intros [H F]. unfold gmapi. split.
  - now rewrite mapi_from_length.
  - clear H.
    assert (G : forall k, Forall (fun row => length row = w)
                            (mapi_from k (fun i row => mapi_from 0 (fun j x => f i j x) row) g)).
    { induction F as [|r g Hr F IH]; intros k; simpl; constructor; auto.
      now rewrite mapi_from_length. }
    apply G.
Qed.

Lemma same_shape_of_shape (h w : nat) (a : grid A) (b : grid B) :
  shape h w a -> shape h w b -> same_shape a b = true.
Proof.
  intros [Ha Fa] [Hb Fb]. unfold same_shape.
  apply andb_true_intro. split; [apply Nat.eqb_eq; lia|].
  subst h. clear Hb. revert b Fb.
  induction Fa as [|r a Hr Fa IH]; intros [|s b] Fb; simpl; auto.
  inversion Fb; subst. rewrite IH by auto.
  rewrite andb_true_r. apply Nat.eqb_eq. lia.
Qed.

(** ** Reading cells *)

Lemma get_gmap (f : A -> B) (da : A) (db : B) (h w : nat) (g : grid A) (i j : nat) :
  shape h w g -> (i < h)%nat -> (j < w)%nat ->
  get db (gmap f g) i j = f (get da g i j).
Proof.
  intros Hs Hi Hj. unfold get, gmap.
  change (@nil B) with (map f (@nil A)). rewrite map_nth.
  rewrite (nth_indep _ db (f da)); [apply map_nth|].
  rewrite length_map, (shape_row h w g i Hs Hi); auto.
Qed.

Lemma get_gmap2 (f : A -> B -> C) (da : A) (db : B) (dc : C) (h w : nat)
  (a : grid A) (b : grid B) (i j : nat) :
  shape h w a -> shape h w b -> (i < h)%nat -> (j < w)%nat ->
  get dc (gmap2 f a b) i j = f (get da a i j) (get db b i j).
Proof.
  intros Ha Hb Hi Hj. unfold get, gmap2.
  rewrite (zip_with_nth (zip_with f) [] [] []) by (destruct Ha, Hb; lia).
  apply zip_with_nth; [rewrite (shape_row h w a i Ha Hi) | rewrite (shape_row h w b i Hb Hi)]; auto.
Qed.

Lemma get_gmapi (f : nat -> nat -> A -> B) (da : A) (db : B) (h w : nat) (g : grid A)
  (i j : nat) :
  shape h w g -> (i < h)%nat -> (j < w)%nat ->
  get db (gmapi f g) i j = f i j (get da g i j).
Proof.
  intros Hs Hi Hj. unfold get, gmapi.
  rewrite (mapi_from_nth _ [] []) by (destruct Hs; lia). simpl.
  rewrite (mapi_from_nth _ da db) by (rewrite (shape_row h w g i Hs Hi); auto). reflexivity.
Qed.

Lemma get_rows_init (d : A) (h w : nat) (g : grid A) (i j : nat) :
  shape h w g -> (i < h - 1)%nat -> get d (rows_init g) i j = get d g i j.
Proof.
  intros [H _] Hi. unfold get, rows_init. rewrite nth_removelast by lia. reflexivity.
Qed.

Lemma get_rows_tail (d : A) (g : grid A) (i j : nat) :
  get d (rows_tail g) i j = get d g (S i) j.
Proof. unfold get, rows_tail. now rewrite nth_tl. Qed.

Lemma get_cols_init (d : A) (h w : nat) (g : grid A) (i j : nat) :
  shape h w g -> (i < h)%nat -> (j < w - 1)%nat ->
  get d (cols_init g) i j = get d g i j.
Proof.
  intros Hs Hi Hj. unfold get, cols_init.
  change (@nil A) with (removelast (@nil A)) at 1. rewrite map_nth.
  apply nth_removelast. rewrite (shape_row h w g i Hs Hi); auto.
Qed.

Lemma get_cols_tail (d : A) (g : grid A) (i j : nat) :
  get d (cols_tail g) i j = get d g i (S j).
Proof.
  unfold get, cols_tail.
  change (@nil A) with (tl (@nil A)) at 1. rewrite map_nth. apply nth_tl.
Qed.

End Shapes.

#[export] Hint Resolve shape_gmap shape_gmap2 shape_rows_init shape_rows_tail
  shape_cols_init shape_cols_tail shape_gmapi : shapes.

(** ** Gathering from and scattering into the masked cells *)

Section MaskIndexing.

Context {A : Type}.

Lemma count_row_cons (b : bool) (m : list bool) :
  count_row (b :: m) = ((if b then 1 else 0) + count_row m)%nat.
Proof. unfold count_row; destruct b; reflexivity. Qed.

Lemma count_cons (mr : list bool) (m : grid bool) :
  count (mr :: m) = (count_row mr + count m)%nat.
Proof. unfold count, count_row. simpl. now rewrite filter_app, length_app. Qed.

Lemma select_row_length (m : list bool) (row : list A) :
  length m = length row -> length (select_row m row) = count_row m.
Proof.
  revert row; induction m as [|b m IH]; intros [|x row] H; simpl in *; try lia; auto.
  unfold select_row in *. simpl. rewrite length_app, IH by lia.
  rewrite count_row_cons. destruct b; reflexivity.
Qed.

Lemma select_grid_length (h w : nat) (m : grid bool) (g : grid A) :
  shape h w m -> shape h w g -> length (concat (zip_with select_row m g)) = count m.
Proof.
  intros [Hm Fm] [Hg Fg]. subst h. revert g Hg Fg.
  induction Fm as [|mr m Hmr Fm IH]; intros [|row g] Hg Fg; simpl in *; try lia; auto.
  inversion Fg; subst. rewrite length_app, count_cons, select_row_length, IH; auto; lia.
Qed.

Lemma scatter_row_length (m : list bool) (row vs : list A) :
  length (scatter_row m row vs) = length row.
Proof.
  revert row vs; induction m as [|b m IH]; intros row vs; [destruct row; reflexivity|].
  destruct b, row as [|x row]; simpl; auto.
  destruct vs; simpl; auto.
Qed.

Lemma shape_scatter (h w : nat) (m : grid bool) (g : grid A) (vs : list A) :
  shape h w g -> shape h w (scatter m g vs).
Proof.
  intros [Hg Fg]. subst h. revert m vs.
  induction Fg as [|row g Hrow Fg IH]; intros [|mr m] vs; simpl;
    try (split; [reflexivity | auto]).
  destruct (IH m (skipn (count_row mr) vs)) as [E F].
  split; simpl; [now rewrite E|].
  constructor; auto. now rewrite scatter_row_length.
Qed.

Lemma select_scatter_row (m : list bool) (row vs : list A) :
  length m = length row -> (count_row m <= length vs)%nat ->
  select_row m (scatter_row m row vs) = firstn (count_row m) vs.
Proof.
  revert row vs; induction m as [|b m IH]; intros [|x row] vs H Hc; simpl in *; try lia; auto.
  rewrite count_row_cons in *. destruct b.
  - destruct vs as [|v vs]; simpl in *; [lia|].
    unfold select_row in *. simpl. f_equal. apply IH; lia.
  - unfold select_row in *. simpl. apply IH; lia.
Qed.

(** Gathering what was scattered gives the values back. *)
Lemma select_scatter (h w : nat) (m : grid bool) (g : grid A) (vs : list A) :
  shape h w m -> shape h w g -> length vs = count m ->
  concat (zip_with select_row m (scatter m g vs)) = vs.
Proof.
  intros [Hm Fm] [Hg Fg]. subst h. revert g vs Hg Fg.
  induction Fm as [|mr m Hmr Fm IH]; intros [|row g] vs Hg Fg Hvs; simpl in *; try lia.
  - unfold count in Hvs; simpl in Hvs. destruct vs; [reflexivity | discriminate].
  - inversion Fg; subst. rewrite count_cons in Hvs.
    rewrite select_scatter_row by lia.
    rewrite IH; auto; [apply firstn_skipn | rewrite length_skipn; lia].
Qed.

Lemma scatter_select_row (m : list bool) (row row' rest : list A) :
  length m = length row -> length m = length row' ->
  scatter_row m row (select_row m row' ++ rest)
  = zip_with (fun (c : bool) (xy : A * A) => if c then fst xy else snd xy) m
      (zip_with pair row' row).
Proof.
  revert row row'; induction m as [|b m IH]; intros [|x row] [|y row'] H H';
    simpl in *; try lia; auto.
  unfold select_row in *. destruct b; simpl; f_equal; apply IH; lia.
Qed.

(** Scattering what was gathered from [g'] overwrites the masked cells of
    [g] with those of [g']. *)
Lemma scatter_select (h w : nat) (m : grid bool) (g g' : grid A) (rest : list A) :
  shape h w m -> shape h w g -> shape h w g' ->
  scatter m g (concat (zip_with select_row m g') ++ rest) = gwhere m g' g.
Proof.
  intros [Hm Fm] [Hg Fg] [Hg' Fg']. subst h. revert g g' Hg Fg Hg' Fg'.
  induction Fm as [|mr m Hmr Fm IH]; intros [|row g] [|row' g'] Hg Fg Hg' Fg';
    simpl in *; try lia; auto.
  inversion Fg; inversion Fg'; subst.
  unfold gwhere, gmap2. simpl. rewrite <- app_assoc. f_equal.
  - apply scatter_select_row; lia.
  - rewrite skipn_app, <- (select_row_length mr row') at 1 by lia.
    rewrite skipn_all, select_row_length, Nat.sub_diag by lia. simpl.
    apply IH; auto; lia.
Qed.

Lemma scatter_row_constant (v : A) (m : list bool) (row vs : list A) :
  length m = length row -> (count_row m <= length vs)%nat ->
  Forall (eq v) vs ->
  scatter_row m row vs = zip_with (fun (b : bool) x => if b then v else x) m row.
Proof.
  revert row vs; induction m as [|b m IH]; intros [|x row] vs H Hc Hv;
    simpl in *; try lia; auto.
  rewrite count_row_cons in Hc. destruct b.
  - destruct vs as [|y vs]; simpl in *; [lia|].
    inversion Hv; subst. f_equal. apply IH; auto; lia.
  - f_equal. apply IH; auto.
Qed.

Lemma Forall_skipn (P : A -> Prop) (n : nat) (l : list A) : Forall P l -> Forall P (skipn n l).
Proof.
  revert l; induction n as [|n IH]; intros l H; simpl; auto.
  destruct H; auto.
Qed.

Lemma scatter_constant (v : A) (h w : nat) (m : grid bool) (g : grid A) (vs : list A) :
  shape h w m -> shape h w g -> (count m <= length vs)%nat -> Forall (eq v) vs ->
  scatter m g vs = gmap2 (fun (b : bool) x => if b then v else x) m g.
Proof.
  intros [Hm Fm] [Hg Fg]. subst h. revert g vs Hg Fg.
  induction Fm as [|mr m Hmr Fm IH]; intros [|row g] vs Hg Fg Hc Hv;
    simpl in *; try lia; auto.
  inversion Fg; subst. rewrite count_cons in Hc. unfold gmap2. simpl. f_equal.
  - apply scatter_row_constant; auto; lia.
  - apply IH; auto using Forall_skipn. rewrite length_skipn. lia.
Qed.

(** Assigning one value under a mask fills the masked cells with it, whether
    it is broadcast or the mask has exactly one cell. *)
Lemma masked_assign_single (v : A) (h w : nat) (m : grid bool) (g : grid A) :
  shape h w m -> shape h w g ->
  masked_assign m g [v] = Ok (gmap2 (fun (b : bool) x => if b then v else x) m g).
Proof.
  intros Hm Hg. unfold masked_assign.
  rewrite (same_shape_of_shape h w) by auto. cbn [negb].
  destruct (Nat.eqb_spec (length [v]) (count m)) as [E|E]; [|reflexivity].
  f_equal. apply (scatter_constant v h w); auto.
  simpl in *; lia.
Qed.

Lemma masked_select_ok (h w : nat) (m : grid bool) (g : grid A) :
  shape h w m -> shape h w g ->
  masked_select m g = Ok (concat (zip_with select_row m g)).
Proof.
  intros Hm Hg. unfold masked_select. now rewrite (same_shape_of_shape h w).
Qed.

Lemma masked_assign_select (h w : nat) (m : grid bool) (g g' : grid A) :
  shape h w m -> shape h w g -> shape h w g' ->
  masked_assign m g (concat (zip_with select_row m g')) = Ok (gwhere m g' g).
Proof.
  intros Hm Hg Hg'. unfold masked_assign.
  rewrite (same_shape_of_shape h w) by auto. simpl.
  rewrite (select_grid_length h w), Nat.eqb_refl by auto.
  f_equal. rewrite <- (app_nil_r (concat _)). apply (scatter_select h w); auto.
Qed.

Lemma get_gwhere (d : A) (h w : nat) (m : grid bool) (a b : grid A) (i j : nat) :
  shape h w m -> shape h w a -> shape h w b -> (i < h)%nat -> (j < w)%nat ->
  get d (gwhere m a b) i j = if get false m i j then get d a i j else get d b i j.
Proof.
  intros Hm Ha Hb Hi Hj. unfold gwhere.
  rewrite (get_gmap2 _ false (d, d) d h w) by auto with shapes.
  rewrite (get_gmap2 _ d d (d, d) h w) by auto. reflexivity.
Qed.

End MaskIndexing.

(** ** Initialization and the image/vector round trip *)

Lemma shape_chunks {A} (h w : nat) (xs : list A) :
  length xs = (h * w)%nat -> shape h w (chunks h w xs).
Proof.
  revert xs; induction h as [|h IH]; intros xs H; simpl.
  - split; [reflexivity | constructor].
  - destruct (IH (skipn w xs)) as [E F].
    { rewrite length_skipn. simpl in H. lia. }
    split; simpl; [now rewrite E|].
    constructor; auto. rewrite length_firstn. simpl in H. lia.
Qed.

Lemma shape_eqb_of_shape {A B} (h w : nat) (a : grid A) (b : grid B) :
  shape h w a -> shape h w b -> shape_eqb a b = true.
Proof.
  intros Ha Hb. unfold shape_eqb.
  rewrite (shape_height h w a), (shape_height h w b), Nat.eqb_refl by auto. simpl.
  destruct h as [|h].
  - destruct Ha as [Ha _], Hb as [Hb _]. destruct a, b; try discriminate. reflexivity.
  - rewrite (shape_width (S h) w a), (shape_width (S h) w b) by (auto; lia).
    apply Nat.eqb_refl.
Qed.

Lemma initialize_inv (depth0 : grid R) (mask0 : list R) (invK0 : mat3) (invRt0 : Pose)
  (self : DepthMapParametrization) :
  initialize depth0 mask0 invK0 invRt0 = Ok self ->
  length mask0 = (height depth0 * width depth0)%nat /\
  self = {| depth := depth0;
            mask := gmap (fun x => if Rgt_dec x 0 then true else false)
                      (chunks (height depth0) (width depth0) mask0);
            invK := invK0; invRt := invRt0;
            point_count := count (gmap (fun x => if Rgt_dec x 0 then true else false)
                                    (chunks (height depth0) (width depth0) mask0)) |}.
Proof.
  unfold initialize, view.
  destruct (Nat.eqb_spec (length mask0) (height depth0 * width depth0)) as [E|E]; simpl;
    intros H; [|discriminate].
  injection H as <-. auto.
Qed.

Lemma initialize_ok (depth0 : grid R) (mask0 : list R) (invK0 : mat3) (invRt0 : Pose) :
  length mask0 = (height depth0 * width depth0)%nat ->
  exists self, initialize depth0 mask0 invK0 invRt0 = Ok self.
Proof.
  intros H. unfold initialize, view. rewrite H, Nat.eqb_refl. simpl. eauto.
Qed.

Section Initialized.

Variables (depth0 : grid R) (mask0 : list R) (invK0 : mat3) (invRt0 : Pose).
Variable self : DepthMapParametrization.
Hypothesis Hdepth : shape (height depth0) (width depth0) depth0.
Hypothesis Hinit : initialize depth0 mask0 invK0 invRt0 = Ok self.

Let H := height depth0.
Let W := width depth0.

Lemma initialized_mask_shape : shape H W (mask self).
Proof.
  destruct (initialize_inv _ _ _ _ _ Hinit) as [Hlen ->]. simpl.
  apply shape_gmap, shape_chunks, Hlen.
Qed.

Lemma initialized_points_shape :
  shape H W (depth_map_to_locations (depth self) (invK self) (invRt self)).
Proof.
  destruct (initialize_inv _ _ _ _ _ Hinit) as [Hlen ->]. simpl.
  apply shape_gmapi, Hdepth.
Qed.

Lemma initialized_point_count : get_point_count self = count (mask self).
Proof. destruct (initialize_inv _ _ _ _ _ Hinit) as [Hlen ->]. reflexivity. Qed.

Lemma initialized_location_vector :
  location_vector self
  = Ok (concat (zip_with select_row (mask self)
                  (depth_map_to_locations (depth self) (invK self) (invRt self)))).
Proof.
  unfold location_vector.
  apply (masked_select_ok H W); [apply initialized_mask_shape | apply initialized_points_shape].
Qed.

Lemma blank_image_shape {A} (blank : A) :
  shape H W (map (fun row => map (fun _ : bool => blank) row) (mask self)).
Proof. apply (shape_gmap (fun _ : bool => blank)), initialized_mask_shape. Qed.

Lemma initialized_create_image {A} (blank : A) (measurements : list A) :
  length measurements = count (mask self) ->
  create_image blank self measurements
  = Ok (scatter (mask self) (map (fun row => map (fun _ => blank) row) (mask self))
          measurements).
Proof.
  intros Hlen. unfold create_image, masked_assign.
  rewrite (same_shape_of_shape H W) by (auto using initialized_mask_shape, blank_image_shape).
  simpl. now rewrite Hlen, Nat.eqb_refl.
Qed.

Lemma initialized_create_vector {A} (image : grid A) :
  shape H W image ->
  create_vector self image = Ok (concat (zip_with select_row (mask self) image)).
Proof.
  intros Hs. unfold create_vector.
  rewrite (shape_eqb_of_shape H W) by (auto using initialized_mask_shape).
  apply (masked_select_ok H W); auto using initialized_mask_shape.
Qed.

(** The location image: the unprojected point under the mask, zero
    elsewhere. *)
Lemma initialized_location_image :
  create_image zero3 self
    (concat (zip_with select_row (mask self)
               (depth_map_to_locations (depth self) (invK self) (invRt self))))
  = Ok (gwhere (mask self)
          (depth_map_to_locations (depth self) (invK self) (invRt self))
          (map (fun row => map (fun _ => zero3) row) (mask self))).
Proof.
  unfold create_image.
  apply (masked_assign_select H W);
    auto using initialized_mask_shape, initialized_points_shape, blank_image_shape.
Qed.

End Initialized.

(** C6: after [initialize], [location_vector()] has as many entries as the
    mask has true cells, which is also [get_point_count()], and
    [create_vector(create_image(location_vector()))] is [location_vector()]
    again. *)
Theorem location_vector_round_trip
  (depth0 : grid R) (mask0 : list R) (invK0 : mat3) (invRt0 : Pose)
  (self : DepthMapParametrization)
  (Hdepth : shape (height depth0) (width depth0) depth0)
  (Hinit : initialize depth0 mask0 invK0 invRt0 = Ok self) :
  exists locations image,
    location_vector self = Ok locations /\
    length locations = count (mask self) /\
    length locations = get_point_count self /\
    create_image zero3 self locations = Ok image /\
    create_vector self image = Ok locations.
Proof.
  pose proof (initialized_mask_shape _ _ _ _ _ Hinit) as Hm.
  pose proof (initialized_points_shape _ _ _ _ _ Hdepth Hinit) as Hp.
  set (locations := concat (zip_with select_row (mask self)
                      (depth_map_to_locations (depth self) (invK self) (invRt self)))).
  assert (Hlen : length locations = count (mask self))
    by (apply (select_grid_length _ _ _ _ Hm Hp)).
  exists locations.
  exists (scatter (mask self) (map (fun row => map (fun _ => zero3) row) (mask self)) locations).
  split; [apply (initialized_location_vector _ _ _ _ _ Hdepth Hinit)|].
  split; [exact Hlen|].
  split; [rewrite (initialized_point_count _ _ _ _ _ Hinit); exact Hlen|].
  split; [apply (initialized_create_image _ _ _ _ _ Hinit); exact Hlen|].
  rewrite (initialized_create_vector _ _ _ _ _ Hinit).
  - f_equal. apply (select_scatter _ _ _ _ _ Hm); auto.
    apply (blank_image_shape _ _ _ _ _ Hinit).
  - apply shape_scatter, (blank_image_shape _ _ _ _ _ Hinit).
Qed.

Import Examples.

Lemma depth3_shape : shape (height depth3) (width depth3) depth3.
Proof. split; [reflexivity | repeat constructor]. Qed.

Lemma initialize_self3 : initialize depth3 mask3 eye3 camera0 = Ok self3.
Proof. reflexivity. Qed.

Lemma location_vector_round_trip_witness :
  exists locations image,
    location_vector self3 = Ok locations /\
    length locations = count (mask self3) /\
    length locations = get_point_count self3 /\
    create_image zero3 self3 locations = Ok image /\
    create_vector self3 image = Ok locations.
Proof.
  exact (location_vector_round_trip depth3 mask3 eye3 camera0 self3
           depth3_shape initialize_self3).
Defined.

(** ** The border check *)

Lemma nonempty_of_shape {A} (h w : nat) (g : grid A) :
  shape h w g -> (0 < h)%nat -> (0 < w)%nat ->
  match g with
  | [] => Raise IndexError
  | [] :: _ => Raise IndexError
  | _ => Ok tt
  end = Ok tt.
Proof.
  intros [Hh F] Hh0 Hw0. destruct g as [|[|x r] g]; simpl in *; try lia; auto.
  inversion F; subst. simpl in *. lia.
Qed.

Lemma implied_normal_image_border (depth0 : grid R) (mask0 : list R) (invK0 : mat3)
  (invRt0 : Pose) (self : DepthMapParametrization) :
  shape (height depth0) (width depth0) depth0 ->
  (0 < height depth0)%nat -> (0 < width depth0)%nat ->
  initialize depth0 mask0 invK0 invRt0 = Ok self ->
  touches_border (mask self) = true ->
  implied_normal_image self
  = Raise (LoggedError "The mask should not reach the bottom and right image edges.").
Proof.
  intros Hdepth Hh Hw Hinit Htouch. unfold implied_normal_image.
  rewrite (initialized_location_vector _ _ _ _ _ Hdepth Hinit). cbv [bind].
  rewrite (initialized_location_image _ _ _ _ _ Hdepth Hinit).
  rewrite (nonempty_of_shape _ _ _ (initialized_mask_shape _ _ _ _ _ Hinit) Hh Hw).
  rewrite Htouch. reflexivity.
Qed.

(** C4: [initialize] accepts every mask that has one element per pixel,
    whether or not it reaches the last row or column; it is
    [implied_normal_image()] that raises the error for a mask with a true
    cell in the last row or the last column. *)
Theorem border_mask_raises_in_implied_normal_image
  (depth0 : grid R) (mask0 : list R) (invK0 : mat3) (invRt0 : Pose)
  (Hdepth : shape (height depth0) (width depth0) depth0)
  (Hh : (0 < height depth0)%nat) (Hw : (0 < width depth0)%nat)
  (Hsize : length mask0 = (height depth0 * width depth0)%nat) :
  exists self,
    initialize depth0 mask0 invK0 invRt0 = Ok self /\
    (touches_border (mask self) = true ->
     implied_normal_image self
     = Raise (LoggedError "The mask should not reach the bottom and right image edges.")).
Proof.
  destruct (initialize_ok depth0 mask0 invK0 invRt0 Hsize) as [self Hinit].
  exists self. split; [exact Hinit|].
  apply (implied_normal_image_border depth0 mask0 invK0 invRt0); auto.
Qed.

Lemma depth1_shape : shape (height depth1) (width depth1) depth1.
Proof. split; [reflexivity | repeat constructor]. Qed.

Lemma self1_touches_border : touches_border (mask self1) = true.
Proof.
  cbv [self1 mask mask1 chunks firstn skipn gmap map touches_border last count_row filter
       length Nat.add Nat.ltb Nat.leb].
  run_reals. reflexivity.
Qed.

Lemma border_mask_raises_in_implied_normal_image_witness :
  exists self,
    initialize depth1 mask1 eye3 camera0 = Ok self /\
    (touches_border (mask self) = true ->
     implied_normal_image self
     = Raise (LoggedError "The mask should not reach the bottom and right image edges.")).
Proof.
  apply (border_mask_raises_in_implied_normal_image depth1 mask1 eye3 camera0 depth1_shape).
  - simpl. lia.
  - simpl. lia.
  - reflexivity.
Defined.

(** C4, as stated, fails: the only pixel of a 1 x 1 mask lies in the last
    row and the last column, and [initialize] returns the state. *)
Lemma initialize_border_mask_counterexample :
  touches_border (mask self1) = true /\
  initialize depth1 mask1 eye3 camera0 = Ok self1.
Proof. split; [exact self1_touches_border | reflexivity]. Qed.

(** ** PlaneParametrization.initialize *)

(** C10: [PlaneParametrization.initialize] always raises.  When the mask and
    the depth map fit, it gets as far as line 190, where it reads [W]: the
    module binds no such name, and with none in the builtins either the
    read raises a NameError. *)
Theorem plane_initialize_raises
  (builtins : list (string * PyValue)) (pinverse_sum : list vec3 -> vec3)
  (depth0 : grid R) (mask0 : list R) (invK0 : mat3) (invRt0 : Pose)
  (Hbuiltins : assoc "W" builtins = None) :
  (exists e, plane_initialize builtins pinverse_sum depth0 mask0 invK0 invRt0 = Raise e) /\
  (shape (height depth0) (width depth0) depth0 ->
   length mask0 = (height depth0 * width depth0)%nat ->
   plane_initialize builtins pinverse_sum depth0 mask0 invK0 invRt0 = Raise (NameError "W")).
Proof.
  assert (HW : load_global builtins "W" = Raise (NameError "W")).
  { unfold load_global. simpl. now rewrite Hbuiltins. }
  split.
  - unfold plane_initialize.
    destruct (view _ _ mask0) as [m|e]; simpl; [|eauto].
    destruct (masked_select _ _) as [pts|e]; simpl; [|eauto].
    rewrite HW. simpl. eauto.
  - intros Hdepth Hsize. unfold plane_initialize, view.
    rewrite Hsize, Nat.eqb_refl. cbv [bind].
    rewrite (masked_select_ok (height depth0) (width depth0)).
    + rewrite HW. reflexivity.
    + apply shape_gmap, shape_chunks, Hsize.
    + apply shape_gmapi, Hdepth.
Qed.

Lemma plane_initialize_raises_witness :
  (exists e,
     plane_initialize [("len"%string, PyObject); ("range"%string, PyObject)]
       (fun _ => zero3) depth3 mask3 eye3 camera0 = Raise e) /\
  plane_initialize [("len"%string, PyObject); ("range"%string, PyObject)]
    (fun _ => zero3) depth3 mask3 eye3 camera0 = Raise (NameError "W").
Proof.
  pose proof (plane_initialize_raises
                [("len"%string, PyObject); ("range"%string, PyObject)]
                (fun _ => zero3) depth3 mask3 eye3 camera0 eq_refl) as [H1 H2].
  split; [exact H1|].
  apply H2; [exact depth3_shape | reflexivity].
Defined.

(** ** The normal image, cell by cell *)

Section NormalCells.

Variables (h w : nat) (L : grid vec3) (camloc : vec3).
Hypothesis HL : shape h w L.

Lemma shape_here : shape (h - 1) (w - 1) (cols_init (rows_init L)).
Proof. auto with shapes. Qed.

Lemma shape_below : shape (h - 1) (w - 1) (cols_init (rows_tail L)).
Proof. auto with shapes. Qed.

Lemma shape_beside : shape (h - 1) (w - 1) (cols_tail (rows_init L)).
Proof. auto with shapes. Qed.

Lemma get_here (i j : nat) :
  (i < h - 1)%nat -> (j < w - 1)%nat ->
  get zero3 (cols_init (rows_init L)) i j = get zero3 L i j.
Proof.
  intros Hi Hj.
  rewrite (get_cols_init zero3 (h - 1) w) by auto with shapes.
  apply (get_rows_init zero3 h w); auto.
Qed.

Lemma get_below (i j : nat) :
  (i < h - 1)%nat -> (j < w - 1)%nat ->
  get zero3 (cols_init (rows_tail L)) i j = get zero3 L (S i) j.
Proof.
  intros Hi Hj.
  rewrite (get_cols_init zero3 (h - 1) w) by auto with shapes.
  apply get_rows_tail.
Qed.

Lemma get_beside (i j : nat) :
  (i < h - 1)%nat -> (j < w - 1)%nat ->
  get zero3 (cols_tail (rows_init L)) i j = get zero3 L i (S j).
Proof.
  intros Hi Hj. rewrite get_cols_tail. apply (get_rows_init zero3 h w); auto.
Qed.

Lemma shape_oriented_normals : shape (h - 1) (w - 1) (oriented_normals L camloc).
Proof.
  unfold oriented_normals.
  pose proof shape_here. pose proof shape_below. pose proof shape_beside.
  auto 10 with shapes.
Qed.

Lemma get_oriented_normals (i j : nat) :
  (i < h - 1)%nat -> (j < w - 1)%nat ->
  get zero3 (oriented_normals L camloc) i j
  = vscale (sign (inner_product (fd_normal L i j) (vsub camloc (get zero3 L i j))))
      (fd_normal L i j).
Proof.
  intros Hi Hj. unfold oriented_normals, fd_normal.
  pose proof shape_here as S1. pose proof shape_below as S2. pose proof shape_beside as S3.
  set (here := cols_init (rows_init L)) in *.
  set (down := gmap normalize (gmap2 vsub here (cols_init (rows_tail L)))).
  set (right := gmap normalize (gmap2 vsub here (cols_tail (rows_init L)))).
  set (n := gmap normalize (gmap2 cross_product down right)).
  assert (Sd : shape (h - 1) (w - 1) down) by (subst down; auto with shapes).
  assert (Sr : shape (h - 1) (w - 1) right) by (subst right; auto with shapes).
  assert (Sn : shape (h - 1) (w - 1) n) by (subst n; auto with shapes).
  assert (Gd : get zero3 down i j
               = normalize (vsub (get zero3 L i j) (get zero3 L (S i) j))).
  { subst down.
    rewrite (get_gmap normalize zero3 zero3 (h - 1) (w - 1)) by auto with shapes.
    rewrite (get_gmap2 vsub zero3 zero3 zero3 (h - 1) (w - 1)) by auto.
    subst here. now rewrite get_here, get_below. }
  assert (Gr : get zero3 right i j
               = normalize (vsub (get zero3 L i j) (get zero3 L i (S j)))).
  { subst right.
    rewrite (get_gmap normalize zero3 zero3 (h - 1) (w - 1)) by auto with shapes.
    rewrite (get_gmap2 vsub zero3 zero3 zero3 (h - 1) (w - 1)) by auto.
    subst here. now rewrite get_here, get_beside. }
  assert (Gn : get zero3 n i j
               = normalize (cross_product (get zero3 down i j) (get zero3 right i j))).
  { subst n.
    rewrite (get_gmap normalize zero3 zero3 (h - 1) (w - 1)) by auto with shapes.
    now rewrite (get_gmap2 cross_product zero3 zero3 zero3 (h - 1) (w - 1)) by auto. }
  rewrite (get_gmap2 _ zero3 0 zero3 (h - 1) (w - 1)) by auto 10 with shapes.
  rewrite (get_gmap sign 0 0 (h - 1) (w - 1)) by auto 10 with shapes.
  rewrite (get_gmap2 inner_product zero3 zero3 0 (h - 1) (w - 1)) by auto 10 with shapes.
  rewrite (get_gmap (vsub camloc) zero3 zero3 (h - 1) (w - 1)) by auto.
  subst here. rewrite get_here by auto.
  now rewrite Gn, Gd, Gr.
Qed.

Lemma fd_normal_cases (i j : nat) : norm (fd_normal L i j) = 1 \/ fd_normal L i j = zero3.
Proof. apply normalize_cases. Qed.

End NormalCells.

Section Repair.

Variables (h w : nat) (m : grid bool) (N : grid vec3).
Hypothesis Hm : shape (S h) (S w) m.
Hypothesis HN : shape h w N.

Lemma shape_mask_here : shape h w (cols_init (rows_init m)).
Proof.
  replace h with (S h - 1)%nat at 1 by lia. replace w with (S w - 1)%nat at 1 by lia.
  auto with shapes.
Qed.

Lemma shape_mask_below : shape h w (cols_init (rows_tail m)).
Proof.
  replace h with (S h - 1)%nat at 1 by lia. replace w with (S w - 1)%nat at 1 by lia.
  auto with shapes.
Qed.

Lemma shape_mask_beside : shape h w (cols_tail (rows_init m)).
Proof.
  replace h with (S h - 1)%nat at 1 by lia. replace w with (S w - 1)%nat at 1 by lia.
  auto with shapes.
Qed.

Lemma get_mask_here (i j : nat) :
  (i < h)%nat -> (j < w)%nat ->
  get false (cols_init (rows_init m)) i j = get false m i j.
Proof.
  intros Hi Hj.
  rewrite (get_cols_init false h (S w)); try lia.
  - apply (get_rows_init false (S h) (S w)); auto. lia.
  - replace h with (S h - 1)%nat by lia. auto with shapes.
Qed.

Lemma get_mask_below (i j : nat) :
  (i < h)%nat -> (j < w)%nat ->
  get false (cols_init (rows_tail m)) i j = get false m (S i) j.
Proof.
  intros Hi Hj.
  rewrite (get_cols_init false h (S w)); try lia.
  - apply get_rows_tail.
  - replace h with (S h - 1)%nat by lia. auto with shapes.
Qed.

Lemma get_mask_beside (i j : nat) :
  (i < h)%nat -> (j < w)%nat ->
  get false (cols_tail (rows_init m)) i j = get false m i (S j).
Proof.
  intros Hi Hj. rewrite get_cols_tail.
  apply (get_rows_init false (S h) (S w)); auto. lia.
Qed.

Lemma shape_local_normal_mean : shape h w (local_normal_mean N).
Proof. unfold local_normal_mean, conv5x5. auto with shapes. Qed.

Lemma get_local_normal_mean (i j : nat) :
  (i < h)%nat -> (j < w)%nat ->
  get zero3 (local_normal_mean N) i j = normalize (window_sum N i j).
Proof.
  intros Hi Hj. unfold local_normal_mean, conv5x5.
  rewrite (get_gmap normalize zero3 zero3 h w) by auto with shapes.
  now rewrite (get_gmapi _ zero3 zero3 h w) by auto.
Qed.

Lemma shape_replacement_mask1 : shape h w (replacement_mask1 m N).
Proof.
  unfold replacement_mask1.
  pose proof shape_mask_here. pose proof shape_mask_below. pose proof shape_mask_beside.
  auto 10 with shapes.
Qed.

Lemma get_replacement_mask1 (i j : nat) :
  (i < h)%nat -> (j < w)%nat ->
  get false (replacement_mask1 m N) i j
  = get false m i j
    && (is_zero_norm (get zero3 N i j) || negb (get false m (S i) j)
        || negb (get false m i (S j))).
Proof.
  intros Hi Hj. unfold replacement_mask1.
  pose proof shape_mask_here. pose proof shape_mask_below. pose proof shape_mask_beside.
  rewrite (get_gmap2 andb false false false h w) by auto 10 with shapes.
  rewrite (get_gmap2 orb false false false h w) by auto 10 with shapes.
  rewrite (get_gmap2 orb false false false h w) by auto 10 with shapes.
  rewrite (get_gmap is_zero_norm zero3 false h w) by auto.
  rewrite !(get_gmap negb false false h w) by auto.
  now rewrite get_mask_here, get_mask_below, get_mask_beside.
Qed.

Lemma shape_replacement_mask2 : shape h w (replacement_mask2 m N).
Proof.
  unfold replacement_mask2. pose proof shape_mask_here. auto 10 with shapes.
Qed.

Lemma get_replacement_mask2 (i j : nat) :
  (i < h)%nat -> (j < w)%nat ->
  get false (replacement_mask2 m N) i j
  = is_zero_norm (get zero3 N i j) && get false m i j.
Proof.
  intros Hi Hj. unfold replacement_mask2. pose proof shape_mask_here.
  rewrite (get_gmap2 andb false false false h w) by auto with shapes.
  rewrite (get_gmap is_zero_norm zero3 false h w) by auto.
  now rewrite get_mask_here.
Qed.

Lemma shape_zero_pad : shape (S h) (S w) (zero_pad w N).
Proof.
  destruct HN as [Hh F]. unfold zero_pad. split.
  - rewrite length_map, length_app. simpl. lia.
  - apply Forall_map, Forall_app. split.
    + eapply Forall_impl; [|exact F]. intros r Hr. simpl in *.
      rewrite length_app. simpl. lia.
    + repeat constructor. rewrite length_app, repeat_length. simpl. lia.
Qed.

Lemma get_zero_pad_inside (i j : nat) :
  (i < h)%nat -> (j < w)%nat -> get zero3 (zero_pad w N) i j = get zero3 N i j.
Proof.
  intros Hi Hj. destruct HN as [Hh F]. unfold get, zero_pad.
  rewrite (nth_indep _ [] ((fun row => row ++ [zero3]) []))
    by (rewrite length_map, length_app; simpl; lia).
  rewrite (map_nth (fun row => row ++ [zero3])).
  rewrite (app_nth1 N) by lia.
  apply app_nth1.
  rewrite (shape_row h w N i (conj Hh F)); auto.
Qed.

Lemma get_zero_pad_border (i j : nat) :
  (i <= h)%nat -> (j <= w)%nat -> (i = h \/ j = w) ->
  get zero3 (zero_pad w N) i j = zero3.
Proof.
  intros Hi Hj Hb. destruct HN as [Hh F]. unfold get, zero_pad.
  rewrite (nth_indep _ [] ((fun row => row ++ [zero3]) []))
    by (rewrite length_map, length_app; simpl; lia).
  rewrite (map_nth (fun row => row ++ [zero3])).
  destruct (Nat.eq_dec i h) as [E|E].
  - rewrite (app_nth2 N) by lia. replace (i - length N)%nat with 0%nat by lia. simpl.
    destruct (Nat.eq_dec j w) as [E'|E'].
    + rewrite (app_nth2 (repeat zero3 w)) by (rewrite repeat_length; lia).
      rewrite repeat_length. replace (j - w)%nat with 0%nat by lia. reflexivity.
    + rewrite (app_nth1 (repeat zero3 w)) by (rewrite repeat_length; lia).
      apply nth_repeat.
  - assert (j = w) by lia. subst j.
    rewrite (app_nth1 N) by lia.
    pose proof (shape_row h w N i (conj Hh F)) as Hr.
    rewrite (app_nth2 (nth i N [])) by lia. rewrite Hr by lia.
    rewrite Nat.sub_diag. reflexivity.
Qed.

End Repair.

(** ** implied_normal_image on a valid mask *)

Lemma vsub_zero3 : vsub zero3 zero3 = zero3.
Proof. unfold zero3; simpl; reals_eq. Qed.

Lemma cross_product_zero_l (a : vec3) : cross_product zero3 a = zero3.
Proof. destruct a as [[a1 a2] a3]; unfold zero3; simpl; reals_eq. Qed.

Lemma cross_product_zero_r (a : vec3) : cross_product a zero3 = zero3.
Proof. destruct a as [[a1 a2] a3]; unfold zero3; simpl; reals_eq. Qed.

Lemma cross_product_self (a : vec3) : cross_product a a = zero3.
Proof. destruct a as [[a1 a2] a3]; unfold zero3; simpl; reals_eq. Qed.

Lemma vscale_zero3 (k : R) : vscale k zero3 = zero3.
Proof. unfold zero3; simpl; reals_eq. Qed.

Lemma normalize_zero3 : normalize zero3 = zero3.
Proof. apply normalize_zero, norm_zero3. Qed.

Lemma is_zero_norm_true (v : vec3) : is_zero_norm v = true <-> v = zero3.
Proof.
  unfold is_zero_norm. destruct (Req_EM_T (norm v) 0) as [E|E]; split; intros H;
    try discriminate; auto using norm_eq_0.
  subst v. rewrite norm_zero3 in E. tauto.
Qed.

Lemma is_zero_norm_false (v : vec3) :
  (norm v = 1 \/ v = zero3) -> is_zero_norm v = false -> norm v = 1.
Proof.
  intros [H|H] Hz; auto. apply is_zero_norm_true in H. congruence.
Qed.

Lemma vscale_0 (a : vec3) : vscale 0 a = zero3.
Proof. destruct a as [[a1 a2] a3]; unfold zero3; simpl; reals_eq. Qed.

Lemma vadd_zero3 : vadd zero3 zero3 = zero3.
Proof. unfold zero3; simpl; reals_eq. Qed.

Lemma inner_product_vsub_swap (a b c : vec3) :
  inner_product a (vsub b c) = - inner_product a (vsub c b).
Proof.
  destruct a as [[a1 a2] a3], b as [[b1 b2] b3], c as [[c1 c2] c3]; simpl; ring.
Qed.

Lemma vsum_zero (vs : list vec3) : Forall (eq zero3) vs -> vsum vs = zero3.
Proof.
  induction 1 as [|v vs Hv _ IH]; simpl; auto.
  subst v. rewrite IH. apply vadd_zero3.
Qed.

Lemma Forall_concat {A} (P : A -> Prop) (g : list (list A)) :
  Forall (Forall P) g -> Forall P (concat g).
Proof. induction 1; simpl; auto. apply Forall_app; auto. Qed.

Lemma mapi_from_Forall {A B} (P : B -> Prop) (f : nat -> A -> B) (l : list A) :
  (forall k x, P (f k x)) -> forall k, Forall P (mapi_from k f l).
Proof. intros H. induction l; intros k; simpl; auto. Qed.

Lemma get_default {A} (d : A) (h w : nat) (g : grid A) (i j : nat) :
  shape h w g -> (h <= i \/ w <= j)%nat -> get d g i j = d.
Proof.
  intros Hs Hout. unfold get.
  destruct (Nat.lt_ge_cases i h) as [Hi|Hi].
  - apply nth_overflow. rewrite (shape_row h w g i Hs Hi). lia.
  - rewrite (nth_overflow g) by (destruct Hs; lia). destruct j; reflexivity.
Qed.

Lemma window_sum_zero (g : grid vec3) (i j : nat) :
  (forall i' j', get zero3 g i' j' = zero3) -> window_sum g i j = zero3.
Proof.
  intros Hg. unfold window_sum. apply vsum_zero.
  apply Forall_forall. intros v Hv.
  apply in_flat_map in Hv as (a & _ & Hv). apply in_map_iff in Hv as (b & <- & _).
  unfold padded. destruct (_ && _); auto.
Qed.

Lemma local_normal_mean_zero (g : grid vec3) :
  (forall i j, get zero3 g i j = zero3) ->
  Forall (Forall (eq zero3)) (local_normal_mean g).
Proof.
  intros Hg. unfold local_normal_mean, conv5x5, gmap, gmapi.
  apply Forall_map. apply mapi_from_Forall. intros i row.
  apply Forall_map. apply mapi_from_Forall. intros j x.
  rewrite window_sum_zero by auto. symmetry. apply normalize_zero3.
Qed.

Section ValidMask.

Variables (depth0 : grid R) (mask0 : list R) (invK0 : mat3) (invRt0 : Pose).
Variable self : DepthMapParametrization.
Variables h w : nat.
Hypothesis Hdepth : shape (S h) (S w) depth0.
Hypothesis Hinit : initialize depth0 mask0 invK0 invRt0 = Ok self.
Hypothesis Hvalid : touches_border (mask self) = false.

Let points := depth_map_to_locations (depth self) (invK self) (invRt self).
Let L := gwhere (mask self) points (map (fun row => map (fun _ => zero3) row) (mask self)).
Let camloc := translation (invRt self).
Let ON := oriented_normals L camloc.
Let LM := local_normal_mean ON.
Let mean_normal := normalize (vsum (concat LM)).
Let N1 := gwhere (replacement_mask1 (mask self) ON) LM ON.
Let N2 := gmap2 (fun (b : bool) x => if b then mean_normal else x)
            (replacement_mask2 (mask self) N1) N1.

Lemma depth0_height : height depth0 = S h.
Proof. apply (shape_height _ _ _ Hdepth). Qed.

Lemma depth0_width : width depth0 = S w.
Proof. apply (shape_width _ _ _ Hdepth). lia. Qed.

Lemma depth0_shape : shape (height depth0) (width depth0) depth0.
Proof. rewrite depth0_height, depth0_width. exact Hdepth. Qed.

Lemma mask_shape : shape (S h) (S w) (mask self).
Proof.
  rewrite <- depth0_height, <- depth0_width.
  apply (initialized_mask_shape _ _ _ _ _ Hinit).
Qed.

Lemma points_shape : shape (S h) (S w) points.
Proof.
  rewrite <- depth0_height, <- depth0_width.
  apply (initialized_points_shape _ _ _ _ _ depth0_shape Hinit).
Qed.

Lemma L_shape : shape (S h) (S w) L.
Proof.
  unfold L, gwhere. pose proof mask_shape. pose proof points_shape.
  apply shape_gmap2; auto. apply shape_gmap2; auto.
  apply (shape_gmap (fun _ : bool => zero3)); auto.
Qed.

Lemma ON_shape : shape h w ON.
Proof.
  replace h with (S h - 1)%nat by lia. replace w with (S w - 1)%nat by lia.
  apply shape_oriented_normals, L_shape.
Qed.

Lemma LM_shape : shape h w LM.
Proof. apply shape_local_normal_mean, ON_shape. Qed.

Lemma M1_shape : shape h w (replacement_mask1 (mask self) ON).
Proof. apply shape_replacement_mask1; [apply mask_shape | apply ON_shape]. Qed.

Lemma N1_shape : shape h w N1.
Proof.
  unfold N1, gwhere. pose proof M1_shape. pose proof LM_shape. pose proof ON_shape.
  auto with shapes.
Qed.

Lemma M2_shape : shape h w (replacement_mask2 (mask self) N1).
Proof. apply shape_replacement_mask2; [apply mask_shape | apply N1_shape]. Qed.

Lemma N2_shape : shape h w N2.
Proof. unfold N2. pose proof M2_shape. pose proof N1_shape. auto with shapes. Qed.

Lemma valid_location_vector :
  location_vector self = Ok (concat (zip_with select_row (mask self) points)).
Proof. apply (initialized_location_vector _ _ _ _ _ depth0_shape Hinit). Qed.

Lemma valid_location_image :
  create_image zero3 self (concat (zip_with select_row (mask self) points)) = Ok L.
Proof. apply (initialized_location_image _ _ _ _ _ depth0_shape Hinit). Qed.

(** The stages of [implied_normal_image], as images. *)
Lemma implied_normal_image_ok : implied_normal_image self = Ok (zero_pad w N2).
Proof.
  unfold implied_normal_image.
  rewrite valid_location_vector. cbv [bind]. rewrite valid_location_image.
  rewrite (nonempty_of_shape _ _ _ mask_shape) by lia.
  rewrite Hvalid.
  fold camloc. fold ON. fold LM.
  rewrite (masked_select_ok h w) by (auto using M1_shape, LM_shape).
  rewrite (masked_assign_select h w) by (auto using M1_shape, LM_shape, ON_shape).
  fold N1.
  rewrite (masked_assign_single _ h w) by (auto using M2_shape, N1_shape).
  fold mean_normal. fold N2.
  rewrite (shape_width _ _ _ mask_shape) by lia.
  replace (S w - 1)%nat with w by lia. reflexivity.
Qed.

Lemma get_L (i j : nat) :
  (i <= h)%nat -> (j <= w)%nat ->
  get zero3 L i j = if get false (mask self) i j then get zero3 points i j else zero3.
Proof.
  intros Hi Hj. unfold L.
  rewrite (get_gwhere zero3 (S h) (S w)); try lia;
    auto using mask_shape, points_shape.
  - destruct (get false (mask self) i j); auto.
    change (map (fun row => map (fun _ : bool => zero3) row) (mask self))
      with (gmap (fun _ : bool => zero3) (mask self)).
    rewrite (get_gmap (fun _ : bool => zero3) false zero3 (S h) (S w)); auto using mask_shape; lia.
  - apply (shape_gmap (fun _ : bool => zero3)), mask_shape.
Qed.

Lemma get_ON (i j : nat) :
  (i < h)%nat -> (j < w)%nat ->
  get zero3 ON i j
  = vscale (sign (inner_product (fd_normal L i j) (vsub camloc (get zero3 L i j))))
      (fd_normal L i j).
Proof.
  intros Hi Hj. apply (get_oriented_normals (S h) (S w)); auto using L_shape; lia.
Qed.

Lemma ON_cases (i j : nat) :
  (i < h)%nat -> (j < w)%nat ->
  norm (get zero3 ON i j) = 1 \/ get zero3 ON i j = zero3.
Proof.
  intros Hi Hj. rewrite get_ON by auto. apply vscale_sign_cases, fd_normal_cases.
Qed.

Lemma get_N1 (i j : nat) :
  (i < h)%nat -> (j < w)%nat ->
  get zero3 N1 i j
  = if get false (mask self) i j
       && (is_zero_norm (get zero3 ON i j) || negb (get false (mask self) (S i) j)
           || negb (get false (mask self) i (S j)))
    then normalize (window_sum ON i j)
    else get zero3 ON i j.
Proof.
  intros Hi Hj. unfold N1.
  rewrite (get_gwhere zero3 h w) by (auto using M1_shape, LM_shape, ON_shape).
  rewrite (get_replacement_mask1 h w) by (auto using mask_shape, ON_shape).
  unfold LM. rewrite (get_local_normal_mean h w) by (auto using ON_shape).
  reflexivity.
Qed.

Lemma get_N2 (i j : nat) :
  (i < h)%nat -> (j < w)%nat ->
  get zero3 N2 i j
  = if is_zero_norm (get zero3 N1 i j) && get false (mask self) i j
    then mean_normal else get zero3 N1 i j.
Proof.
  intros Hi Hj. unfold N2.
  rewrite (get_gmap2 _ false zero3 zero3 h w) by (auto using M2_shape, N1_shape).
  rewrite (get_replacement_mask2 h w) by (auto using mask_shape, N1_shape).
  reflexivity.
Qed.

Lemma N1_cases (i j : nat) :
  (i < h)%nat -> (j < w)%nat ->
  norm (get zero3 N1 i j) = 1 \/ get zero3 N1 i j = zero3.
Proof.
  intros Hi Hj. rewrite get_N1 by auto.
  destruct (_ && _); [apply normalize_cases | apply ON_cases; auto].
Qed.

(** An unmasked pixel keeps its oriented finite-difference normal. *)
Lemma get_N2_unmasked (i j : nat) :
  (i < h)%nat -> (j < w)%nat -> get false (mask self) i j = false ->
  get zero3 N2 i j = get zero3 ON i j.
Proof.
  intros Hi Hj Hm. rewrite get_N2, get_N1 by auto. rewrite Hm.
  rewrite andb_false_r. reflexivity.
Qed.

(** So does a masked pixel whose neighbours below and beside are masked and
    whose oriented normal is not zero. *)
Lemma get_N2_kept (i j : nat) :
  (i < h)%nat -> (j < w)%nat ->
  get false (mask self) i j = true ->
  get false (mask self) (S i) j = true ->
  get false (mask self) i (S j) = true ->
  get zero3 ON i j <> zero3 ->
  get zero3 N2 i j = get zero3 ON i j.
Proof.
  intros Hi Hj Hm Hd Hr Hnz.
  assert (Hz : is_zero_norm (get zero3 ON i j) = false).
  { destruct (is_zero_norm _) eqn:E; auto. apply is_zero_norm_true in E. tauto. }
  rewrite get_N2, get_N1 by auto. rewrite Hm, Hd, Hr, Hz. simpl. rewrite Hz. reflexivity.
Qed.

Lemma get_points (i j : nat) :
  (i <= h)%nat -> (j <= w)%nat ->
  get zero3 points i j
  = unproject (invK self) (invRt self) i j (get 0 (depth self) i j).
Proof.
  intros Hi Hj. unfold points, depth_map_to_locations.
  destruct (initialize_inv _ _ _ _ _ Hinit) as [_ ->]. simpl.
  apply (get_gmapi _ 0 zero3 (S h) (S w)); auto; lia.
Qed.

(** A pixel whose neighbours below and beside are both unmasked has no
    finite-difference normal: both difference vectors are the pixel's own
    location. *)
Lemma get_ON_alone (i j : nat) :
  (i < h)%nat -> (j < w)%nat ->
  get false (mask self) (S i) j = false ->
  get false (mask self) i (S j) = false ->
  get zero3 ON i j = zero3.
Proof.
  intros Hi Hj Hd Hr. rewrite get_ON by auto. unfold fd_normal.
  rewrite (get_L (S i) j), (get_L i (S j)) by lia. rewrite Hd, Hr.
  rewrite cross_product_self, normalize_zero3. apply vscale_zero3.
Qed.

(** An unmasked pixel with an unmasked neighbour below or beside has none
    either: one of the difference vectors is zero. *)
Lemma get_ON_unmasked (i j : nat) :
  (i < h)%nat -> (j < w)%nat ->
  get false (mask self) i j = false ->
  get false (mask self) (S i) j = false \/ get false (mask self) i (S j) = false ->
  get zero3 ON i j = zero3.
Proof.
  intros Hi Hj Hm Hn. rewrite get_ON by auto. unfold fd_normal.
  rewrite (get_L i j) by lia. rewrite Hm.
  destruct Hn as [Hd|Hr].
  - rewrite (get_L (S i) j) by lia. rewrite Hd.
    rewrite vsub_zero3, normalize_zero3, cross_product_zero_l, normalize_zero3.
    apply vscale_zero3.
  - rewrite (get_L i (S j)) by lia. rewrite Hr.
    rewrite vsub_zero3, normalize_zero3, cross_product_zero_r, normalize_zero3.
    apply vscale_zero3.
Qed.

Lemma get_image_inside (i j : nat) :
  (i < h)%nat -> (j < w)%nat -> get zero3 (zero_pad w N2) i j = get zero3 N2 i j.
Proof. intros Hi Hj. apply (get_zero_pad_inside h w); auto using N2_shape. Qed.

(** When no interior pixel has a masked neighbour below or beside, no pixel
    gets a normal at all. *)
Lemma isolated_pixels_zero :
  (forall i j, (i < h)%nat -> (j < w)%nat ->
     get false (mask self) (S i) j = false /\ get false (mask self) i (S j) = false) ->
  exists normal_image,
    implied_normal_image self = Ok normal_image /\
    forall i j, (i <= h)%nat -> (j <= w)%nat -> get zero3 normal_image i j = zero3.
Proof.
  intros Halone. exists (zero_pad w N2). split; [apply implied_normal_image_ok|].
  assert (HON : forall i j, get zero3 ON i j = zero3).
  { intros i j.
    destruct (Nat.lt_ge_cases i h) as [Hi|Hi]; [|apply (get_default _ h w); auto using ON_shape].
    destruct (Nat.lt_ge_cases j w) as [Hj|Hj]; [|apply (get_default _ h w); auto using ON_shape].
    destruct (Halone i j Hi Hj). apply get_ON_alone; auto. }
  assert (HN1 : forall i j, (i < h)%nat -> (j < w)%nat -> get zero3 N1 i j = zero3).
  { intros i j Hi Hj. rewrite get_N1 by auto.
    destruct (_ && _); auto. rewrite window_sum_zero by auto. apply normalize_zero3. }
  assert (Hmean : mean_normal = zero3).
  { unfold mean_normal. rewrite vsum_zero; [apply normalize_zero3|].
    apply Forall_concat, local_normal_mean_zero, HON. }
  intros i j Hi Hj.
  destruct (Nat.eq_dec i h) as [Ei|Ei];
    [apply (get_zero_pad_border h w); auto using N2_shape|].
  destruct (Nat.eq_dec j w) as [Ej|Ej];
    [apply (get_zero_pad_border h w); auto using N2_shape|].
  rewrite get_image_inside, get_N2 by lia. rewrite HN1 by lia.
  destruct (_ && _); auto.
Qed.

(** The value at an unmasked pixel whose neighbours below and beside are
    masked: its own location is zero, theirs are the unprojected points. *)
Lemma unmasked_pixel (i j : nat) (pd pr n0 : vec3) (s : R) :
  (i < h)%nat -> (j < w)%nat ->
  get false (mask self) i j = false ->
  get false (mask self) (S i) j = true ->
  get false (mask self) i (S j) = true ->
  unproject (invK self) (invRt self) (S i) j (get 0 (depth self) (S i) j) = pd ->
  unproject (invK self) (invRt self) i (S j) (get 0 (depth self) i (S j)) = pr ->
  normalize (cross_product (normalize (vsub zero3 pd)) (normalize (vsub zero3 pr))) = n0 ->
  sign (inner_product n0 (vsub (translation (invRt self)) zero3)) = s ->
  exists normal_image,
    implied_normal_image self = Ok normal_image /\
    get zero3 normal_image i j = vscale s n0.
Proof.
  intros Hi Hj Hm Hd Hr Epd Epr En Es.
  exists (zero_pad w N2). split; [apply implied_normal_image_ok|].
  assert (EL : get zero3 L i j = zero3) by (rewrite get_L, Hm by lia; reflexivity).
  assert (ELd : get zero3 L (S i) j = pd) by (rewrite get_L, Hd, get_points by lia; exact Epd).
  assert (ELr : get zero3 L i (S j) = pr) by (rewrite get_L, Hr, get_points by lia; exact Epr).
  rewrite get_image_inside, get_N2_unmasked, get_ON by auto.
  unfold fd_normal. rewrite EL, ELd, ELr, En.
  fold camloc in Es. now rewrite Es.
Qed.

(** The value at a pixel that keeps its own normal, from the three
    unprojected points it is computed from. *)
Lemma kept_pixel (i j : nat) (p pd pr n0 : vec3) (s : R) :
  (i < h)%nat -> (j < w)%nat ->
  get false (mask self) i j = true ->
  get false (mask self) (S i) j = true ->
  get false (mask self) i (S j) = true ->
  unproject (invK self) (invRt self) i j (get 0 (depth self) i j) = p ->
  unproject (invK self) (invRt self) (S i) j (get 0 (depth self) (S i) j) = pd ->
  unproject (invK self) (invRt self) i (S j) (get 0 (depth self) i (S j)) = pr ->
  normalize (cross_product (normalize (vsub p pd)) (normalize (vsub p pr))) = n0 ->
  sign (inner_product n0 (vsub (translation (invRt self)) p)) = s ->
  vscale s n0 <> zero3 ->
  exists locations location_image normal_image,
    location_vector self = Ok locations /\
    create_image zero3 self locations = Ok location_image /\
    implied_normal_image self = Ok normal_image /\
    get zero3 location_image i j = p /\
    get zero3 normal_image i j = vscale s n0.
Proof.
  intros Hi Hj Hm Hd Hr Ep Epd Epr En Es Hnz.
  exists (concat (zip_with select_row (mask self) points)), L, (zero_pad w N2).
  split; [apply valid_location_vector|].
  split; [apply valid_location_image|].
  split; [apply implied_normal_image_ok|].
  assert (EL : get zero3 L i j = p) by (rewrite get_L, Hm, get_points by lia; exact Ep).
  assert (ELd : get zero3 L (S i) j = pd) by (rewrite get_L, Hd, get_points by lia; exact Epd).
  assert (ELr : get zero3 L i (S j) = pr) by (rewrite get_L, Hr, get_points by lia; exact Epr).
  assert (EON : get zero3 ON i j = vscale s n0).
  { rewrite get_ON by auto. unfold fd_normal. rewrite EL, ELd, ELr, En.
    fold camloc in Es. now rewrite Es. }
  split; [exact EL|].
  rewrite get_image_inside, get_N2_kept by (auto; rewrite EON; exact Hnz).
  exact EON.
Qed.

(** C5: on a valid mask [implied_normal_image()] returns an image of the
    size of the mask.  Its last row and last column are exactly zero.  At an
    interior masked pixel the vector has length exactly 1, or it is the zero
    vector, which happens only when the pixel's own normal had to be
    replaced and both the mean of its 5x5 window and the global mean
    direction are zero.  An interior unmasked pixel keeps its oriented
    finite-difference normal, which is exactly zero when the neighbour below
    or the neighbour beside is unmasked too. *)
Theorem implied_normal_image_norms :
  exists locations location_image normal_image,
    location_vector self = Ok locations /\
    create_image zero3 self locations = Ok location_image /\
    implied_normal_image self = Ok normal_image /\
    shape (S h) (S w) normal_image /\
    forall i j, (i <= h)%nat -> (j <= w)%nat ->
      let on := oriented_normals location_image (translation (invRt self)) in
      (i = h \/ j = w -> get zero3 normal_image i j = zero3) /\
      ((i < h)%nat -> (j < w)%nat -> get false (mask self) i j = true ->
       norm (get zero3 normal_image i j) = 1 \/
       (get zero3 normal_image i j = zero3 /\
        normalize (window_sum on i j) = zero3 /\
        normalize (vsum (concat (local_normal_mean on))) = zero3 /\
        (get zero3 on i j = zero3 \/ get false (mask self) (S i) j = false
         \/ get false (mask self) i (S j) = false))) /\
      ((i < h)%nat -> (j < w)%nat -> get false (mask self) i j = false ->
       get zero3 normal_image i j = get zero3 on i j /\
       (get false (mask self) (S i) j = false \/ get false (mask self) i (S j) = false ->
        get zero3 normal_image i j = zero3)).
Proof.
  exists (concat (zip_with select_row (mask self) points)), L, (zero_pad w N2).
  split; [apply valid_location_vector|].
  split; [apply valid_location_image|].
  split; [apply implied_normal_image_ok|].
  split; [apply shape_zero_pad, N2_shape|].
  intros i j Hi Hj. cbv zeta. fold camloc. fold ON. fold LM. fold mean_normal.
  split; [|split].
  - intros Hb. apply (get_zero_pad_border h w); auto using N2_shape.
  - intros Hi' Hj' Hm. rewrite get_image_inside, get_N2 by auto. rewrite Hm, andb_true_r.
    destruct (is_zero_norm (get zero3 N1 i j)) eqn:Hz.
    + destruct (normalize_cases (vsum (concat LM))) as [Hu|Hzero]; [left; exact Hu|].
      right. fold mean_normal in Hzero. split; [exact Hzero|].
      apply is_zero_norm_true in Hz. rewrite get_N1 in Hz by auto. rewrite Hm in Hz.
      simpl in Hz.
      destruct (is_zero_norm (get zero3 ON i j)) eqn:Ho; simpl in Hz.
      * apply is_zero_norm_true in Ho. auto.
      * destruct (get false (mask self) (S i) j) eqn:Hd; simpl in Hz; [|auto].
        destruct (get false (mask self) i (S j)) eqn:Hr; simpl in Hz; [|auto].
        apply is_zero_norm_true in Hz. congruence.
    + left. apply is_zero_norm_false; auto. apply N1_cases; auto.
  - intros Hi' Hj' Hm.
    rewrite get_image_inside, get_N2_unmasked by auto.
    split; [reflexivity|].
    intros Hn. apply get_ON_unmasked; auto.
Qed.

(** C8: the oriented finite-difference normal of an interior pixel has a
    non-negative inner product with the vector from the point to the camera
    (camera location minus point position), hence a non-positive one with
    the vector from the camera to the point.  Where the pixel and its
    neighbours below and beside are masked and that normal is not zero, it
    is the normal that [implied_normal_image()] returns, and its inner
    product with camera minus point is positive. *)
Theorem normal_faces_camera :
  exists locations location_image normal_image,
    location_vector self = Ok locations /\
    create_image zero3 self locations = Ok location_image /\
    implied_normal_image self = Ok normal_image /\
    forall i j, (i < h)%nat -> (j < w)%nat ->
      let camera := translation (invRt self) in
      let point := get zero3 location_image i j in
      let on := get zero3 (oriented_normals location_image camera) i j in
      0 <= inner_product on (vsub camera point) /\
      inner_product on (vsub point camera) <= 0 /\
      (get false (mask self) i j = true ->
       get false (mask self) (S i) j = true ->
       get false (mask self) i (S j) = true ->
       on <> zero3 ->
       get zero3 normal_image i j = on /\
       0 < inner_product (get zero3 normal_image i j) (vsub camera point) /\
       inner_product (get zero3 normal_image i j) (vsub point camera) < 0).
Proof.
  exists (concat (zip_with select_row (mask self) points)), L, (zero_pad w N2).
  split; [apply valid_location_vector|].
  split; [apply valid_location_image|].
  split; [apply implied_normal_image_ok|].
  intros i j Hi Hj. cbv zeta. fold camloc. fold ON.
  assert (E : inner_product (get zero3 ON i j) (vsub camloc (get zero3 L i j))
              = sign (inner_product (fd_normal L i j) (vsub camloc (get zero3 L i j)))
                * inner_product (fd_normal L i j) (vsub camloc (get zero3 L i j))).
  { rewrite get_ON by auto. apply inner_product_vscale_l. }
  pose proof (sign_mult_nonneg
                (inner_product (fd_normal L i j) (vsub camloc (get zero3 L i j)))) as Hs.
  split; [rewrite E; exact Hs|].
  split; [rewrite inner_product_vsub_swap, E; lra|].
  intros Hm Hd Hr Hnz.
  rewrite get_image_inside, get_N2_kept by auto.
  split; [reflexivity|].
  assert (Hpos : 0 < inner_product (get zero3 ON i j) (vsub camloc (get zero3 L i j))).
  { rewrite E.
    destruct (sign_cases (inner_product (fd_normal L i j) (vsub camloc (get zero3 L i j))))
      as [[Hc Es]|[[Hc Es]|[Hc Es]]]; rewrite Es; try lra.
    exfalso. apply Hnz. rewrite get_ON by auto. rewrite Es. apply vscale_0. }
  split; [exact Hpos|].
  rewrite inner_product_vsub_swap. lra.
Qed.

End ValidMask.

(** ** The scenes [self3] and [self2] *)

Lemma depth3_shape33 : shape 3 3 depth3.
Proof. split; [reflexivity | repeat constructor]. Qed.

Lemma mask_self3 :
  mask self3 = [[true; true; false]; [true; false; false]; [false; false; false]].
Proof.
  cbv [self3 mask mask3 chunks firstn skipn gmap map]. run_reals. reflexivity.
Qed.

Lemma self3_valid : touches_border (mask self3) = false.
Proof. rewrite mask_self3. reflexivity. Qed.

Lemma implied_normal_image_norms_witness :
  exists locations location_image normal_image,
    location_vector self3 = Ok locations /\
    create_image zero3 self3 locations = Ok location_image /\
    implied_normal_image self3 = Ok normal_image /\
    shape 3 3 normal_image /\
    forall i j, (i <= 2)%nat -> (j <= 2)%nat ->
      let on := oriented_normals location_image (translation (invRt self3)) in
      (i = 2%nat \/ j = 2%nat -> get zero3 normal_image i j = zero3) /\
      ((i < 2)%nat -> (j < 2)%nat -> get false (mask self3) i j = true ->
       norm (get zero3 normal_image i j) = 1 \/
       (get zero3 normal_image i j = zero3 /\
        normalize (window_sum on i j) = zero3 /\
        normalize (vsum (concat (local_normal_mean on))) = zero3 /\
        (get zero3 on i j = zero3 \/ get false (mask self3) (S i) j = false
         \/ get false (mask self3) i (S j) = false))) /\
      ((i < 2)%nat -> (j < 2)%nat -> get false (mask self3) i j = false ->
       get zero3 normal_image i j = get zero3 on i j /\
       (get false (mask self3) (S i) j = false \/ get false (mask self3) i (S j) = false ->
        get zero3 normal_image i j = zero3)).
Proof.
  exact (implied_normal_image_norms depth3 mask3 eye3 camera0 self3 2 2
           depth3_shape33 initialize_self3 self3_valid).
Defined.

Lemma depth2_shape22 : shape 2 2 depth2.
Proof. split; [reflexivity | repeat constructor]. Qed.

Lemma initialize_self2 : initialize depth2 mask2 eye3 camera0 = Ok self2.
Proof. reflexivity. Qed.

Lemma mask_self2 : mask self2 = [[true; false]; [false; false]].
Proof.
  cbv [self2 mask mask2 chunks firstn skipn gmap map]. run_reals. reflexivity.
Qed.

Lemma self2_valid : touches_border (mask self2) = false.
Proof. rewrite mask_self2. reflexivity. Qed.

Lemma normalize_unit_vector (v : vec3) : inner_product v v = 1 -> normalize v = v.
Proof.
  intros H. assert (Hn : norm v = 1) by (unfold norm; rewrite H; apply sqrt_1).
  unfold normalize. rewrite Hn. destruct (Req_EM_T 1 0); [lra|].
  destruct v as [[v1 v2] v3]. simpl. reals_eq.
Qed.

Lemma initialize_self3b : initialize depth3 mask3b eye3 camera1 = Ok self3b.
Proof. reflexivity. Qed.

Lemma mask_self3b :
  mask self3b = [[false; true; false]; [true; false; false]; [false; false; false]].
Proof.
  cbv [self3b mask mask3b chunks firstn skipn gmap map]. run_reals. reflexivity.
Qed.

Lemma self3b_valid : touches_border (mask self3b) = false.
Proof. rewrite mask_self3b. reflexivity. Qed.

(** C5, as stated, fails, in both halves.  [self3b] is validly initialized,
    its pixel (0,0) lies outside the mask, and the normal returned there is
    (0, 0, -1), not zero.  [self2] is validly initialized, its pixel (0,0)
    is an interior masked pixel, and the normal returned there is the zero
    vector, of norm 0. *)
Lemma implied_normal_image_counterexample :
  (initialize depth3 mask3b eye3 camera1 = Ok self3b /\
   touches_border (mask self3b) = false /\
   get false (mask self3b) 0 0 = false /\
   exists normal_image,
     implied_normal_image self3b = Ok normal_image /\
     get zero3 normal_image 0 0 = (0, 0, -1) /\
     get zero3 normal_image 0 0 <> zero3) /\
  (initialize depth2 mask2 eye3 camera0 = Ok self2 /\
   touches_border (mask self2) = false /\
   get false (mask self2) 0 0 = true /\
   exists normal_image,
     implied_normal_image self2 = Ok normal_image /\
     get zero3 normal_image 0 0 = zero3 /\
     norm (get zero3 normal_image 0 0) = 0 /\
     1e-5 < Rabs (norm (get zero3 normal_image 0 0) - 1)).
Proof.
  split.
  - split; [exact initialize_self3b|].
    split; [exact self3b_valid|].
    split; [rewrite mask_self3b; reflexivity|].
    destruct (unmasked_pixel depth3 mask3b eye3 camera1 self3b 2 2
                depth3_shape33 initialize_self3b self3b_valid
                0 0 (0, 1, 0) (1, 0, 0) (0, 0, -1) 1)
      as (img & Himg & Hn); try lia.
    + rewrite mask_self3b; reflexivity.
    + rewrite mask_self3b; reflexivity.
    + rewrite mask_self3b; reflexivity.
    + cbv [unproject self3b invK invRt depth depth3 camera1 rotation translation get nth
           eye3 mat_vec inner_product vscale vadd INR]. reals_eq.
    + cbv [unproject self3b invK invRt depth depth3 camera1 rotation translation get nth
           eye3 mat_vec inner_product vscale vadd INR]. reals_eq.
    + replace (vsub zero3 (0, 1, 0)) with (0, -1, 0) by (unfold zero3; simpl; reals_eq).
      replace (vsub zero3 (1, 0, 0)) with (-1, 0, 0) by (unfold zero3; simpl; reals_eq).
      rewrite (normalize_unit_vector (0, -1, 0)) by (simpl; lra).
      rewrite (normalize_unit_vector (-1, 0, 0)) by (simpl; lra).
      replace (cross_product (0, -1, 0) (-1, 0, 0)) with (0, 0, -1) by (simpl; reals_eq).
      apply normalize_unit_vector. simpl. lra.
    + cbv [self3b invRt camera1 translation vsub inner_product sign zero3].
      run_reals. reflexivity.
    + exists img. split; [exact Himg|].
      assert (Hv : get zero3 img 0 0 = (0, 0, -1)) by (rewrite Hn; simpl; reals_eq).
      split; [exact Hv|].
      rewrite Hv. unfold zero3. intros E. injection E. lra.
  - split; [exact initialize_self2|].
    split; [exact self2_valid|].
    split; [rewrite mask_self2; reflexivity|].
    destruct (isolated_pixels_zero depth2 mask2 eye3 camera0 self2 1 1
                depth2_shape22 initialize_self2 self2_valid) as (img & Himg & Hzero).
    { intros i j Hi Hj. assert (i = 0%nat) by lia. assert (j = 0%nat) by lia. subst.
      rewrite mask_self2. split; reflexivity. }
    exists img. split; [exact Himg|].
    rewrite (Hzero 0%nat 0%nat) by lia.
    split; [reflexivity|].
    rewrite norm_zero3. split; [reflexivity|].
    rewrite Rabs_left by lra. lra.
Qed.

Lemma normal_faces_camera_witness :
  exists locations location_image normal_image,
    location_vector self3 = Ok locations /\
    create_image zero3 self3 locations = Ok location_image /\
    implied_normal_image self3 = Ok normal_image /\
    forall i j, (i < 2)%nat -> (j < 2)%nat ->
      let camera := translation (invRt self3) in
      let point := get zero3 location_image i j in
      let on := get zero3 (oriented_normals location_image camera) i j in
      0 <= inner_product on (vsub camera point) /\
      inner_product on (vsub point camera) <= 0 /\
      (get false (mask self3) i j = true ->
       get false (mask self3) (S i) j = true ->
       get false (mask self3) i (S j) = true ->
       on <> zero3 ->
       get zero3 normal_image i j = on /\
       0 < inner_product (get zero3 normal_image i j) (vsub camera point) /\
       inner_product (get zero3 normal_image i j) (vsub point camera) < 0).
Proof.
  exact (normal_faces_camera depth3 mask3 eye3 camera0 self3 2 2
           depth3_shape33 initialize_self3 self3_valid).
Defined.

(** C8, as stated, fails: at the interior pixel (0,0) of [self3] the point
    is (0, 0, 1), the camera is at the origin, and the returned normal is
    (0, 0, -1): its inner product with point minus camera is -1. *)
Lemma camera_to_point_sign_counterexample :
  exists locations location_image normal_image,
    location_vector self3 = Ok locations /\
    create_image zero3 self3 locations = Ok location_image /\
    implied_normal_image self3 = Ok normal_image /\
    get zero3 location_image 0 0 = (0, 0, 1) /\
    translation (invRt self3) = (0, 0, 0) /\
    get zero3 normal_image 0 0 = (0, 0, -1) /\
    inner_product (get zero3 normal_image 0 0)
      (vsub (get zero3 location_image 0 0) (translation (invRt self3))) = -1.
Proof.
  destruct (kept_pixel depth3 mask3 eye3 camera0 self3 2 2
              depth3_shape33 initialize_self3 self3_valid
              0 0 (0, 0, 1) (0, 1, 1) (1, 0, 1) (0, 0, -1) 1)
    as (locs & Limg & img & Hlocs & HL & Himg & Hp & Hn); try lia.
  - rewrite mask_self3; reflexivity.
  - rewrite mask_self3; reflexivity.
  - rewrite mask_self3; reflexivity.
  - cbv [unproject self3 invK invRt depth depth3 camera0 rotation translation get nth
         eye3 mat_vec inner_product vscale vadd INR]. reals_eq.
  - cbv [unproject self3 invK invRt depth depth3 camera0 rotation translation get nth
         eye3 mat_vec inner_product vscale vadd INR]. reals_eq.
  - cbv [unproject self3 invK invRt depth depth3 camera0 rotation translation get nth
         eye3 mat_vec inner_product vscale vadd INR]. reals_eq.
  - replace (vsub (0, 0, 1) (0, 1, 1)) with (0, -1, 0) by (simpl; reals_eq).
    replace (vsub (0, 0, 1) (1, 0, 1)) with (-1, 0, 0) by (simpl; reals_eq).
    rewrite (normalize_unit_vector (0, -1, 0)) by (simpl; lra).
    rewrite (normalize_unit_vector (-1, 0, 0)) by (simpl; lra).
    replace (cross_product (0, -1, 0) (-1, 0, 0)) with (0, 0, -1) by (simpl; reals_eq).
    apply normalize_unit_vector. simpl. lra.
  - cbv [self3 invRt camera0 translation vsub inner_product sign]. run_reals. reflexivity.
  - simpl. intros E. injection E. lra.
  - exists locs, Limg, img.
    split; [exact Hlocs|]. split; [exact HL|]. split; [exact Himg|].
    split; [exact Hp|]. split; [reflexivity|].
    assert (Hv : get zero3 img 0 0 = (0, 0, -1)) by (rewrite Hn; simpl; reals_eq).
    split; [exact Hv|].
    rewrite Hv, Hp. simpl. lra.
Qed.

End LocationFacts.

(** * More about closed_form.py *)

Module ClosedFormMore.
Import ClosedForm ClosedFormFacts.

(** ** What the loop keeps true of the stored inliers *)

Lemma ransac_loop_invariant (C : nat) (p : PointViews) (subsets : list (list nat)) :
  views_wf C p ->
  forall st st',
    length (best_inliers st) = C ->
    (best_inliers st = repeat 0 C /\ best_inlier_counts st = 0 - 1) \/
    (exists sol, best_inliers st = inliers_of p sol /\
                 best_inlier_counts st = Rsum (inliers_of p sol)) ->
    ransac_loop p st subsets = Ok st' ->
    length (best_inliers st') = C /\
    ((best_inliers st' = repeat 0 C /\ best_inlier_counts st' = 0 - 1) \/
     (exists sol, best_inliers st' = inliers_of p sol /\
                  best_inlier_counts st' = Rsum (inliers_of p sol))).
Proof.
  intros Hwf. induction subsets as [|s subsets IH]; simpl; intros st st' Hlen Hinv H.
  - injection H as <-. auto.
  - destruct (ransac_step p st s) as [st1|e] eqn:E; simpl in H; [|discriminate].
    apply ransac_step_inv in E as (sol & _ & ->).
    assert (Hl : length (best_inliers st) = length (inliers_of p sol))
      by (rewrite (inliers_of_length C); auto).
    apply IH in H; auto.
    + rewrite ransac_update_length; rewrite (inliers_of_length C); auto.
    + destruct (Rgt_dec (Rsum (inliers_of p sol)) (best_inlier_counts st)) as [Hgt|Hle].
      * rewrite ransac_update_better by auto. right. exists sol. auto.
      * rewrite ransac_update_not_better by (auto; lra). exact Hinv.
Qed.

Lemma inliers_of_invalid (C : nat) (p : PointViews) (sol : vec3) (v : nat) :
  views_wf C p -> nth v (valid_mask p) 0 = 0 -> nth v (inliers_of p sol) 0 = 0.
Proof.
  intros Hwf Hv. destruct (Nat.lt_ge_cases v C) as [Hlt|Hge].
  - rewrite (inliers_of_nth C), Hv by auto. ring.
  - apply nth_overflow. rewrite (inliers_of_length C); auto.
Qed.

Lemma repeat_zero_flags (C : nat) : Forall is_flag (repeat 0 C).
Proof. induction C; simpl; constructor; auto. unfold is_flag; left; reflexivity. Qed.

(** Whatever subsets are drawn, the stored inlier mask has one 0/1 flag per
    view, and a view that is shadowed or occluded is never an inlier. *)
Theorem stored_inliers_are_valid_views
  (C : nat) (p : PointViews) (subsets : list (list nat)) (st : RansacState)
  (Hwf : views_wf C p)
  (Hloop : ransac_loop p (ransac_init C) subsets = Ok st) :
  length (best_inliers st) = C /\
  Forall is_flag (best_inliers st) /\
  forall v, nth v (valid_mask p) 0 = 0 -> nth v (best_inliers st) 0 = 0.
Proof.
  destruct (ransac_loop_invariant C p subsets Hwf (ransac_init C) st) as [Hlen Hinv];
    [simpl; apply repeat_length | left; simpl; auto | exact Hloop |].
  split; [exact Hlen|].
  destruct Hinv as [[-> _]|(sol & -> & _)].
  - split; [apply repeat_zero_flags|]. intros v _. apply nth_repeat.
  - split; [apply inliers_of_flags|]. intros v Hv. apply (inliers_of_invalid C); auto.
Qed.

Lemma stored_inliers_are_valid_views_witness :
  length [0; 0; 1; 1] = 4%nat /\
  Forall is_flag [0; 0; 1; 1] /\
  forall v, nth v (valid_mask Examples.p4) 0 = 0 -> nth v [0; 0; 1; 1] 0 = 0.
Proof.
  apply (stored_inliers_are_valid_views 4 Examples.p4 [[0; 1; 2; 3]%nat]
           {| best_inlier_counts := 2; best_inliers := [0; 0; 1; 1] |} p4_wf).
  simpl. rewrite p4_ransac_step. reflexivity.
Defined.

Lemma Rsum_inliers_le_valid (p : PointViews) (sol : vec3) :
  Rsum (inliers_of p sol) <= Rsum (valid_mask p).
Proof.
  unfold inliers_of. pose proof (flags_nonneg _ (valid_mask_flags p)) as Hv. revert Hv.
  generalize (valid_mask p) (residuals_of p sol).
  intros vs rs Hv. revert rs. induction Hv as [|v vs Hv0 Hvs IH]; intros [|r rs]; simpl.
  - lra.
  - lra.
  - pose proof (Rsum_nonneg vs Hvs). unfold Rsum in *; simpl; lra.
  - specialize (IH rs). unfold Rsum in *; simpl.
    destruct (Rlt_dec (Rabs r) threshold); simpl; lra.
Qed.

(** After one pass or more, the stored count is the number of stored
    inliers: it lies between 0 and the number of valid views. *)
Theorem stored_count_is_inlier_count
  (C : nat) (p : PointViews) (subset : list nat) (rest : list (list nat))
  (st : RansacState)
  (Hwf : views_wf C p)
  (Hloop : ransac_loop p (ransac_init C) (subset :: rest) = Ok st) :
  best_inlier_counts st = Rsum (best_inliers st) /\
  0 <= best_inlier_counts st <= Rsum (valid_mask p).
Proof.
  simpl in Hloop.
  destruct (ransac_step p (ransac_init C) subset) as [st1|e] eqn:E; simpl in Hloop;
    [|discriminate].
  destruct (ransac_first_step C p subset st1 Hwf E) as (sol & _ & Hb & Hc).
  destruct (ransac_loop_invariant C p rest Hwf st1 st) as [_ Hinv];
    [rewrite Hb; apply (inliers_of_length C); auto | right; exists sol; auto | exact Hloop |].
  assert (Hgoal : exists sol', best_inliers st = inliers_of p sol' /\
                               best_inlier_counts st = Rsum (inliers_of p sol')).
  { destruct Hinv as [[_ Hneg]|Hsol]; [|exact Hsol].
    exfalso.
    pose proof (ransac_loop_count_monotone p rest st1 st Hloop) as Hmono.
    pose proof (Rsum_nonneg _ (flags_nonneg _ (inliers_of_flags p sol))). lra. }
  destruct Hgoal as (sol' & Hb' & Hc').
  rewrite Hb', Hc'. split; [reflexivity|].
  split; [apply Rsum_nonneg, flags_nonneg, inliers_of_flags | apply Rsum_inliers_le_valid].
Qed.

Lemma stored_count_is_inlier_count_witness :
  2 = Rsum [0; 0; 1; 1] /\ 0 <= 2 <= Rsum (valid_mask Examples.p4).
Proof.
  apply (stored_count_is_inlier_count 4 Examples.p4 [0; 1; 2; 3]%nat []
           {| best_inlier_counts := 2; best_inliers := [0; 0; 1; 1] |} p4_wf).
  simpl. rewrite p4_ransac_step. reflexivity.
Defined.

(** ** Which subset the loop keeps *)

Lemma ransac_loop_keeps_best (C : nat) (p : PointViews) (subsets : list (list nat)) :
  views_wf C p ->
  forall st0 st,
    length (best_inliers st0) = C ->
    ransac_loop p st0 subsets = Ok st ->
    (st = st0 /\
     forall s', In s' subsets ->
       exists sol', solution_subset p s' = Ok sol' /\
                    Rsum (inliers_of p sol') <= best_inlier_counts st0) \/
    (exists pre s post sol,
       subsets = pre ++ s :: post /\
       solution_subset p s = Ok sol /\
       best_inlier_counts st0 < Rsum (inliers_of p sol) /\
       st = {| best_inlier_counts := Rsum (inliers_of p sol);
               best_inliers := inliers_of p sol |} /\
       (forall s', In s' pre ->
          exists sol', solution_subset p s' = Ok sol' /\
                       Rsum (inliers_of p sol') < Rsum (inliers_of p sol)) /\
       (forall s', In s' post ->
          exists sol', solution_subset p s' = Ok sol' /\
                       Rsum (inliers_of p sol') <= Rsum (inliers_of p sol))).
Proof.
  intros Hwf. induction subsets as [|s1 rest IH]; simpl; intros st0 st Hlen H.
  - injection H as <-. left. split; [reflexivity|]. intros s' [].
  - destruct (ransac_step p st0 s1) as [st1|e] eqn:E; simpl in H; [|discriminate].
    apply ransac_step_inv in E as (sol1 & Hsol1 & ->).
    assert (Hl : length (best_inliers st0) = length (inliers_of p sol1))
      by (rewrite (inliers_of_length C); auto).
    destruct (Rgt_dec (Rsum (inliers_of p sol1)) (best_inlier_counts st0)) as [Hgt|Hle].
    + rewrite ransac_update_better in H by auto.
      apply IH in H; [|simpl; apply (inliers_of_length C); auto].
      simpl in H. right.
      destruct H as [[-> Hrest]|(pre & s & post & sol & -> & Hsol & Hlt & -> & Hpre & Hpost)].
      * exists [], s1, rest, sol1. repeat split; auto; try lra. intros s' [].
      * exists (s1 :: pre), s, post, sol. repeat split; auto; try lra.
        intros s' [<-|Hin]; [|auto]. exists sol1. split; auto.
    + rewrite ransac_update_not_better in H by (auto; lra).
      apply IH in H; auto.
      destruct H as [[-> Hrest]|(pre & s & post & sol & -> & Hsol & Hlt & -> & Hpre & Hpost)].
      * left. split; [reflexivity|].
        intros s' [<-|Hin]; [|auto]. exists sol1. split; auto. lra.
      * right. exists (s1 :: pre), s, post, sol. repeat split; auto.
        intros s' [<-|Hin]; [|auto]. exists sol1. split; auto. lra.
Qed.

(** The loop keeps the inliers of the first subset that reaches the largest
    inlier count: every earlier subset has strictly fewer inliers, no later
    one has more. *)
Theorem ransac_keeps_first_best_subset
  (C : nat) (p : PointViews) (subset : list nat) (rest : list (list nat))
  (st : RansacState)
  (Hwf : views_wf C p)
  (Hloop : ransac_loop p (ransac_init C) (subset :: rest) = Ok st) :
  exists pre s post sol,
    subset :: rest = pre ++ s :: post /\
    solution_subset p s = Ok sol /\
    best_inliers st = inliers_of p sol /\
    best_inlier_counts st = Rsum (inliers_of p sol) /\
    (forall s', In s' pre ->
       exists sol', solution_subset p s' = Ok sol' /\
                    Rsum (inliers_of p sol') < Rsum (inliers_of p sol)) /\
    (forall s', In s' post ->
       exists sol', solution_subset p s' = Ok sol' /\
                    Rsum (inliers_of p sol') <= Rsum (inliers_of p sol)).
Proof.
  destruct (ransac_loop_keeps_best C p (subset :: rest) Hwf (ransac_init C) st)
    as [[_ Hall]|(pre & s & post & sol & Hsplit & Hsol & _ & -> & Hpre & Hpost)];
    [simpl; apply repeat_length | exact Hloop | |].
  - exfalso. destruct (Hall subset (or_introl eq_refl)) as (sol' & _ & Hle).
    pose proof (Rsum_nonneg _ (flags_nonneg _ (inliers_of_flags p sol'))).
    simpl in Hle. lra.
  - exists pre, s, post, sol. simpl. auto 10.
Qed.

Lemma ransac_keeps_first_best_subset_witness :
  exists pre s post sol,
    [[0; 1; 2; 3]; [0; 1; 2; 3]]%nat = pre ++ s :: post /\
    solution_subset Examples.p4 s = Ok sol /\
    [0; 0; 1; 1] = inliers_of Examples.p4 sol /\
    2 = Rsum (inliers_of Examples.p4 sol) /\
    (forall s', In s' pre ->
       exists sol', solution_subset Examples.p4 s' = Ok sol' /\
                    Rsum (inliers_of Examples.p4 sol') < Rsum (inliers_of Examples.p4 sol)) /\
    (forall s', In s' post ->
       exists sol', solution_subset Examples.p4 s' = Ok sol' /\
                    Rsum (inliers_of Examples.p4 sol') <= Rsum (inliers_of Examples.p4 sol)).
Proof.
  apply (ransac_keeps_first_best_subset 4 Examples.p4 [0; 1; 2; 3]%nat [[0; 1; 2; 3]%nat]
           {| best_inlier_counts := 2; best_inliers := [0; 0; 1; 1] |} p4_wf).
  simpl. rewrite p4_ransac_step. simpl.
  unfold ransac_step. rewrite p4_solution_subset. simpl. rewrite p4_inliers_of.
  rewrite ransac_update_not_better; [reflexivity | reflexivity |].
  unfold Rsum; simpl. lra.
Defined.

(** ** The normal equations of one subset *)

Lemma inverse3_left (m inv : mat3) (v : vec3) :
  inverse3 m = Ok inv -> mat_vec inv (mat_vec m v) = v.
Proof.
  unfold inverse3. destruct (Req_EM_T (det3 m) 0) as [E|E]; [discriminate|].
  intros H; injection H as <-.
  destruct m as [[[[a b] c] [[d e] f]] [[g h] i]]. destruct v as [[x y] z].
  cbn [det3] in E. cbn [adjugate mscale vscale mat_vec inner_product det3].
  f_equal; [f_equal|]; field; exact E.
Qed.

Lemma inverse3_right (m inv : mat3) (v : vec3) :
  inverse3 m = Ok inv -> mat_vec m (mat_vec inv v) = v.
Proof.
  unfold inverse3. destruct (Req_EM_T (det3 m) 0) as [E|E]; [discriminate|].
  intros H; injection H as <-.
  destruct m as [[[[a b] c] [[d e] f]] [[g h] i]]. destruct v as [[x y] z].
  cbn [det3] in E. cbn [adjugate mscale vscale mat_vec inner_product det3].
  f_equal; [f_equal|]; field; exact E.
Qed.

Lemma mat_vec_vadd (m : mat3) (a b : vec3) :
  mat_vec m (vadd a b) = vadd (mat_vec m a) (mat_vec m b).
Proof.
  destruct m as [[[[? ?] ?] [[? ?] ?]] [[? ?] ?]], a as [[? ?] ?], b as [[? ?] ?].
  unfold zero3, mzero; cbn. f_equal; [f_equal|]; ring.
Qed.

Lemma mat_vec_vscale (m : mat3) (k : R) (a : vec3) :
  mat_vec m (vscale k a) = vscale k (mat_vec m a).
Proof.
  destruct m as [[[[? ?] ?] [[? ?] ?]] [[? ?] ?]], a as [[? ?] ?].
  unfold zero3, mzero; cbn. f_equal; [f_equal|]; ring.
Qed.

Lemma mat_vec_zero3 (m : mat3) : mat_vec m zero3 = zero3.
Proof.
  destruct m as [[[[? ?] ?] [[? ?] ?]] [[? ?] ?]]. unfold zero3, mzero; cbn. f_equal; [f_equal|]; ring.
Qed.

(** [A.transpose(1,2) @ b] *)
Lemma pinv_apply_linear (inv : mat3) (A : list vec3) (b : list R) :
  pinv_apply (map (mat_vec inv) A) b
  = mat_vec inv (vsum (zip_with (fun a x => vscale x a) A b)).
Proof.
  unfold pinv_apply. revert b. induction A as [|a A IH]; intros [|x b]; simpl;
    try (symmetry; apply mat_vec_zero3).
  unfold vsum in *. simpl. rewrite IH, mat_vec_vadd, mat_vec_vscale. reflexivity.
Qed.

Lemma mat_vec_madd (m n : mat3) (x : vec3) :
  mat_vec (madd m n) x = vadd (mat_vec m x) (mat_vec n x).
Proof.
  destruct m as [[[[? ?] ?] [[? ?] ?]] [[? ?] ?]], n as [[[[? ?] ?] [[? ?] ?]] [[? ?] ?]],
    x as [[? ?] ?].
  unfold zero3, mzero; cbn. f_equal; [f_equal|]; ring.
Qed.

Lemma mat_vec_outer (a x : vec3) : mat_vec (outer a a) x = vscale (inner_product a x) a.
Proof. destruct a as [[? ?] ?], x as [[? ?] ?]. unfold zero3, mzero; cbn. f_equal; [f_equal|]; ring. Qed.

Lemma mat_vec_mzero (x : vec3) : mat_vec mzero x = zero3.
Proof. destruct x as [[? ?] ?]. unfold zero3, mzero; cbn. f_equal; [f_equal|]; ring. Qed.

(** [A^T (A x)] is [(A^T A) x]. *)
Lemma gram_apply (A : list vec3) (x : vec3) :
  vsum (zip_with (fun a y => vscale y a) A (map (fun a => inner_product a x) A))
  = mat_vec (gram A) x.
Proof.
  induction A as [|a A IH]; simpl.
  - symmetry. apply mat_vec_mzero.
  - unfold vsum in *. simpl. rewrite IH, mat_vec_madd, mat_vec_outer. reflexivity.
Qed.

(** The raw solution of a subset solves the regularized normal equations
    [(A^T A + k 1e8 I) x = A^T b] of that subset, where [k] is 1 when the
    subset has at most two valid views and 0 otherwise. *)
Theorem subset_normal_equations
  (p : PointViews) (subset : list nat) (x : vec3)
  (Hsol : solution_subset p subset = Ok x) :
  let A := index_select zero3 (gray_light_intensities p) subset in
  let b := index_select 0 (gray_observations p) subset in
  let k := at_most_two (zip_with Rmult (index_select 0 (shadowing_mask p) subset)
                          (index_select 0 (occlusion_mask p) subset)) in
  mat_vec (madd (gram A) (mscale k eye)) x = vsum (zip_with (fun a y => vscale y a) A b).
Proof.
  cbv zeta. unfold solution_subset, regularized_pinv in Hsol.
  destruct (inverse3 _) as [inv|e] eqn:E; simpl in Hsol; [|discriminate].
  injection Hsol as <-. rewrite pinv_apply_linear. apply inverse3_right. exact E.
Qed.

Lemma subset_normal_equations_witness :
  let A := index_select zero3 (gray_light_intensities Examples.p4) [0; 1; 2; 3]%nat in
  let b := index_select 0 (gray_observations Examples.p4) [0; 1; 2; 3]%nat in
  let k := at_most_two
             (zip_with Rmult (index_select 0 (shadowing_mask Examples.p4) [0; 1; 2; 3]%nat)
                (index_select 0 (occlusion_mask Examples.p4) [0; 1; 2; 3]%nat)) in
  mat_vec (madd (gram A) (mscale k eye)) (5e4, 0, 0)
  = vsum (zip_with (fun a y => vscale y a) A b).
Proof.
  apply (subset_normal_equations Examples.p4 [0; 1; 2; 3]%nat (5e4, 0, 0)).
  exact p4_solution_subset.
Defined.

(** ** Data that follow the Lambertian model exactly *)

Lemma mat_vec_unregularized (G : mat3) (x : vec3) :
  mat_vec (madd G (mscale 0 eye)) x = mat_vec G x.
Proof.
  destruct G as [[[[? ?] ?] [[? ?] ?]] [[? ?] ?]], x as [[? ?] ?].
  unfold eye, eye3; cbn. f_equal; [f_equal|]; ring.
Qed.

Lemma exact_solution (A : list vec3) (x0 : vec3) (inv : mat3) :
  inverse3 (madd (gram A) (mscale 0 eye)) = Ok inv ->
  pinv_apply (map (mat_vec inv) A) (map (fun a => inner_product a x0) A) = x0.
Proof.
  intros H. rewrite pinv_apply_linear, gram_apply, <- (mat_vec_unregularized (gram A) x0).
  apply inverse3_left. exact H.
Qed.

Lemma at_most_two_gt (xs : list R) : 2 < Rsum xs -> at_most_two xs = 0.
Proof. intros H; unfold at_most_two; destruct (Rle_dec (Rsum xs) 2); [lra | reflexivity]. Qed.

Section NoiseFree.

Variable C : nat.
Variable p : PointViews.
Variable x0 : vec3.
Hypothesis Hwf : views_wf C p.
Hypothesis Hfit : forall v,
  nth v (gray_observations p) 0 = inner_product (nth v (gray_light_intensities p) zero3) x0.

Lemma noise_free_subset (s : list nat) (x : vec3) :
  2 < Rsum (zip_with Rmult (index_select 0 (shadowing_mask p) s)
              (index_select 0 (occlusion_mask p) s)) ->
  solution_subset p s = Ok x -> x = x0.
Proof.
  intros Hthree Hsol. unfold solution_subset, regularized_pinv in Hsol.
  rewrite (at_most_two_gt _ Hthree) in Hsol.
  destruct (inverse3 _) as [inv|e] eqn:E; simpl in Hsol; [|discriminate].
  injection Hsol as <-.
  replace (index_select 0 (gray_observations p) s)
    with (map (fun a => inner_product a x0) (index_select zero3 (gray_light_intensities p) s)).
  - apply exact_solution. exact E.
  - unfold index_select. rewrite map_map. apply map_ext. intros k. symmetry. apply Hfit.
Qed.

Lemma noise_free_observations :
  gray_observations p = map (fun a => inner_product a x0) (gray_light_intensities p).
Proof.
  apply (nth_ext _ _ 0 (inner_product zero3 x0)).
  - rewrite length_map, (gray_observations_length C), (gray_light_intensities_length C); auto.
  - intros v _. rewrite (map_nth (fun a => inner_product a x0)). apply Hfit.
Qed.

Lemma noise_free_residuals : Forall (eq 0) (residuals_of p x0).
Proof.
  unfold residuals_of. rewrite noise_free_observations.
  generalize (gray_light_intensities p). clear.
  induction l as [|a l IH]; simpl; constructor; auto. ring.
Qed.

Lemma noise_free_inliers : inliers_of p x0 = valid_mask p.
Proof.
  unfold inliers_of.
  assert (Hlen : length (residuals_of p x0) = length (valid_mask p)).
  { unfold residuals_of.
    rewrite zip_with_length, (gray_light_intensities_length C), (gray_observations_length C),
      (valid_mask_length C); auto. lia. }
  pose proof noise_free_residuals as Hz. revert Hz Hlen.
  generalize (residuals_of p x0) (valid_mask p).
  induction l as [|r rs IH]; intros [|v vs] Hz Hlen; simpl in *; try lia; auto.
  inversion Hz as [|? ? Hr Hrs]; subst.
  rewrite IH by (auto; lia). f_equal.
  rewrite Rabs_R0. unfold threshold.
  destruct (Rlt_dec 0 1e4) as [_|Hn]; [simpl; ring | exfalso; apply Hn; lra].
Qed.

End NoiseFree.

Lemma Rsum_pointwise_eq (xs ys : list R) :
  Forall2 Rle xs ys -> Rsum ys <= Rsum xs -> xs = ys.
Proof.
  induction 1 as [|x y xs ys Hxy Hrest IH]; intros Hsum; auto.
  pose proof (Rsum_le _ _ Hrest) as Hle.
  unfold Rsum in *; simpl in *.
  assert (x = y) by lra. subst y. f_equal. apply IH. lra.
Qed.

Lemma inliers_le_valid (C : nat) (p : PointViews) (sol : vec3) :
  views_wf C p -> Forall2 Rle (inliers_of p sol) (valid_mask p).
Proof.
  intros Hwf. unfold inliers_of.
  assert (Hlen : length (residuals_of p sol) = length (valid_mask p)).
  { unfold residuals_of.
    rewrite zip_with_length, (gray_light_intensities_length C), (gray_observations_length C),
      (valid_mask_length C); auto. lia. }
  pose proof (flags_nonneg _ (valid_mask_flags p)) as Hv. revert Hv Hlen.
  generalize (residuals_of p sol) (valid_mask p).
  induction l as [|r rs IH]; intros [|v vs] Hv Hlen; simpl in *; try lia; constructor.
  - inversion Hv; subst. destruct (Rlt_dec (Rabs r) threshold); simpl; lra.
  - inversion Hv; subst. apply IH; auto.
Qed.

Lemma flags_idempotent (vs : list R) : Forall is_flag vs -> zip_with Rmult vs vs = vs.
Proof.
  induction 1 as [|v vs Hv Hvs IH]; simpl; auto.
  rewrite IH. f_equal. destruct Hv as [-> | ->]; ring.
Qed.

Lemma masked_twice_vec {A} (f : A -> R -> vec3) (ls : list A) (vs : list R) :
  (forall l v, is_flag v -> vscale v (f l v) = f l v) ->
  Forall is_flag vs ->
  zip_with (fun l b => vscale b l) (zip_with f ls vs) vs = zip_with f ls vs.
Proof.
  intros Hf Hv. revert ls. induction Hv as [|v vs Hv Hvs IH]; intros [|l ls]; simpl; auto.
  rewrite IH, Hf by auto. reflexivity.
Qed.

Lemma masked_twice {A} (f : A -> R -> R) (ls : list A) (vs : list R) :
  (forall l v, is_flag v -> f l v * v = f l v) ->
  Forall is_flag vs ->
  zip_with Rmult (zip_with f ls vs) vs = zip_with f ls vs.
Proof.
  intros Hf Hv. revert ls. induction Hv as [|v vs Hv Hvs IH]; intros [|l ls]; simpl; auto.
  rewrite IH, Hf by auto. reflexivity.
Qed.

Lemma gray_light_intensities_masked (p : PointViews) :
  zip_with (fun l b => vscale b l) (gray_light_intensities p) (valid_mask p)
  = gray_light_intensities p.
Proof.
  unfold gray_light_intensities. apply masked_twice_vec; [|apply valid_mask_flags].
  intros [[l0 l1] l2] v Hv. destruct (vscale (/ 3) (vadd (vadd l0 l1) l2)) as [[a b] c].
  destruct Hv as [-> | ->]; simpl; f_equal; [f_equal| |f_equal|]; ring.
Qed.

Lemma gray_observations_masked (p : PointViews) :
  zip_with Rmult (gray_observations p) (valid_mask p) = gray_observations p.
Proof.
  unfold gray_observations. apply masked_twice; [|apply valid_mask_flags].
  intros [[o0 o1] o2] v [-> | ->]; ring.
Qed.

Lemma refit_normal (p : PointViews) (best : list R) (r : PointResult) :
  refit p best = Ok r -> inlier_normals p best = Ok (normal r) /\ inliers r = best.
Proof.
  unfold refit. destruct (inlier_normals p best) as [n|e]; simpl; [|discriminate].
  destruct (c_albedo p best n 0) as [a0|e]; simpl; [|discriminate].
  destruct (c_albedo p best n 1) as [a1|e]; simpl; [|discriminate].
  destruct (c_albedo p best n 2) as [a2|e]; simpl; [|discriminate].
  intros H; injection H as <-. simpl. auto.
Qed.

(** When the gray observations of a point follow the Lambertian model
    exactly for some vector [x0], and one of the drawn subsets has more than
    two valid views, the solver returns every valid view as an inlier and
    the direction of [x0] as the normal. *)
Theorem noise_free_point_recovered
  (C : nat) (p : PointViews) (x0 : vec3) (subsets : list (list nat)) (s : list nat)
  (r : PointResult)
  (Hwf : views_wf C p)
  (Hfit : forall v,
     nth v (gray_observations p) 0
     = inner_product (nth v (gray_light_intensities p) zero3) x0)
  (Hin : In s subsets)
  (Hnd : NoDup s)
  (Hthree : 2 < Rsum (zip_with Rmult (index_select 0 (shadowing_mask p) s)
                        (index_select 0 (occlusion_mask p) s)))
  (Hsolve : solve_point subsets p = Ok r) :
  inliers r = valid_mask p /\ normal r = normalize x0.
Proof.
  unfold solve_point in Hsolve.
  replace (length (observations p)) with C in Hsolve by (symmetry; apply Hwf).
  destruct (ransac_loop p (ransac_init C) subsets) as [st|e] eqn:Hloop; simpl in Hsolve;
    [|discriminate].
  assert (Hbest : best_inliers st = valid_mask p).
  { assert (Hs : exists sol sol',
               best_inliers st = inliers_of p sol /\
               solution_subset p s = Ok sol' /\
               Rsum (inliers_of p sol') <= Rsum (inliers_of p sol)).
    { destruct (ransac_loop_keeps_best C p subsets Hwf (ransac_init C) st)
        as [[_ Hall]|(pre & sb & post & sol & -> & Hsol & _ & -> & Hpre & Hpost)];
        [simpl; apply repeat_length | exact Hloop | |].
      - exfalso. destruct (Hall s Hin) as (sol' & _ & Hle).
        pose proof (Rsum_nonneg _ (flags_nonneg _ (inliers_of_flags p sol'))).
        simpl in Hle. lra.
      - exists sol. simpl.
        apply in_app_or in Hin as [Hin|[<-|Hin]].
        + destruct (Hpre s Hin) as (sol' & Hs' & Hlt). exists sol'. repeat split; auto. lra.
        + exists sol. repeat split; auto. lra.
        + destruct (Hpost s Hin) as (sol' & Hs' & Hle). exists sol'. repeat split; auto. }
    destruct Hs as (sol & sol' & -> & Hs' & Hle).
    apply (noise_free_subset p x0 Hfit s sol' Hthree) in Hs'. subst sol'.
    rewrite (noise_free_inliers C p x0 Hwf Hfit) in Hle.
    apply Rsum_pointwise_eq; auto. apply (inliers_le_valid C); auto. }
  rewrite Hbest in Hsolve.
  apply refit_normal in Hsolve as [Hn Hi]. split; [exact Hi|].
  unfold inlier_normals, inlier_invalids, regularized_pinv in Hn.
  rewrite (flags_idempotent _ (valid_mask_flags p)) in Hn.
  rewrite at_most_two_gt in Hn by (pose proof (valid_subset_le p s Hnd); lra).
  rewrite gray_light_intensities_masked, gray_observations_masked in Hn.
  destruct (inverse3 _) as [inv|e] eqn:E; simpl in Hn; [|discriminate].
  injection Hn as <-. f_equal.
  rewrite (noise_free_observations C p x0 Hwf Hfit).
  apply exact_solution. exact E.
Qed.

Lemma p3_wf : views_wf 3 Examples.p3.
Proof. repeat split. Qed.

Lemma p3_valid_subset :
  zip_with Rmult (index_select 0 (shadowing_mask Examples.p3) [0; 1; 2]%nat)
    (index_select 0 (occlusion_mask Examples.p3) [0; 1; 2]%nat) = [1; 1; 1].
Proof.
  cbv [index_select shadowing_mask occlusion_mask Examples.p3 shadows occlusions map nth
       zip_with negb to_float]; reals_eq.
Qed.

Lemma p3_solution_subset : solution_subset Examples.p3 [0; 1; 2]%nat = Ok (0, 0, 1).
Proof.
  unfold solution_subset, regularized_pinv.
  rewrite p3_gray_light_intensities, p3_gray_observations, p3_valid_subset.
  replace (at_most_two [1; 1; 1]) with 0
    by (cbv [at_most_two Rsum fold_right]; run_reals; reflexivity).
  replace (madd (gram (index_select zero3 [(1, 0, 0); (0, 1, 0); (0, 0, 1)]
                         [0; 1; 2]%nat)) (mscale 0 eye))
    with ((1, 0, 0), (0, 1, 0), (0, 0, 1))
    by (cbv [index_select map nth gram fold_right madd mscale outer eye eye3 mzero zero3
             vadd vscale]; reals_eq).
  rewrite inverse3_diag by lra.
  cbv [bind index_select map nth mat_vec inner_product pinv_apply zip_with vsum fold_right
       vadd vscale zero3].
  reals_eq.
Qed.

Lemma p3_inliers_of : inliers_of Examples.p3 (0, 0, 1) = [1; 1; 1].
Proof.
  unfold inliers_of, residuals_of.
  rewrite p3_gray_light_intensities, p3_gray_observations, p3_valid_mask.
  cbv [zip_with inner_product threshold to_float].
  run_reals. reals_eq.
Qed.

Lemma p3_solve_point :
  solve_point [[0; 1; 2]%nat] Examples.p3
  = Ok {| normal := (0, 0, 1);
          albedos := (PI * 1, PI * 1, PI * 1);
          inliers := [1; 1; 1];
          residuals := [(0, 0, 0); (0, 0, 0); (0, 0, 0)] |}.
Proof.
  unfold solve_point, ransac_loop, ransac_step.
  rewrite p3_solution_subset. cbv [bind]. rewrite p3_inliers_of.
  rewrite ransac_update_better.
  - cbv [best_inliers]. apply p3_refit.
  - reflexivity.
  - cbv [Rsum fold_right ransac_init best_inlier_counts]. lra.
Qed.

Lemma noise_free_point_recovered_witness :
  [1; 1; 1] = valid_mask Examples.p3 /\ (0, 0, 1) = normalize (0, 0, 1).
Proof.
  apply (noise_free_point_recovered 3 Examples.p3 (0, 0, 1) [[0; 1; 2]%nat] [0; 1; 2]%nat
           {| normal := (0, 0, 1);
              albedos := (PI * 1, PI * 1, PI * 1);
              inliers := [1; 1; 1];
              residuals := [(0, 0, 0); (0, 0, 0); (0, 0, 0)] |} p3_wf).
  - intros v. rewrite p3_gray_observations, p3_gray_light_intensities.
    destruct v as [|[|[|[|v]]]]; simpl; ring.
  - left; reflexivity.
  - repeat constructor; simpl; intuition lia.
  - rewrite p3_valid_subset. cbv [Rsum fold_right]. lra.
  - exact p3_solve_point.
Defined.

(** ** The residuals of the refit *)

Lemma inlier_mask_length (C : nat) (p : PointViews) (best : list R) :
  views_wf C p -> length best = C -> length (inlier_mask p best) = C.
Proof.
  intros Hwf Hb. unfold inlier_mask. rewrite zip_with_length, Hb, (valid_mask_length C); auto.
  lia.
Qed.

Lemma c_light_intensities_length (C : nat) (p : PointViews) (best : list R) (n : vec3)
  (c : nat) :
  views_wf C p -> length best = C -> length (c_light_intensities p best n c) = C.
Proof.
  intros Hwf Hb. unfold c_light_intensities.
  rewrite zip_with_length, (incident_light_length C), (inlier_mask_length C); auto. lia.
Qed.

Lemma c_observations_length (C : nat) (p : PointViews) (best : list R) (c : nat) :
  views_wf C p -> length best = C -> length (c_observations p best c) = C.
Proof.
  intros Hwf Hb. unfold c_observations.
  rewrite zip_with_length, (inlier_mask_length C); auto.
  destruct Hwf as (_ & _ & _ & -> & _). lia.
Qed.

Lemma c_residuals_views (C : nat) (p : PointViews) (best : list R) (n : vec3) (c : nat)
  (coef : R) :
  views_wf C p -> length best = C -> length (c_residuals p best n c coef) = C.
Proof.
  intros Hwf Hb. unfold c_residuals.
  rewrite zip_with_length, (c_light_intensities_length C), (c_observations_length C); auto.
  lia.
Qed.

Lemma c_residuals_masked (C : nat) (p : PointViews) (best : list R) (n : vec3) (c : nat)
  (coef : R) (v : nat) :
  views_wf C p -> length best = C ->
  nth v best 0 = 0 -> nth v (c_residuals p best n c coef) 0 = 0.
Proof.
  intros Hwf Hb Hv. destruct (Nat.lt_ge_cases v C) as [Hlt|Hge].
  - assert (Hm : nth v (inlier_mask p best) 0 = 0).
    { unfold inlier_mask. rewrite nth_zip_with_Rmult, Hv. ring. }
    unfold c_residuals.
    rewrite (zip_with_nth _ 0 0 0)
      by (rewrite ?(c_light_intensities_length C), ?(c_observations_length C); auto).
    unfold c_light_intensities, c_observations.
    rewrite (zip_with_nth _ (zero3, zero3, zero3) 0 0)
      by (rewrite ?(incident_light_length C), ?(inlier_mask_length C); auto).
    rewrite (zip_with_nth _ zero3 0 0)
      by (rewrite ?(inlier_mask_length C); auto; destruct Hwf as (_ & _ & _ & -> & _); auto).
    rewrite Hm. ring.
  - apply nth_overflow. rewrite (c_residuals_views C); auto.
Qed.

Lemma zip3_length (a b c : list R) :
  length a = length b -> length b = length c -> length (zip3 a b c) = length a.
Proof.
  revert b c; induction a as [|x a IH]; intros [|y b] [|z c]; simpl; intros H1 H2;
    try lia; auto.
Qed.

Lemma zip3_nth (a b c : list R) (v : nat) :
  length a = length b -> length b = length c ->
  nth v (zip3 a b c) zero3 = (nth v a 0, nth v b 0, nth v c 0).
Proof.
  revert b c v; induction a as [|x a IH]; intros [|y b] [|z c] [|v]; simpl; intros H1 H2;
    try lia; auto.
Qed.

Lemma refit_residuals (C : nat) (p : PointViews) (best : list R) (r : PointResult) :
  views_wf C p -> length best = C -> refit p best = Ok r ->
  length (residuals r) = C /\
  forall v, nth v best 0 = 0 -> nth v (residuals r) zero3 = zero3.
Proof.
  intros Hwf Hb. unfold refit.
  destruct (inlier_normals p best) as [n|e]; simpl; [|discriminate].
  destruct (c_albedo p best n 0) as [a0|e]; simpl; [|discriminate].
  destruct (c_albedo p best n 1) as [a1|e]; simpl; [|discriminate].
  destruct (c_albedo p best n 2) as [a2|e]; simpl; [|discriminate].
  intros H; injection H as <-. simpl.
  assert (L0 := c_residuals_views C p best n 0 a0 Hwf Hb).
  assert (L1 := c_residuals_views C p best n 1 a1 Hwf Hb).
  assert (L2 := c_residuals_views C p best n 2 a2 Hwf Hb).
  split.
  - rewrite zip3_length; congruence.
  - intros v Hv. rewrite zip3_nth by congruence.
    rewrite !(c_residuals_masked C) by auto. reflexivity.
Qed.

(** The solver returns one residual per view, and the residual of a view
    that is not an inlier is zero in every colour channel. *)
Theorem residuals_vanish_outside_inliers
  (C : nat) (p : PointViews) (subsets : list (list nat)) (r : PointResult)
  (Hwf : views_wf C p)
  (Hsolve : solve_point subsets p = Ok r) :
  length (residuals r) = C /\
  forall v, nth v (inliers r) 0 = 0 -> nth v (residuals r) zero3 = zero3.
Proof.
  unfold solve_point in Hsolve.
  replace (length (observations p)) with C in Hsolve by (symmetry; apply Hwf).
  destruct (ransac_loop p (ransac_init C) subsets) as [st|e] eqn:Hloop; simpl in Hsolve;
    [|discriminate].
  assert (Hb : length (best_inliers st) = C).
  { apply (ransac_loop_length C p subsets Hwf (ransac_init C)); auto.
    simpl. apply repeat_length. }
  destruct (refit_normal _ _ _ Hsolve) as [_ ->].
  apply (refit_residuals C p); auto.
Qed.

Lemma residuals_vanish_outside_inliers_witness :
  length [(0, 0, 0); (0, 0, 0); (0, 0, 0)] = 3%nat /\
  forall v, nth v [1; 1; 1] 0 = 0 ->
            nth v [(0, 0, 0); (0, 0, 0); (0, 0, 0)] zero3 = zero3.
Proof.
  apply (residuals_vanish_outside_inliers 3 Examples.p3 [[0; 1; 2]%nat]
           {| normal := (0, 0, 1);
              albedos := (PI * 1, PI * 1, PI * 1);
              inliers := [1; 1; 1];
              residuals := [(0, 0, 0); (0, 0, 0); (0, 0, 0)] |} p3_wf).
  exact p3_solve_point.
Defined.

(** ** A point without valid views *)

Lemma zip_with_repeat_r {A B D} (f : A -> B -> D) (y : B) (d : D) (xs : list A) (n : nat) :
  length xs = n -> (forall x, f x y = d) -> zip_with f xs (repeat y n) = repeat d n.
Proof.
  intros Hlen Hf. subst n. induction xs as [|x xs IH]; simpl; auto. now rewrite IH, Hf.
Qed.

Lemma zip_with_repeat_l {A B D} (f : A -> B -> D) (x : A) (d : D) (ys : list B) (n : nat) :
  length ys = n -> (forall y, f x y = d) -> zip_with f (repeat x n) ys = repeat d n.
Proof.
  intros Hlen Hf. subst n. induction ys as [|y ys IH]; simpl; auto. now rewrite IH, Hf.
Qed.

Lemma pinv_apply_zeros (P : list vec3) (b : list R) :
  Forall (eq 0) b -> pinv_apply P b = zero3.
Proof.
  unfold pinv_apply. intros Hb. revert P.
  induction Hb as [|x b <- Hb IH]; intros [|col P]; simpl; auto.
  unfold vsum in *. simpl. rewrite IH. destruct col as [[c0 c1] c2].
  unfold zero3; simpl. f_equal; [f_equal|]; ring.
Qed.

Lemma Forall_repeat {A} (P : A -> Prop) (x : A) (n : nat) : P x -> Forall P (repeat x n).
Proof. intros H. induction n; simpl; constructor; auto. Qed.

Lemma Rsum_repeat_zero (n : nat) : Rsum (repeat 0 n) = 0.
Proof. induction n; unfold Rsum in *; simpl; [reflexivity | rewrite IHn; ring]. Qed.

Lemma zip3_repeat (n : nat) : zip3 (repeat 0 n) (repeat 0 n) (repeat 0 n) = repeat zero3 n.
Proof. induction n; simpl; [reflexivity | now rewrite IHn]. Qed.

Lemma blend_zeros (beta : R) (n : nat) :
  zip_with (fun b i => b * (1 - beta) + i * beta) (repeat 0 n) (repeat 0 n) = repeat 0 n.
Proof. induction n as [|n IH]; simpl; auto. rewrite IH. f_equal. ring. Qed.

Lemma squares_repeat_zero (n : nat) : map (fun x => x * x) (repeat 0 n) = repeat 0 n.
Proof. induction n as [|n IH]; simpl; [reflexivity | rewrite IH; f_equal; ring]. Qed.

Section NoValidViews.

Variable C : nat.
Variable p : PointViews.
Hypothesis Hwf : views_wf C p.
Hypothesis Hnone : forall v, (v < C)%nat ->
  nth v (shadows p) false = true \/ nth v (occlusions p) false = true.

Lemma no_valid_mask : valid_mask p = repeat 0 C.
Proof.
  apply (nth_ext _ _ 0 0).
  - rewrite repeat_length. apply valid_mask_length, Hwf.
  - intros v Hv. rewrite (valid_mask_length C p Hwf) in Hv. rewrite nth_repeat.
    destruct Hwf as (_ & _ & Hs & _ & Ho).
    unfold valid_mask. rewrite nth_zip_with_Rmult.
    unfold shadowing_mask, occlusion_mask.
    rewrite (nth_indep _ 0 (to_float (negb false))) by (rewrite length_map; lia).
    rewrite (map_nth (fun s => to_float (negb s))).
    rewrite (nth_indep (map _ (occlusions p)) 0 (to_float (negb false)))
      by (rewrite length_map; lia).
    rewrite (map_nth (fun s => to_float (negb s))).
    destruct (Hnone v Hv) as [-> | ->]; simpl; ring.
Qed.

Lemma no_valid_gray_observations : gray_observations p = repeat 0 C.
Proof.
  unfold gray_observations. rewrite no_valid_mask.
  apply zip_with_repeat_r; [apply Hwf|]. intros [[o0 o1] o2]. ring.
Qed.

Lemma no_valid_inliers_of (sol : vec3) : inliers_of p sol = repeat 0 C.
Proof.
  unfold inliers_of. rewrite no_valid_mask. apply zip_with_repeat_r.
  - unfold residuals_of.
    rewrite zip_with_length, (gray_light_intensities_length C), (gray_observations_length C);
      auto. lia.
  - intros r. ring.
Qed.

Lemma no_valid_update (st : RansacState) :
  best_inliers st = repeat 0 C ->
  best_inliers (ransac_update st (repeat 0 C)) = repeat 0 C.
Proof.
  intros E. unfold ransac_update; simpl. rewrite E. apply blend_zeros.
Qed.

Lemma no_valid_loop (subsets : list (list nat)) :
  forall st, best_inliers st = repeat 0 C ->
    exists st', ransac_loop p st subsets = Ok st' /\ best_inliers st' = repeat 0 C.
Proof.
  induction subsets as [|s subsets IH]; simpl; intros st Hst.
  - exists st. auto.
  - unfold ransac_step.
    destruct (solution_subset_degenerate p s) as (inv & _ & ->).
    { rewrite valid_subset_select, no_valid_mask.
      replace (map (fun k => nth k (repeat 0 C) 0) s) with (repeat 0 (length s)).
      - rewrite Rsum_repeat_zero. lra.
      - induction s as [|k s IHs]; simpl; auto. now rewrite nth_repeat, <- IHs. }
    simpl. rewrite no_valid_inliers_of. apply IH, no_valid_update, Hst.
Qed.

Lemma no_valid_inlier_mask : inlier_mask p (repeat 0 C) = repeat 0 C.
Proof.
  unfold inlier_mask. apply zip_with_repeat_l; [apply valid_mask_length, Hwf|].
  intros y. ring.
Qed.

Lemma no_valid_c_light_intensities (n : vec3) (c : nat) :
  c_light_intensities p (repeat 0 C) n c = repeat 0 C.
Proof.
  unfold c_light_intensities. rewrite no_valid_inlier_mask.
  apply zip_with_repeat_r; [apply incident_light_length, Hwf|]. intros l. ring.
Qed.

Lemma no_valid_c_observations (c : nat) : c_observations p (repeat 0 C) c = repeat 0 C.
Proof.
  unfold c_observations. rewrite no_valid_inlier_mask.
  apply zip_with_repeat_r; [apply Hwf|]. intros o. ring.
Qed.

Lemma no_valid_inlier_invalids : inlier_invalids p (repeat 0 C) = 1.
Proof.
  unfold inlier_invalids. apply at_most_two_le.
  rewrite no_valid_mask.
  rewrite (zip_with_repeat_r Rmult 0 0) by (try apply repeat_length; intros; ring).
  rewrite Rsum_repeat_zero. lra.
Qed.

Lemma no_valid_c_albedo (n : vec3) (c : nat) : c_albedo p (repeat 0 C) n c = Ok 0.
Proof.
  unfold c_albedo, inverse1.
  rewrite no_valid_inlier_invalids, no_valid_c_light_intensities, no_valid_c_observations.
  rewrite squares_repeat_zero, Rsum_repeat_zero.
  destruct (Req_EM_T (0 + 1) 0) as [E|E]; [lra|]. simpl. f_equal.
  rewrite (zip_with_repeat_r Rmult 0 0) by (try (rewrite length_map; apply repeat_length);
                                            intros; ring).
  apply Rsum_repeat_zero.
Qed.

Lemma no_valid_c_residuals (n : vec3) (c : nat) :
  c_residuals p (repeat 0 C) n c 0 = repeat 0 C.
Proof.
  unfold c_residuals. rewrite no_valid_c_light_intensities, no_valid_c_observations.
  apply zip_with_repeat_r; [apply repeat_length|]. intros l. ring.
Qed.

Lemma no_valid_inlier_normals : inlier_normals p (repeat 0 C) = Ok zero3.
Proof.
  destruct (inlier_normals_degenerate p (repeat 0 C)) as (inv & _ & ->).
  - rewrite no_valid_mask.
    rewrite (zip_with_repeat_r Rmult 0 0) by (try apply repeat_length; intros; ring).
    rewrite Rsum_repeat_zero. lra.
  - f_equal. rewrite pinv_apply_zeros; [apply normalize_zero, norm_zero3|].
    rewrite no_valid_gray_observations.
    rewrite (zip_with_repeat_r Rmult 0 0) by (try apply repeat_length; intros; ring).
    apply Forall_repeat. reflexivity.
Qed.

Lemma no_valid_refit :
  refit p (repeat 0 C)
  = Ok {| normal := zero3; albedos := (PI * 0, PI * 0, PI * 0);
          inliers := repeat 0 C; residuals := repeat zero3 C |}.
Proof.
  unfold refit. rewrite no_valid_inlier_normals. simpl.
  rewrite !no_valid_c_albedo. simpl.
  rewrite !no_valid_c_residuals, zip3_repeat. reflexivity.
Qed.

End NoValidViews.

Lemma no_valid_solve_point (C : nat) (p : PointViews) (subsets : list (list nat)) :
  views_wf C p ->
  (forall v, (v < C)%nat ->
     nth v (shadows p) false = true \/ nth v (occlusions p) false = true) ->
  solve_point subsets p
  = Ok {| normal := zero3; albedos := (PI * 0, PI * 0, PI * 0);
          inliers := repeat 0 C; residuals := repeat zero3 C |}.
Proof.
  intros Hwf Hnone. unfold solve_point.
  replace (length (observations p)) with C by (symmetry; apply Hwf).
  destruct (no_valid_loop C p Hwf Hnone subsets (ransac_init C) eq_refl) as (st & -> & E).
  simpl. rewrite E. apply no_valid_refit; auto.
Qed.

(** A point that is shadowed or occluded in every view never makes the
    solver fail, whatever subsets are drawn: it gets the zero vector as
    normal, zero albedo, no inliers and zero residuals. *)
Theorem point_without_valid_views
  (C : nat) (p : PointViews) (subsets : list (list nat))
  (Hwf : views_wf C p)
  (Hnone : forall v, (v < C)%nat ->
     nth v (shadows p) false = true \/ nth v (occlusions p) false = true) :
  exists r,
    solve_point subsets p = Ok r /\
    normal r = zero3 /\ albedos r = zero3 /\
    inliers r = repeat 0 C /\ residuals r = repeat zero3 C.
Proof.
  rewrite (no_valid_solve_point C p subsets Hwf Hnone).
  eexists. split; [reflexivity|]. simpl. repeat split.
  unfold zero3. f_equal; [f_equal|]; ring.
Qed.

Lemma p_dark_wf : views_wf 2 Examples.p_dark.
Proof. repeat split. Qed.

Lemma p_dark_no_valid_view (v : nat) :
  (v < 2)%nat ->
  nth v (shadows Examples.p_dark) false = true \/
  nth v (occlusions Examples.p_dark) false = true.
Proof. intros Hv. destruct v as [|[|v]]; simpl; auto. lia. Qed.

Lemma point_without_valid_views_witness :
  exists r,
    solve_point [[0; 1]%nat; [1; 0]%nat] Examples.p_dark = Ok r /\
    normal r = zero3 /\ albedos r = zero3 /\
    inliers r = repeat 0 2 /\ residuals r = repeat zero3 2.
Proof.
  apply (point_without_valid_views 2 Examples.p_dark [[0; 1]%nat; [1; 0]%nat]
           p_dark_wf p_dark_no_valid_view).
Defined.

(** ** The shapes of the assembled tensors and of the results *)

Import Locations LocationFacts.

Lemma shape_transpose {A} (c n : nat) (t : list (list A)) :
  shape c n t -> shape n c (transpose n t).
Proof.
  intros [Hlen Hrows]. subst c. induction Hrows as [|row t Hrow Hrows IH]; simpl.
  - split; [apply repeat_length | apply Forall_repeat; reflexivity].
  - destruct IH as [IHl IHr]. split.
    + rewrite zip_with_length, IHl, Hrow. lia.
    + revert IHr. generalize (transpose n t). clear.
      intros u Hu. revert row. induction Hu as [|r u Hr Hu IH]; intros [|x row]; simpl;
        constructor; simpl; auto.
Qed.

Lemma shape_cat_dim1 {A} (n : nat) (ts : list (list (list A))) (cs : list nat) :
  Forall2 (fun t c => shape n c t) ts cs -> shape n (list_sum cs) (cat_dim1 n ts).
Proof.
  induction 1 as [|t c ts cs [Hl Hr] Hrest [IHl IHr]]; simpl.
  - split; [apply repeat_length | apply Forall_repeat; reflexivity].
  - split.
    + rewrite zip_with_length, Hl, IHl. lia.
    + revert IHr Hr. generalize (cat_dim1 n ts) (list_sum cs). clear.
      intros u k Hu Ht. revert u Hu.
      induction Ht as [|r t Hr Ht IH]; intros [|r' u] Hu; simpl; constructor.
      * inversion Hu; subst. rewrite length_app. lia.
      * inversion Hu; subst. apply IH; auto.
Qed.

Lemma shape_marked (sentinel : R) (c n : nat) (b : Batch) :
  shape c n (batch_occlusions b) -> shape c n (batch_observations b) ->
  shape c n (batch_occlusions_marked sentinel b).
Proof. intros Ho Hb. unfold batch_occlusions_marked. apply (shape_gmap2 _ c n); auto. Qed.

Lemma zip_points_wf (n C : nat) (li ld : list (list vec3)) (sh : list (list bool))
  (ob : list (list vec3)) (oc : list (list bool)) :
  shape n C li -> shape n C ld -> shape n C sh -> shape n C ob -> shape n C oc ->
  length (zip_points li ld sh ob oc) = n /\ Forall (views_wf C) (zip_points li ld sh ob oc).
Proof.
  revert li ld sh ob oc. induction n as [|n IH];
    intros [|a li] [|b ld] [|c sh] [|d ob] [|e oc] [L1 R1] [L2 R2] [L3 R3] [L4 R4] [L5 R5];
    simpl in *; try lia; auto.
  inversion R1; inversion R2; inversion R3; inversion R4; inversion R5; subst.
  destruct (IH li ld sh ob oc) as [IHl IHw]; try (split; [lia | assumption]).
  split; [lia|]. constructor; auto. repeat split; assumption.
Qed.

Lemma Forall2_map_l {A B D} (P : B -> D -> Prop) (f : A -> B) (g : A -> D) (l : list A) :
  Forall (fun x => P (f x) (g x)) l -> Forall2 P (map f l) (map g l).
Proof. induction 1; simpl; constructor; auto. Qed.

Lemma assemble_wf (sentinel : R) (n : nat) (batches : list Batch) :
  Forall (fun b =>
            let Cb := length (batch_observations b) in
            shape Cb n (batch_light_intensities b) /\
            shape Cb n (batch_light_directions b) /\
            shape Cb n (batch_shadows b) /\
            shape Cb n (batch_observations b) /\
            shape Cb n (batch_occlusions b)) batches ->
  let C := list_sum (map (fun b => length (batch_observations b)) batches) in
  length (assemble sentinel n batches) = n /\
  Forall (views_wf C) (assemble sentinel n batches).
Proof.
  intros H. cbv zeta. unfold assemble.
  apply zip_points_wf; apply shape_cat_dim1, Forall2_map_l;
    (eapply Forall_impl; [|exact H]); cbv zeta; intros b (H1 & H2 & H3 & H4 & H5);
    apply shape_transpose; auto.
  apply shape_marked; auto.
Qed.

Lemma solve_point_inliers (C : nat) (p : PointViews) (subsets : list (list nat))
  (r : PointResult) :
  views_wf C p -> solve_point subsets p = Ok r ->
  length (inliers r) = C /\ Forall is_flag (inliers r).
Proof.
  intros Hwf Hsolve. unfold solve_point in Hsolve.
  replace (length (observations p)) with C in Hsolve by (symmetry; apply Hwf).
  destruct (ransac_loop p (ransac_init C) subsets) as [st|e] eqn:Hloop; simpl in Hsolve;
    [|discriminate].
  destruct (refit_normal _ _ _ Hsolve) as [_ ->].
  destruct (ransac_loop_invariant C p subsets Hwf (ransac_init C) st) as [Hlen Hinv];
    [simpl; apply repeat_length | left; simpl; auto | exact Hloop |].
  split; [exact Hlen|].
  destruct Hinv as [[-> _]|(sol & -> & _)];
    [apply repeat_zero_flags | apply inliers_of_flags].
Qed.

(** For batches of [Cb] views of [n] points each, the solver, when it
    returns, returns one result per point, and every result has one 0/1
    inlier flag and one residual per view of all batches together. *)
Theorem solution_shapes
  (sentinel : R) (n : nat) (draw : nat -> list nat) (batches : list Batch)
  (results : list PointResult)
  (Hshapes : Forall (fun b =>
     let Cb := length (batch_observations b) in
     shape Cb n (batch_light_intensities b) /\
     shape Cb n (batch_light_directions b) /\
     shape Cb n (batch_shadows b) /\
     shape Cb n (batch_observations b) /\
     shape Cb n (batch_occlusions b)) batches)
  (Hsol : closed_form_lambertian_solution sentinel n draw batches = Ok results) :
  let C := list_sum (map (fun b => length (batch_observations b)) batches) in
  length results = n /\
  Forall (fun r => length (inliers r) = C /\ Forall is_flag (inliers r) /\
                   length (residuals r) = C) results.
Proof.
  cbv zeta. destruct (assemble_wf sentinel n batches Hshapes) as [Hn Hwf].
  apply closed_form_lambertian_solution_points in Hsol as [_ Hall]. cbv zeta in *.
  revert Hn Hwf Hall. generalize (assemble sentinel n batches).
  intros ps Hn Hwf Hall. split.
  - rewrite <- (Forall2_length Hall). exact Hn.
  - clear Hn. induction Hall as [|p r ps rs Hp Hrest IH]; constructor.
    + inversion Hwf as [|? ? Hw _]; subst.
      destruct (solve_point_inliers _ _ _ _ Hw Hp) as [Hl Hf].
      repeat split; auto.
      unfold solve_point in Hp.
      destruct (ransac_loop _ _ _) as [st|e] eqn:Hloop; simpl in Hp; [|discriminate].
      apply (refit_residuals _ p (best_inliers st)); auto.
      destruct (refit_normal _ _ _ Hp) as [_ <-]. exact Hl.
    + inversion Hwf; subst. apply IH; auto.
Qed.

Lemma b_dark_solution :
  closed_form_lambertian_solution (-1) 1 (fun _ => [0; 1]%nat) [Examples.b_dark]
  = Ok [{| normal := zero3; albedos := (PI * 0, PI * 0, PI * 0);
           inliers := [0; 0]; residuals := [zero3; zero3] |}].
Proof.
  unfold closed_form_lambertian_solution.
  cbv [Examples.b_dark map batch_observations length list_sum fold_right Nat.add].
  rewrite ransac_iterations_few_views by lia.
  cbv [assemble map batch_light_intensities batch_light_directions batch_shadows
       batch_observations batch_occlusions batch_occlusions_marked transpose cat_dim1
       repeat zip_with zip_points app seq mapM].
  rewrite (no_valid_solve_point 2).
  - reflexivity.
  - repeat split.
  - intros v Hv. destruct v as [|[|v]]; [left; reflexivity | right; reflexivity | lia].
Qed.

Lemma solution_shapes_witness :
  length [{| normal := zero3; albedos := (PI * 0, PI * 0, PI * 0);
             inliers := [0; 0]; residuals := [zero3; zero3] |}] = 1%nat /\
  Forall (fun r => length (inliers r) = 2%nat /\ Forall is_flag (inliers r) /\
                   length (residuals r) = 2%nat)
    [{| normal := zero3; albedos := (PI * 0, PI * 0, PI * 0);
        inliers := [0; 0]; residuals := [zero3; zero3] |}].
Proof.
  apply (solution_shapes (-1) 1 (fun _ => [0; 1]%nat) [Examples.b_dark]).
  - repeat constructor.
  - exact b_dark_solution.
Defined.

End ClosedFormMore.

(** * More about parametrizations/locations.py *)

Module LocationMore.
Import Locations LocationFacts.

(** ** Images from vectors and back *)

(** Scattering the vector gathered from an image of the mask's shape keeps
    the image under the mask and leaves the blank pixel everywhere else;
    the vector has one entry per point. *)
Theorem create_image_of_create_vector {A : Type} (blank : A)
  (depth0 : grid R) (mask0 : list R) (invK0 : mat3) (invRt0 : Pose)
  (self : DepthMapParametrization) (image : grid A)
  (Hinit : initialize depth0 mask0 invK0 invRt0 = Ok self)
  (Himage : shape (height depth0) (width depth0) image) :
  exists measurements image',
    create_vector self image = Ok measurements /\
    length measurements = get_point_count self /\
    create_image blank self measurements = Ok image' /\
    shape (height depth0) (width depth0) image' /\
    forall i j, (i < height depth0)%nat -> (j < width depth0)%nat ->
      get blank image' i j = if get false (mask self) i j then get blank image i j else blank.
Proof.
  pose proof (initialized_mask_shape _ _ _ _ _ Hinit) as Hm.
  pose proof (blank_image_shape _ _ _ _ _ Hinit blank) as Hb.
  exists (concat (zip_with select_row (mask self) image)).
  exists (gwhere (mask self) image (map (fun row => map (fun _ => blank) row) (mask self))).
  split; [apply (initialized_create_vector _ _ _ _ _ Hinit); exact Himage|].
  split.
  { rewrite (initialized_point_count _ _ _ _ _ Hinit).
    apply (select_grid_length _ _ _ _ Hm Himage). }
  split; [unfold create_image; apply (masked_assign_select _ _ _ _ _ Hm Hb Himage)|].
  split.
  { unfold gwhere. auto with shapes. }
  intros i j Hi Hj.
  rewrite (get_gwhere blank _ _ _ _ _ i j Hm Himage Hb Hi Hj).
  destruct (get false (mask self) i j); [reflexivity|].
  change (map (fun row => map (fun _ : bool => blank) row) (mask self))
    with (gmap (fun _ : bool => blank) (mask self)).
  rewrite (get_gmap (fun _ : bool => blank) false blank _ _ _ i j Hm Hi Hj). reflexivity.
Qed.

Lemma create_image_of_create_vector_witness :
  exists measurements image',
    create_vector Examples.self3 Examples.depth3 = Ok measurements /\
    length measurements = get_point_count Examples.self3 /\
    create_image 0 Examples.self3 measurements = Ok image' /\
    shape (height Examples.depth3) (width Examples.depth3) image' /\
    forall i j, (i < height Examples.depth3)%nat -> (j < width Examples.depth3)%nat ->
      get 0 image' i j
      = if get false (mask Examples.self3) i j then get 0 Examples.depth3 i j else 0.
Proof.
  exact (create_image_of_create_vector 0 Examples.depth3 Examples.mask3 eye3 Examples.camera0
           Examples.self3 Examples.depth3 initialize_self3 depth3_shape).
Defined.

Lemma create_vector_accepts_two_shapes_aux {A : Type}
  (self : DepthMapParametrization) (image : grid A) (h w : nat) :
  shape (S h) (S w) (mask self) -> shape (S h) (S w) image ->
  create_vector self image = Ok (concat (zip_with select_row (mask self) image)) /\
  length (concat (zip_with select_row (mask self) image)) = count (mask self).
Proof.
  intros Hmask Himage. unfold create_vector.
  rewrite (shape_eqb_of_shape _ _ _ _ Himage Hmask).
  rewrite (masked_select_ok _ _ _ _ Hmask Himage).
  split; [reflexivity|]. apply (select_grid_length _ _ _ _ Hmask Himage).
Qed.

Lemma create_vector_cropped_aux {A : Type}
  (self : DepthMapParametrization) (image : grid A) (h w : nat) :
  shape (S (S h)) (S (S w)) (mask self) -> shape (S h) (S w) image ->
  create_vector self image
  = Ok (concat (zip_with select_row (cols_init (rows_init (mask self))) image)) /\
  length (concat (zip_with select_row (cols_init (rows_init (mask self))) image))
  = count (cols_init (rows_init (mask self))).
Proof.
  intros Hmask Himage. unfold create_vector, shape_eqb.
  rewrite (shape_height _ _ _ Hmask), (shape_height _ _ _ Himage).
  rewrite (shape_width _ _ _ Hmask), (shape_width _ _ _ Himage) by lia.
  replace (S h =? S (S h))%nat with false by (symmetry; apply Nat.eqb_neq; lia).
  replace (S (S h) =? S h + 1)%nat with true by (symmetry; apply Nat.eqb_eq; lia).
  replace (S (S w) =? S w + 1)%nat with true by (symmetry; apply Nat.eqb_eq; lia).
  cbn [andb].
  assert (Hcrop : shape (S h) (S w) (cols_init (rows_init (mask self))))
    by (apply shape_mask_here; exact Hmask).
  rewrite (masked_select_ok _ _ _ _ Hcrop Himage).
  split; [reflexivity|]. apply (select_grid_length _ _ _ _ Hcrop Himage).
Qed.

(** [create_vector] takes an image of the shape of the mask, or one that is
    one row and one column smaller, and nothing else. *)
Theorem create_vector_accepts_two_shapes {A : Type}
  (self : DepthMapParametrization) (image : grid A) (h w a b : nat)
  (Hmask : shape (S h) (S w) (mask self))
  (Himage : shape (S a) (S b) image) :
  (a = h /\ b = w ->
   exists v, create_vector self image = Ok v /\ length v = count (mask self)) /\
  (S a = h /\ S b = w ->
   exists v, create_vector self image = Ok v /\
             length v = count (cols_init (rows_init (mask self)))) /\
  (~ (a = h /\ b = w) -> ~ (S a = h /\ S b = w) ->
   create_vector self image
   = Raise (LoggedError "Mask shape does not fit the measurement_image shape.")).
Proof.
  split; [|split].
  - intros [-> ->].
    destruct (create_vector_accepts_two_shapes_aux self image h w Hmask Himage) as [E L].
    eauto.
  - intros [<- <-].
    destruct (create_vector_cropped_aux self image a b Hmask Himage) as [E L]. eauto.
  - intros H1 H2. unfold create_vector, shape_eqb.
    rewrite (shape_height _ _ _ Hmask), (shape_height _ _ _ Himage).
    rewrite (shape_width _ _ _ Hmask), (shape_width _ _ _ Himage) by lia.
    assert (E1 : ((S a =? S h) && (S b =? S w))%nat = false)
      by (apply andb_false_iff; rewrite !Nat.eqb_neq; lia).
    assert (E2 : ((S h =? S a + 1) && (S w =? S b + 1))%nat = false)
      by (apply andb_false_iff; rewrite !Nat.eqb_neq; lia).
    rewrite E1, E2. reflexivity.
Qed.

Lemma mask_self3_shape : shape 3 3 (mask Examples.self3).
Proof. rewrite mask_self3. split; [reflexivity | repeat constructor]. Qed.

Lemma create_vector_accepts_two_shapes_witness :
  (2%nat = 2%nat /\ 2%nat = 2%nat ->
   exists v, create_vector Examples.self3 Examples.depth3 = Ok v /\
             length v = count (mask Examples.self3)) /\
  (3%nat = 2%nat /\ 3%nat = 2%nat ->
   exists v, create_vector Examples.self3 Examples.depth3 = Ok v /\
             length v = count (cols_init (rows_init (mask Examples.self3)))) /\
  (~ (2%nat = 2%nat /\ 2%nat = 2%nat) -> ~ (3%nat = 2%nat /\ 3%nat = 2%nat) ->
   create_vector Examples.self3 Examples.depth3
   = Raise (LoggedError "Mask shape does not fit the measurement_image shape.")).
Proof.
  exact (create_vector_accepts_two_shapes Examples.self3 Examples.depth3 2 2 2 2
           mask_self3_shape depth3_shape33).
Defined.

(** ** A mask that stays off the last row and the last column *)

Lemma count_row_zero (m : list bool) : count_row m = 0%nat -> Forall (eq false) m.
Proof.
  induction m as [|b m IH]; [constructor|].
  rewrite count_row_cons. destruct b; intros H; [lia|]. constructor; auto.
Qed.

Lemma select_row_none {A} (m : list bool) (row : list A) :
  Forall (eq false) m -> select_row m row = [].
Proof.
  intros H. revert row. induction H as [|b m <- Hm IH]; intros [|x row]; simpl; auto.
  apply IH.
Qed.

Lemma select_row_crop {A} (m : list bool) (row : list A) :
  length m = length row -> last m false = false ->
  select_row (removelast m) (removelast row) = select_row m row.
Proof.
  revert row. induction m as [|b m IH]; intros [|x row] Hlen Hlast; simpl in Hlen; try lia; auto.
  destruct m as [|b' m], row as [|x' row]; simpl in Hlen; try lia.
  - simpl in Hlast. subst b. reflexivity.
  - change (removelast (b :: b' :: m)) with (b :: removelast (b' :: m)).
    change (removelast (x :: x' :: row)) with (x :: removelast (x' :: row)).
    unfold select_row in *. cbn [zip_with concat].
    f_equal. apply (IH (x' :: row)); [simpl; lia | exact Hlast].
Qed.

Lemma touches_border_false (m : grid bool) :
  touches_border m = false ->
  Forall (eq false) (last m []) /\ Forall (fun row => last row false = false) m.
Proof.
  unfold touches_border. intros H. apply Nat.ltb_ge in H.
  split.
  - apply count_row_zero. lia.
  - assert (Hc : Forall (eq false) (map (fun row => last row false) m))
      by (apply count_row_zero; lia).
    rewrite Forall_map in Hc. eapply Forall_impl; [|exact Hc]. simpl. auto.
Qed.

Lemma select_crop {A} (m : grid bool) (g : grid A) :
  Forall2 (fun mr row => length mr = length row) m g ->
  Forall (eq false) (last m []) ->
  Forall (fun row => last row false = false) m ->
  concat (zip_with select_row (cols_init (rows_init m)) (cols_init (rows_init g)))
  = concat (zip_with select_row m g).
Proof.
  unfold cols_init, rows_init.
  induction 1 as [|mr row m g Hlen Hrest IH]; intros Hlast Hcol; [reflexivity|].
  inversion Hcol as [|? ? Hc Hcs]; subst.
  destruct Hrest as [|mr' row' m g Hlen' Hrest].
  - simpl in *. rewrite select_row_none by exact Hlast. reflexivity.
  - change (removelast (mr :: mr' :: m)) with (mr :: removelast (mr' :: m)).
    change (removelast (row :: row' :: g)) with (row :: removelast (row' :: g)).
    cbn [map zip_with concat].
    rewrite select_row_crop by auto. f_equal.
    apply IH; auto.
Qed.

Lemma Forall2_same_shape {A B} (h w : nat) (m : grid A) (g : grid B) :
  shape h w m -> shape h w g -> Forall2 (fun mr row => length mr = length row) m g.
Proof.
  intros [Hm Fm] [Hg Fg]. subst h. revert g Hg Fg.
  induction Fm as [|mr m Hmr Fm IH]; intros [|row g] Hg Fg; simpl in *; try lia;
    constructor.
  - inversion Fg; subst. lia.
  - inversion Fg; subst. apply IH; auto.
Qed.

(** When the mask reaches neither the last row nor the last column, the two
    shapes that [create_vector] takes agree: an image without its last row
    and column gives the same vector as the whole image, one entry per
    point. *)
Theorem create_vector_of_cropped_image {A : Type}
  (depth0 : grid R) (mask0 : list R) (invK0 : mat3) (invRt0 : Pose)
  (self : DepthMapParametrization) (image : grid A) (h w : nat)
  (Hdepth : shape (S (S h)) (S (S w)) depth0)
  (Hinit : initialize depth0 mask0 invK0 invRt0 = Ok self)
  (Hvalid : touches_border (mask self) = false)
  (Himage : shape (S (S h)) (S (S w)) image) :
  exists v,
    create_vector self image = Ok v /\
    create_vector self (cols_init (rows_init image)) = Ok v /\
    length v = get_point_count self.
Proof.
  assert (Hm : shape (S (S h)) (S (S w)) (mask self)).
  { pose proof (initialized_mask_shape _ _ _ _ _ Hinit) as Hm.
    rewrite (shape_height _ _ _ Hdepth), (shape_width _ _ _ Hdepth) in Hm by lia. exact Hm. }
  assert (Hcrop : shape (S h) (S w) (cols_init (rows_init image))).
  { pose proof (shape_cols_init _ _ _ (shape_rows_init _ _ _ Himage)) as Hc.
    replace (S (S h) - 1)%nat with (S h) in Hc by lia.
    replace (S (S w) - 1)%nat with (S w) in Hc by lia. exact Hc. }
  destruct (create_vector_accepts_two_shapes_aux self image (S h) (S w) Hm Himage) as [E1 L1].
  destruct (create_vector_cropped_aux self (cols_init (rows_init image)) h w Hm Hcrop) as [E2 _].
  exists (concat (zip_with select_row (mask self) image)).
  split; [exact E1|]. split.
  - rewrite E2. f_equal.
    destruct (touches_border_false _ Hvalid) as [Hlast Hcol].
    apply select_crop; auto. apply (Forall2_same_shape _ _ _ _ Hm Himage).
  - rewrite (initialized_point_count _ _ _ _ _ Hinit). exact L1.
Qed.

Lemma create_vector_of_cropped_image_witness :
  exists v,
    create_vector Examples.self3 Examples.depth3 = Ok v /\
    create_vector Examples.self3 (cols_init (rows_init Examples.depth3)) = Ok v /\
    length v = get_point_count Examples.self3.
Proof.
  exact (create_vector_of_cropped_image Examples.depth3 Examples.mask3 eye3 Examples.camera0
           Examples.self3 Examples.depth3 1 1 depth3_shape33 initialize_self3 self3_valid
           depth3_shape33).
Defined.

(** ** The vector of implied normals *)

Section Cells.

Context {A B C : Type}.
Variables (PA : A -> Prop) (PB : B -> Prop) (PC : C -> Prop).

Lemma cells_gmap (f : A -> C) (g : grid A) :
  (forall x, PC (f x)) -> Forall (Forall PC) (gmap f g).
Proof.
  intros H. unfold gmap. apply Forall_map, Forall_forall. intros row _.
  apply Forall_map, Forall_forall. auto.
Qed.

Lemma cells_zip_with (f : A -> B -> C) (xs : list A) (ys : list B) :
  (forall x y, PA x -> PB y -> PC (f x y)) ->
  Forall PA xs -> Forall PB ys -> Forall PC (zip_with f xs ys).
Proof.
  intros H Hx. revert ys. induction Hx as [|x xs Hx Hxs IH]; intros ys Hy; simpl; auto.
  destruct Hy as [|y ys Hy Hys]; constructor; auto.
Qed.

End Cells.

Lemma cells_gmap2 {A B C} (PA : A -> Prop) (PB : B -> Prop) (PC : C -> Prop)
  (f : A -> B -> C) (a : grid A) (b : grid B) :
  (forall x y, PA x -> PB y -> PC (f x y)) ->
  Forall (Forall PA) a -> Forall (Forall PB) b -> Forall (Forall PC) (gmap2 f a b).
Proof.
  intros H. unfold gmap2. apply cells_zip_with. intros x y. apply cells_zip_with, H.
Qed.

Lemma cells_any {A} (g : grid A) : Forall (Forall (fun _ => True)) g.
Proof. apply Forall_forall. intros row _. apply Forall_forall. auto. Qed.

Lemma cells_gwhere {A} (P : A -> Prop) (m : grid bool) (a b : grid A) :
  Forall (Forall P) a -> Forall (Forall P) b -> Forall (Forall P) (gwhere m a b).
Proof.
  intros Ha Hb. unfold gwhere.
  apply (cells_gmap2 (fun _ => True) (fun xy => P (fst xy) /\ P (snd xy)) P).
  - intros [|] xy _ [H1 H2]; auto.
  - apply cells_any.
  - apply (cells_gmap2 P P); auto.
Qed.

Lemma cells_select {A} (P : A -> Prop) (m : grid bool) (g : grid A) :
  Forall (Forall P) g -> Forall P (concat (zip_with select_row m g)).
Proof.
  intros Hg. apply Forall_concat.
  apply (cells_zip_with (fun _ => True) (Forall P)); auto; [|apply Forall_forall; auto].
  intros mr row _ Hrow. unfold select_row. apply Forall_concat.
  apply (cells_zip_with (fun _ => True) P); auto; [|apply Forall_forall; auto].
  intros [|] x _ Hx; auto.
Qed.

Lemma cells_oriented_normals (L : grid vec3) (camloc : vec3) :
  Forall (Forall (fun n => norm n = 1 \/ n = zero3)) (oriented_normals L camloc).
Proof.
  unfold oriented_normals.
  apply (cells_gmap2 (fun n => norm n = 1 \/ n = zero3) (fun s => exists x, s = sign x)).
  - intros n s Hn [x ->]. apply vscale_sign_cases, Hn.
  - apply cells_gmap. intros x. apply normalize_cases.
  - apply cells_gmap. intros x. eauto.
Qed.

Lemma cells_zero_pad (w : nat) (N : grid vec3) :
  Forall (Forall (fun n => norm n = 1 \/ n = zero3)) N ->
  Forall (Forall (fun n => norm n = 1 \/ n = zero3)) (zero_pad w N).
Proof.
  intros HN. unfold zero_pad. apply Forall_map.
  assert (Hrows : Forall (Forall (fun n => norm n = 1 \/ n = zero3)) (N ++ [repeat zero3 w])).
  { apply Forall_app. split; auto. constructor; auto.
    apply Forall_forall. intros x Hx. apply repeat_spec in Hx. auto. }
  eapply Forall_impl; [|exact Hrows]. intros row Hrow.
  apply Forall_app. split; auto.
Qed.

(** For a mask that stays off the last row and column,
    [implied_normal_vector()] returns one normal per point, each of them a
    unit vector or the zero vector. *)
Theorem implied_normal_vector_unit_or_zero
  (depth0 : grid R) (mask0 : list R) (invK0 : mat3) (invRt0 : Pose)
  (self : DepthMapParametrization) (h w : nat)
  (Hdepth : shape (S h) (S w) depth0)
  (Hinit : initialize depth0 mask0 invK0 invRt0 = Ok self)
  (Hvalid : touches_border (mask self) = false) :
  exists normals,
    implied_normal_vector self = Ok normals /\
    length normals = get_point_count self /\
    Forall (fun n => norm n = 1 \/ n = zero3) normals.
Proof.
  pose proof (implied_normal_image_ok _ _ _ _ _ h w Hdepth Hinit Hvalid) as E.
  pose proof (N2_shape _ _ _ _ _ h w Hdepth Hinit) as HN.
  pose proof (mask_shape _ _ _ _ _ h w Hdepth Hinit) as Hm.
  match type of E with _ = Ok (zero_pad _ ?N) => set (N2 := N) in * end.
  assert (Hpad : shape (S h) (S w) (zero_pad w N2)) by (apply shape_zero_pad; exact HN).
  destruct (create_vector_accepts_two_shapes_aux self (zero_pad w N2) h w Hm Hpad) as [Ev Lv].
  exists (concat (zip_with select_row (mask self) (zero_pad w N2))).
  split; [unfold implied_normal_vector; rewrite E; exact Ev|].
  split; [rewrite (initialized_point_count _ _ _ _ _ Hinit); exact Lv|].
  apply cells_select, cells_zero_pad. unfold N2.
  apply (cells_gmap2 (fun _ => True) (fun n => norm n = 1 \/ n = zero3)).
  - intros [|] x _ Hx; [apply normalize_cases | exact Hx].
  - apply cells_any.
  - apply cells_gwhere; [|apply cells_oriented_normals].
    unfold local_normal_mean. apply cells_gmap. intros x. apply normalize_cases.
Qed.

Lemma implied_normal_vector_unit_or_zero_witness :
  exists normals,
    implied_normal_vector Examples.self3 = Ok normals /\
    length normals = get_point_count Examples.self3 /\
    Forall (fun n => norm n = 1 \/ n = zero3) normals.
Proof.
  exact (implied_normal_vector_unit_or_zero Examples.depth3 Examples.mask3 eye3
           Examples.camera0 Examples.self3 2 2 depth3_shape33 initialize_self3 self3_valid).
Defined.

(** ** Stored states and parameter bounds *)

(** What [serialize] returns of an initialized parametrization is enough for
    [deserialize] to rebuild it, point count included; and serializing a
    deserialized state gives the stored tuple back. *)
Theorem serialize_round_trip
  (depth0 : grid R) (mask0 : list R) (invK0 : mat3) (invRt0 : Pose)
  (self : DepthMapParametrization)
  (Hinit : initialize depth0 mask0 invK0 invRt0 = Ok self) :
  deserialize (serialize self) = self /\
  deserialize (serialize (enforce_parameter_bounds self)) = enforce_parameter_bounds self /\
  forall args, serialize (deserialize args) = args.
Proof.
  destruct (initialize_inv _ _ _ _ _ Hinit) as [_ ->].
  split; [reflexivity|]. split; [reflexivity|].
  intros [[[d k] rt] m]. reflexivity.
Qed.

Lemma serialize_round_trip_witness :
  deserialize (serialize Examples.self3) = Examples.self3 /\
  deserialize (serialize (enforce_parameter_bounds Examples.self3))
  = enforce_parameter_bounds Examples.self3 /\
  forall args, serialize (deserialize args) = args.
Proof.
  exact (serialize_round_trip Examples.depth3 Examples.mask3 eye3 Examples.camera0
           Examples.self3 initialize_self3).
Defined.




(** ** The plane parametrization *)

(** Every location that [PlaneParametrization.location_vector] returns for a
    ray that is not parallel to the plane satisfies the plane equation
    [<x, p_plane> = 1] and lies on the ray from the camera location; there
    is one location per camera ray. *)
Theorem plane_locations_on_plane (self : PlaneParametrization)
  (Hrays : Forall (fun ray => inner_product ray (p_plane self) <> 0) (camera_rays self)) :
  length (plane_location_vector self) = length (camera_rays self) /\
  Forall (fun x => inner_product x (p_plane self) = 1) (plane_location_vector self) /\
  Forall2 (fun x ray => exists t, x = vadd (translation (plane_invRt self)) (vscale t ray))
    (plane_location_vector self) (camera_rays self).
Proof.
  unfold plane_location_vector. split; [apply length_map|].
  split.
  - apply Forall_map. eapply Forall_impl; [|exact Hrays].
    intros [[r0 r1] r2] Hr. cbv zeta.
    destruct (translation (plane_invRt self)) as [[c0 c1] c2].
    destruct (p_plane self) as [[p0 p1] p2].
    cbn [inner_product vadd vscale] in *. field. exact Hr.
  - clear Hrays. induction (camera_rays self) as [|ray rays IH]; simpl; constructor; eauto.
Qed.

Lemma plane_locations_on_plane_witness :
  length (plane_location_vector Examples.plane1) = length (camera_rays Examples.plane1) /\
  Forall (fun x => inner_product x (p_plane Examples.plane1) = 1)
    (plane_location_vector Examples.plane1) /\
  Forall2 (fun x ray =>
             exists t, x = vadd (translation (plane_invRt Examples.plane1)) (vscale t ray))
    (plane_location_vector Examples.plane1) (camera_rays Examples.plane1).
Proof.
  apply (plane_locations_on_plane Examples.plane1).
  constructor; [|constructor]. simpl. lra.
Defined.

End LocationMore.

(** * Facts about experiment_settings.py *)

Module SettingsFacts.
Import Settings.

(** ** Dictionaries *)

Lemma dict_get_set_same (key : string) (v : value) (d : dict) :
  dict_get key (dict_set key v d) = Some v.
Proof.
  induction d as [|[k x] d IH]; simpl.
  - now rewrite String.eqb_refl.
  - destruct (String.eqb k key) eqn:E; simpl; rewrite E; auto.
Qed.

Lemma dict_get_set_other (key key' : string) (v : value) (d : dict) :
  key <> key' -> dict_get key' (dict_set key v d) = dict_get key' d.
Proof.
  intros Hne. induction d as [|[k x] d IH]; simpl.
  - destruct (String.eqb_spec key key'); [contradiction | reflexivity].
  - destruct (String.eqb_spec k key) as [->|Hk]; simpl.
    + destruct (String.eqb_spec key key'); [contradiction | reflexivity].
    + destruct (String.eqb_spec k key'); auto.
Qed.

Lemma dict_set_unchanged (key : string) (v : value) (d : dict) :
  dict_get key d = Some v -> dict_set key v d = d.
Proof.
  induction d as [|[k x] d IH]; simpl; [discriminate|].
  destruct (String.eqb_spec k key) as [->|Hk]; intros H.
  - now injection H as ->.
  - now rewrite IH.
Qed.

Lemma dict_set_keys (key : string) (v : value) (d : dict) :
  exists extra, map fst (dict_set key v d) = map fst d ++ extra.
Proof.
  induction d as [|[k x] d [extra IH]]; simpl.
  - now exists [key].
  - destruct (String.eqb k key); simpl.
    + exists []. now rewrite app_nil_r.
    + exists extra. now rewrite IH.
Qed.

(** ** The loop of [recursive_update] *)

Section Loop.

Variable dict_of_pairs : list value -> outcome dict.

Lemma recursive_update_unfold (dictionary : value) (items : dict) :
  recursive_update dict_of_pairs dictionary (VDict items)
  = (d <~ dict_of dict_of_pairs dictionary ;; update_items dict_of_pairs items d).
Proof.
  unfold recursive_update at 1. fold (recursive_update dict_of_pairs).
  destruct (dict_of dict_of_pairs dictionary) as [d|e]; simpl; [|reflexivity].
  revert d. induction items as [|[key v] rest IH]; intros d; simpl; [reflexivity|].
  destruct v; try apply IH.
  destruct (recursive_update dict_of_pairs _ _); simpl; [apply IH | reflexivity].
Qed.

Lemma update_items_keys (items : dict) :
  forall d r, update_items dict_of_pairs items d = Returns r ->
    exists extra, map fst r = map fst d ++ extra.
Proof.
  induction items as [|[key v] rest IH]; cbn [update_items map fst In]; intros d r H.
  - injection H as <-. exists []. now rewrite app_nil_r.
  - assert (Hstep : forall x, update_items dict_of_pairs rest (dict_set key x d) = Returns r ->
                              exists extra, map fst r = map fst d ++ extra).
    { intros x Hx. apply IH in Hx as [e2 E2].
      destruct (dict_set_keys key x d) as [e1 E1].
      exists (e1 ++ e2). now rewrite E2, E1, app_assoc. }
    destruct v; eauto.
    destruct (recursive_update dict_of_pairs _ _) as [inner|e]; cbn [and_then] in H; [eauto|discriminate].
Qed.

Lemma update_items_untouched (key : string) (items : dict) :
  ~ In key (map fst items) ->
  forall d r, update_items dict_of_pairs items d = Returns r -> dict_get key r = dict_get key d.
Proof.
  induction items as [|[k v] rest IH]; cbn [update_items map fst In]; intros Hk d r H.
  - now injection H as <-.
  - assert (Hstep : forall x, update_items dict_of_pairs rest (dict_set k x d) = Returns r ->
                              dict_get key r = dict_get key d).
    { intros x Hx. rewrite (IH (fun Hin => Hk (or_intror Hin)) _ _ Hx).
      apply dict_get_set_other. intros ->. apply Hk. now left. }
    destruct v; eauto.
    destruct (recursive_update dict_of_pairs _ _) as [inner|e]; cbn [and_then] in H; [eauto|discriminate].
Qed.

Lemma update_items_scalar (key : string) (v : value) (items : dict) :
  NoDup (map fst items) -> In (key, v) items -> is_mapping v = false ->
  forall d r, update_items dict_of_pairs items d = Returns r -> dict_get key r = Some v.
Proof.
  induction items as [|[k x] rest IH]; cbn [update_items map fst In]; intros Hnd Hin Hv d r H; [contradiction|].
  inversion Hnd as [|? ? Hk Hrest]; subst.
  destruct Hin as [E|Hin].
  - injection E as -> ->.
    destruct v; try discriminate;
      rewrite (update_items_untouched key rest Hk _ _ H); apply dict_get_set_same.
  - assert (Hstep : forall y, update_items dict_of_pairs rest (dict_set k y d) = Returns r ->
                              dict_get key r = Some v) by (intros y Hy; eapply IH; eauto).
    destruct x; eauto.
    destruct (recursive_update dict_of_pairs _ _) as [inner|e]; cbn [and_then] in H; [eauto|discriminate].
Qed.

Lemma update_items_nested (key : string) (sub : dict) (items : dict) :
  NoDup (map fst items) -> In (key, VDict sub) items ->
  forall d r, update_items dict_of_pairs items d = Returns r ->
    exists inner,
      recursive_update dict_of_pairs
        (match dict_get key d with Some x => x | None => VDict [] end) (VDict sub)
      = Returns inner /\
      dict_get key r = Some (VDict inner).
Proof.
  induction items as [|[k x] rest IH]; cbn [update_items map fst In]; intros Hnd Hin d r H; [contradiction|].
  inversion Hnd as [|? ? Hk Hrest]; subst.
  destruct Hin as [E|Hin].
  - injection E as -> ->.
    destruct (recursive_update dict_of_pairs _ _) as [inner|e]; cbn [and_then] in H; [|discriminate].
    exists inner. split; [reflexivity|].
    rewrite (update_items_untouched key rest Hk _ _ H). apply dict_get_set_same.
  - assert (Hne : k <> key).
    { intros ->. apply Hk. apply (in_map fst) in Hin. exact Hin. }
    assert (Hstep : forall y, update_items dict_of_pairs rest (dict_set k y d) = Returns r ->
              exists inner,
                recursive_update dict_of_pairs
                  (match dict_get key d with Some x => x | None => VDict [] end) (VDict sub)
                = Returns inner /\
                dict_get key r = Some (VDict inner)).
    { intros y Hy. destruct (IH Hrest Hin _ _ Hy) as (inner & E1 & E2).
      rewrite dict_get_set_other in E1 by exact Hne. eauto. }
    destruct x; eauto.
    destruct (recursive_update dict_of_pairs _ _) as [inner|e]; cbn [and_then] in H; [eauto|discriminate].
Qed.

(** With distinct keys in [updates], [recursive_update] merges [updates]
    into the mapping [dictionary]: the keys of [dictionary] stay in place,
    a key that [updates] does not mention keeps its value, a key that
    [updates] binds to something that is not a mapping gets that value, and
    a key that [updates] binds to a mapping gets the recursive update of
    what [dictionary] held there (of [{}] when it held nothing). *)
Theorem recursive_update_merges (dictionary updates result : dict)
  (Hkeys : NoDup (map fst updates))
  (Hret : recursive_update dict_of_pairs (VDict dictionary) (VDict updates) = Returns result) :
  (exists extra, map fst result = map fst dictionary ++ extra) /\
  (forall key, ~ In key (map fst updates) ->
     dict_get key result = dict_get key dictionary) /\
  (forall key v, In (key, v) updates -> is_mapping v = false ->
     dict_get key result = Some v) /\
  (forall key sub, In (key, VDict sub) updates ->
     exists inner,
       recursive_update dict_of_pairs
         (match dict_get key dictionary with Some x => x | None => VDict [] end) (VDict sub)
       = Returns inner /\
       dict_get key result = Some (VDict inner)).
Proof.
  rewrite recursive_update_unfold in Hret. cbn [dict_of and_then] in Hret.
  split; [eapply update_items_keys; eauto|].
  split; [intros key Hk; eapply update_items_untouched; eauto|].
  split; [intros key v Hin Hv; eapply update_items_scalar; eauto|].
  intros key sub Hin. eapply update_items_nested; eauto.
Qed.

(** ** Updating twice *)

Lemma value_deep_ind (P : value -> Prop) :
  P VNone -> (forall b, P (VBool b)) -> (forall n, P (VInt n)) -> (forall x, P (VFloat x)) ->
  (forall s, P (VStr s)) -> (forall items, P (VList items)) ->
  (forall items, Forall (fun kv => P (snd kv)) items -> P (VDict items)) ->
  forall v, P v.
Proof.
  intros HN HB HI HF HS HL HD. fix IH 1.
  intros [ |b|n|x|s|items|items];
    [exact HN | apply HB | apply HI | apply HF | apply HS | apply HL |].
  apply HD. induction items as [|[k x] items IHl]; constructor; [apply IH | exact IHl].
Qed.

Lemma distinct_keys_items (items : dict) :
  distinct_keys (VDict items)
  <-> NoDup (map fst items) /\ Forall (fun kv => distinct_keys (snd kv)) items.
Proof.
  cbn [distinct_keys].
  assert (E : forall l : dict,
             (fix all (items : dict) : Prop :=
                match items with
                | [] => True
                | (_, x) :: rest => distinct_keys x /\ all rest
                end) l <-> Forall (fun kv => distinct_keys (snd kv)) l).
  { induction l as [|[k x] l IHl].
    - split; intros _; [constructor | exact I].
    - split.
      + intros [H1 H2]. constructor; [exact H1 | apply IHl, H2].
      + intros H. inversion H; subst. split; [assumption | apply IHl; assumption]. }
  rewrite E. tauto.
Qed.

Lemma recursive_update_needs_mapping (dictionary updates : value) (r : dict) :
  recursive_update dict_of_pairs dictionary updates = Returns r -> is_mapping updates = true.
Proof.
  destruct updates; try reflexivity; cbn [recursive_update];
    destruct (dict_of dict_of_pairs dictionary); discriminate.
Qed.

Lemma update_items_again (items : dict) :
  Forall (fun kv =>
            forall dictionary r, distinct_keys (snd kv) ->
              recursive_update dict_of_pairs dictionary (snd kv) = Returns r ->
              recursive_update dict_of_pairs (VDict r) (snd kv) = Returns r) items ->
  Forall (fun kv => distinct_keys (snd kv)) items ->
  forall d,
    (forall key v, In (key, v) items -> is_mapping v = false -> dict_get key d = Some v) ->
    (forall key sub, In (key, VDict sub) items ->
       exists inner x,
         recursive_update dict_of_pairs x (VDict sub) = Returns inner /\
         dict_get key d = Some (VDict inner)) ->
    update_items dict_of_pairs items d = Returns d.
Proof.
  induction 1 as [|[k v] rest Hv Hrest IH]; intros Hd d Hs Hn; [reflexivity|].
  inversion Hd as [|? ? Hdv Hdrest]; subst. cbn [snd] in *.
  assert (Hnext : update_items dict_of_pairs rest d = Returns d).
  { apply IH; auto.
    - intros key x Hin. apply Hs. now right.
    - intros key sub Hin. apply Hn. now right. }
  cbn [update_items].
  destruct v;
    try (rewrite dict_set_unchanged by (apply Hs; [now left | reflexivity]); exact Hnext).
  destruct (Hn k items (or_introl eq_refl)) as (inner & x & Hx & Hget).
  rewrite Hget, (Hv _ _ Hdv Hx). cbn [and_then].
  rewrite dict_set_unchanged by exact Hget. exact Hnext.
Qed.

(** Updating with the same [updates] a second time changes nothing: the
    result of [recursive_update] is a fixed point of the update. *)
Theorem recursive_update_idempotent (updates dictionary : value) (result : dict)
  (Hkeys : distinct_keys updates)
  (Hret : recursive_update dict_of_pairs dictionary updates = Returns result) :
  recursive_update dict_of_pairs (VDict result) updates = Returns result.
Proof.
  revert dictionary result Hkeys Hret.
  induction updates as [ |b|n|x|s|items|items IH] using value_deep_ind;
    intros dictionary result Hkeys Hret;
    try (apply recursive_update_needs_mapping in Hret; discriminate).
  apply distinct_keys_items in Hkeys as [Hnd Hall].
  rewrite recursive_update_unfold in *. cbn [dict_of and_then].
  destruct (dict_of dict_of_pairs dictionary) as [d|e]; cbn [and_then] in Hret; [|discriminate].
  apply update_items_again; auto.
  - intros key v Hin Hv. eapply update_items_scalar; eauto.
  - intros key sub Hin.
    destruct (update_items_nested key sub items Hnd Hin _ _ Hret) as (inner & E1 & E2).
    eauto.
Qed.

(** ** When the update fails *)

Lemma update_items_flat (items : dict) :
  Forall (fun kv => is_mapping (snd kv) = false) items ->
  forall d, exists r, update_items dict_of_pairs items d = Returns r.
Proof.
  induction 1 as [|[k v] rest Hv Hrest IH]; intros d; cbn [update_items]; [eauto|].
  destruct v; try apply IH. discriminate.
Qed.

(** [recursive_update] of a mapping returns whenever no value of [updates]
    is a mapping itself; it raises when [updates] binds a key to a mapping
    and [dictionary] holds under that key something that [dict()] refuses
    (a number, a boolean, [None], a non-empty string). *)
Theorem recursive_update_failures (dictionary updates : dict) :
  (Forall (fun kv => is_mapping (snd kv) = false) updates ->
   exists result,
     recursive_update dict_of_pairs (VDict dictionary) (VDict updates) = Returns result) /\
  (forall key sub held e,
     NoDup (map fst updates) -> In (key, VDict sub) updates ->
     dict_get key dictionary = Some held -> dict_of dict_of_pairs held = Raises e ->
     exists e',
       recursive_update dict_of_pairs (VDict dictionary) (VDict updates) = Raises e').
Proof.
  split.
  - intros Hflat. rewrite recursive_update_unfold. cbn [dict_of and_then].
    apply update_items_flat, Hflat.
  - intros key sub held e Hnd Hin Hheld Hdict.
    destruct (recursive_update dict_of_pairs (VDict dictionary) (VDict updates))
      as [r|e'] eqn:E; [|eauto].
    exfalso. rewrite recursive_update_unfold in E. cbn [dict_of and_then] in E.
    destruct (update_items_nested key sub updates Hnd Hin _ _ E) as (inner & Hinner & _).
    rewrite Hheld, recursive_update_unfold, Hdict in Hinner. discriminate.
Qed.

(** ** [get] and [get_shorthand] *)

(** [get("optimization_steps", i)] returns the default optimization
    settings overridden by step [i]: a key that the step does not mention
    has its default value, a key that the step binds to something that is
    not a mapping has the step's value. *)
Theorem get_optimization_step
  (settings defaults step : dict) (steps : list value) (i : nat) (merged : value)
  (Hdefaults : dict_get "default_optimization_settings" settings = Some (VDict defaults))
  (Hsteps : dict_get "optimization_steps" settings = Some (VList steps))
  (Hstep : nth_error steps i = Some (VDict step))
  (Hkeys : NoDup (map fst step))
  (Hget : get dict_of_pairs settings "optimization_steps" (Some i) = Returns merged) :
  exists result,
    merged = VDict result /\
    recursive_update dict_of_pairs (VDict defaults) (VDict step) = Returns result /\
    (forall key, ~ In key (map fst step) -> dict_get key result = dict_get key defaults) /\
    (forall key v, In (key, v) step -> is_mapping v = false -> dict_get key result = Some v).
Proof.
  unfold get, dict_item in Hget. rewrite Hsteps in Hget. cbn [and_then subscript] in Hget.
  rewrite Hstep in Hget. cbn [and_then] in Hget.
  change (String.eqb "optimization_steps" "optimization_steps") with true in Hget.
  cbn iota in Hget. rewrite Hdefaults in Hget. cbn [and_then] in Hget.
  destruct (recursive_update dict_of_pairs (VDict defaults) (VDict step)) as [r|e] eqn:E;
    cbn [and_then] in Hget; [|discriminate].
  injection Hget as <-. exists r. split; [reflexivity|]. split; [reflexivity|].
  rewrite recursive_update_unfold in E. cbn [dict_of and_then] in E.
  split.
  - intros key Hk. eapply update_items_untouched; eauto.
  - intros key v Hin Hv. eapply update_items_scalar; eauto.
Qed.


End Loop.

(** ** The optimization settings of main.py *)

Lemma step_keys_distinct :
  NoDup (map fst [("parameters", VList [VStr "diffuse_materials"; VStr "specular_weights";
                                         VStr "specular_materials"]);
                  ("visualize_initial", VBool true)]%string).
Proof.
  repeat constructor; simpl; intuition discriminate.
Qed.

Lemma get_main_step :
  get (fun _ => Raises TypeError) SettingsExamples.main_settings "optimization_steps" (Some 0%nat)
  = Returns (VDict SettingsExamples.main_step0).
Proof. reflexivity. Qed.


Lemma get_optimization_step_witness :
  exists result,
    VDict SettingsExamples.main_step0 = VDict result /\
    recursive_update (fun _ => Raises TypeError)
      (VDict SettingsExamples.main_defaults)
      (VDict [("parameters", VList [VStr "diffuse_materials"; VStr "specular_weights";
                                     VStr "specular_materials"]);
              ("visualize_initial", VBool true)]%string) = Returns result /\
    (forall key,
       ~ In key (map fst [("parameters", VList [VStr "diffuse_materials";
                                                 VStr "specular_weights";
                                                 VStr "specular_materials"]);
                          ("visualize_initial", VBool true)]%string) ->
       dict_get key result = dict_get key SettingsExamples.main_defaults) /\
    (forall key v,
       In (key, v) [("parameters", VList [VStr "diffuse_materials"; VStr "specular_weights";
                                          VStr "specular_materials"]);
                    ("visualize_initial", VBool true)]%string ->
       is_mapping v = false -> dict_get key result = Some v).
Proof.
  apply (get_optimization_step (fun _ => Raises TypeError) SettingsExamples.main_settings
           SettingsExamples.main_defaults _ _ 0 (VDict SettingsExamples.main_step0)
           eq_refl eq_refl eq_refl step_keys_distinct get_main_step).
Defined.

Lemma nested_keys_distinct :
  NoDup (map fst [("losses", VDict [("normal smoothness", VFloat 2)]);
                  ("iterations", VInt 10)]%string).
Proof. repeat constructor; simpl; intuition discriminate. Qed.

Lemma nested_update :
  recursive_update (fun _ => Raises TypeError) (VDict SettingsExamples.main_defaults)
    (VDict [("losses", VDict [("normal smoothness", VFloat 2)]);
            ("iterations", VInt 10)]%string)
  = Returns SettingsExamples.main_nested.
Proof. reflexivity. Qed.

Lemma recursive_update_merges_witness :
  (exists extra, map fst SettingsExamples.main_nested = map fst SettingsExamples.main_defaults ++ extra) /\
  (forall key,
     ~ In key (map fst [("losses", VDict [("normal smoothness", VFloat 2)]);
                        ("iterations", VInt 10)]%string) ->
     dict_get key SettingsExamples.main_nested = dict_get key SettingsExamples.main_defaults) /\
  (forall key v,
     In (key, v) [("losses", VDict [("normal smoothness", VFloat 2)]);
                  ("iterations", VInt 10)]%string ->
     is_mapping v = false -> dict_get key SettingsExamples.main_nested = Some v) /\
  (forall key sub,
     In (key, VDict sub) [("losses", VDict [("normal smoothness", VFloat 2)]);
                          ("iterations", VInt 10)]%string ->
     exists inner,
       recursive_update (fun _ => Raises TypeError)
         (match dict_get key SettingsExamples.main_defaults with Some x => x | None => VDict [] end)
         (VDict sub)
       = Returns inner /\
       dict_get key SettingsExamples.main_nested = Some (VDict inner)).
Proof.
  exact (recursive_update_merges (fun _ => Raises TypeError) SettingsExamples.main_defaults _
           SettingsExamples.main_nested nested_keys_distinct nested_update).
Defined.

Lemma nested_distinct_keys :
  distinct_keys (VDict [("losses", VDict [("normal smoothness", VFloat 2)]);
                        ("iterations", VInt 10)]%string).
Proof.
  cbn [distinct_keys]. split; [exact nested_keys_distinct|].
  repeat split. repeat constructor; simpl; intuition discriminate.
Qed.

Lemma recursive_update_failures_witness :
  (exists result,
     recursive_update (fun _ => Raises TypeError) (VDict SettingsExamples.main_defaults)
       (VDict [("iterations", VInt 10)]%string) = Returns result) /\
  (exists e',
     recursive_update (fun _ => Raises TypeError) (VDict SettingsExamples.main_defaults)
       (VDict [("iterations", VDict [("first", VInt 10)])]%string) = Raises e').
Proof.
  split.
  - apply (recursive_update_failures (fun _ => Raises TypeError)
             SettingsExamples.main_defaults [("iterations", VInt 10)]%string).
    repeat constructor.
  - apply (proj2 (recursive_update_failures (fun _ => Raises TypeError)
                    SettingsExamples.main_defaults
                    [("iterations", VDict [("first", VInt 10)])]%string)
             "iterations"%string [("first", VInt 10)]%string (VInt 1000) TypeError).
    + repeat constructor. simpl. tauto.
    + left. reflexivity.
    + reflexivity.
    + reflexivity.
Defined.

Lemma recursive_update_idempotent_witness :
  recursive_update (fun _ => Raises TypeError) (VDict SettingsExamples.main_nested)
    (VDict [("losses", VDict [("normal smoothness", VFloat 2)]);
            ("iterations", VInt 10)]%string)
  = Returns SettingsExamples.main_nested.
Proof.
  exact (recursive_update_idempotent (fun _ => Raises TypeError) _
           (VDict SettingsExamples.main_defaults) SettingsExamples.main_nested
           nested_distinct_keys nested_update).
Defined.

End SettingsFacts.

(** * Facts about evaluation.py *)

Module EvaluationFacts.
Import Evaluation.

Lemma weighted_mean_bounds (f : Pixel -> R) (lo hi : R) (image : list Pixel) :
  (forall p, In p image -> edgevalid_pixels p = true -> lo <= f p <= hi) ->
  lo * Rsum (map (fun p => to_float (edgevalid_pixels p)) image)
  <= Rsum (map (fun p => f p * to_float (edgevalid_pixels p)) image)
  <= hi * Rsum (map (fun p => to_float (edgevalid_pixels p)) image).
Proof.
  induction image as [|p image IH]; intros H; unfold Rsum in *; simpl.
  - lra.
  - assert (IH' := IH (fun q Hq => H q (or_intror Hq))).
    destruct (edgevalid_pixels p) eqn:E; simpl.
    + pose proof (H p (or_introl eq_refl) E). lra.
    + lra.
Qed.

Lemma weighted_mean_below (f : Pixel -> R) (hi : R) (image : list Pixel) :
  (forall p, In p image -> edgevalid_pixels p = true -> f p < hi) ->
  (exists p, In p image /\ edgevalid_pixels p = true) ->
  Rsum (map (fun p => f p * to_float (edgevalid_pixels p)) image)
  < hi * Rsum (map (fun p => to_float (edgevalid_pixels p)) image).
Proof.
  induction image as [|p image IH]; intros H [q [Hq Eq]]; [contradiction|].
  assert (Hle : Rsum (map (fun p => f p * to_float (edgevalid_pixels p)) image)
                <= hi * Rsum (map (fun p => to_float (edgevalid_pixels p)) image)).
  { clear IH Hq. assert (H' := fun r Hr => H r (or_intror Hr)). clear H.
    induction image as [|r image IHi]; unfold Rsum in *; simpl; [lra|].
    assert (IH' := IHi (fun s Hs => H' s (or_intror Hs))).
    destruct (edgevalid_pixels r) eqn:E; simpl; [|lra].
    pose proof (H' r (or_introl eq_refl) E). lra. }
  unfold Rsum in *; simpl.
  destruct (edgevalid_pixels p) eqn:E; simpl.
  - pose proof (H p (or_introl eq_refl) E). lra.
  - destruct Hq as [<-|Hq]; [congruence|].
    assert (IH' := IH (fun r Hr => H r (or_intror Hr)) (ex_intro _ q (conj Hq Eq))). lra.
Qed.

Lemma edgevalid_count_pos (image : list Pixel) :
  (exists p, In p image /\ edgevalid_pixels p = true) ->
  0 < Rsum (map (fun p => to_float (edgevalid_pixels p)) image).
Proof.
  intros H.
  pose proof (weighted_mean_below (fun _ => 0) 1 image (fun _ _ _ => Rlt_0_1) H) as Hlt.
  cbv beta in Hlt.
  replace (Rsum (map (fun p => 0 * to_float (edgevalid_pixels p)) image)) with 0 in Hlt.
  - lra.
  - clear. induction image as [|p image IH]; unfold Rsum in *; simpl; [reflexivity|].
    rewrite <- IH. ring.
Qed.

Lemma edgevalid_depth_diff (p : Pixel) :
  edgevalid_pixels p = true -> 0 <= depth_diff p < 0.02.
Proof.
  unfold edgevalid_pixels, valid_pixels. intros H.
  apply andb_true_iff in H as [H _]. apply andb_true_iff in H as [_ H].
  destruct (Rlt_dec (depth_diff p) 0.02); [|discriminate].
  split; [apply Rabs_pos | assumption].
Qed.

Lemma normal_anglediff_bounds (p : Pixel) : 0 <= normal_anglediff p <= 180.
Proof.
  unfold normal_anglediff. pose proof (acos_bound (normal_dotprods p)) as [H0 H1].
  pose proof PI_RGT_0 as Hpi.
  assert (H : 0 <= acos (normal_dotprods p) / PI <= 1).
  { unfold Rdiv. split.
    - apply Rmult_le_pos; [exact H0 | left; apply Rinv_0_lt_compat; lra].
    - apply (Rmult_le_reg_r PI); [lra|]. rewrite Rmult_assoc, Rinv_l by lra. lra. }
  lra.
Qed.

Lemma mean_between (S N lo hi : R) :
  0 < N -> lo * N <= S <= hi * N -> lo <= S / N <= hi.
Proof.
  intros HN [H1 H2]. unfold Rdiv. split.
  - apply (Rmult_le_reg_r N); [exact HN|]. rewrite Rmult_assoc, Rinv_l by lra. lra.
  - apply (Rmult_le_reg_r N); [exact HN|]. rewrite Rmult_assoc, Rinv_l by lra. lra.
Qed.

Lemma mean_below (S N hi : R) : 0 < N -> S < hi * N -> S / N < hi.
Proof.
  intros HN H. unfold Rdiv.
  apply (Rmult_lt_reg_r N); [exact HN|]. rewrite Rmult_assoc, Rinv_l by lra. lra.
Qed.

(** When at least one pixel is valid and off the depth edges, the reported
    depth accuracy is at least 0 and below the validity threshold of 0.02,
    whatever the two depth maps are, and the reported normal error lies
    between 0 and 180 degrees. *)
Theorem evaluation_scores_are_bounded (image : list Pixel)
  (Hsome : exists p, In p image /\ edgevalid_pixels p = true) :
  0 <= average_accuracy image < 0.02 /\
  0 <= average_angle_error image <= 180.
Proof.
  pose proof (edgevalid_count_pos image Hsome) as Hn.
  assert (Ha : 0 * Rsum (map (fun p => to_float (edgevalid_pixels p)) image)
               <= Rsum (map (fun p => depth_diff p * to_float (edgevalid_pixels p)) image)
               <= 0.02 * Rsum (map (fun p => to_float (edgevalid_pixels p)) image)).
  { apply weighted_mean_bounds. intros p _ E. pose proof (edgevalid_depth_diff p E). lra. }
  assert (Hb : Rsum (map (fun p => depth_diff p * to_float (edgevalid_pixels p)) image)
               < 0.02 * Rsum (map (fun p => to_float (edgevalid_pixels p)) image)).
  { apply weighted_mean_below; [|exact Hsome]. intros p _ E. apply edgevalid_depth_diff, E. }
  assert (Hc : 0 * Rsum (map (fun p => to_float (edgevalid_pixels p)) image)
               <= Rsum (map (fun p => normal_anglediff p * to_float (edgevalid_pixels p)) image)
               <= 180 * Rsum (map (fun p => to_float (edgevalid_pixels p)) image)).
  { apply weighted_mean_bounds. intros p _ _. apply normal_anglediff_bounds. }
  unfold average_accuracy, average_angle_error.
  replace (map (fun p => to_float (edgevalid_pixels p) * normal_anglediff p) image)
    with (map (fun p => normal_anglediff p * to_float (edgevalid_pixels p)) image)
    by (apply map_ext; intros; ring).
  split.
  - split; [apply (mean_between _ _ 0 0.02 Hn Ha) | apply (mean_below _ _ _ Hn Hb)].
  - apply (mean_between _ _ 0 180 Hn Hc).
Qed.

Lemma pixel1_edgevalid : edgevalid_pixels EvaluationExamples.pixel1 = true.
Proof.
  unfold edgevalid_pixels, valid_pixels, edges, depth_diff, EvaluationExamples.pixel1; simpl.
  replace (1 - 1.01) with (- 0.01) by lra. rewrite Rabs_left by lra.
  run_reals. reflexivity.
Qed.

Lemma evaluation_scores_are_bounded_witness :
  0 <= average_accuracy [EvaluationExamples.pixel1] < 0.02 /\
  0 <= average_angle_error [EvaluationExamples.pixel1] <= 180.
Proof.
  apply (evaluation_scores_are_bounded [EvaluationExamples.pixel1]).
  exists EvaluationExamples.pixel1. split; [left; reflexivity | exact pixel1_edgevalid].
Defined.

(** ** The decoded normals of the renderer *)

(** A rendered pixel with all three channels at 1 decodes to the zero
    normal; every other pixel whose decoded vector is not zero decodes to a
    unit normal. *)
Theorem decoded_normal_unit_or_zero (normals_rgb : vec3) :
  (invalid_pixel normals_rgb = true -> decoded_normal normals_rgb = zero3) /\
  (invalid_pixel normals_rgb = false ->
   (let '(r, g, b) := normals_rgb in
    ((128 - r * 255) / 128, (128 - g * 255) / 128, (128 - b * 255) / 128)) <> zero3 ->
   norm (decoded_normal normals_rgb) = 1).
Proof.
  destruct normals_rgb as [[r g] b]. unfold decoded_normal. cbv zeta.
  split; intros E.
  - rewrite E. apply LocationFacts.vscale_zero3.
  - rewrite E. simpl to_float. intros Hnz. rewrite Rplus_0_r.
    set (n := ((128 - r * 255) / 128, (128 - g * 255) / 128, (128 - b * 255) / 128)) in *.
    assert (Hn : norm n <> 0) by (intros H0; apply Hnz, norm_eq_0, H0).
    pose proof (normalize_unit n Hn) as Hu. unfold normalize in Hu.
    destruct (Req_EM_T (norm n) 0); [contradiction | exact Hu].
Qed.

Lemma decoded_normal_unit_or_zero_witness :
  decoded_normal (1, 1, 1) = zero3 /\ norm (decoded_normal (0, 0, 0)) = 1.
Proof.
  split.
  - apply (proj1 (decoded_normal_unit_or_zero (1, 1, 1))).
    unfold invalid_pixel. destruct (Req_EM_T 1 1); [reflexivity | lra].
  - apply (proj2 (decoded_normal_unit_or_zero (0, 0, 0))).
    + unfold invalid_pixel. destruct (Req_EM_T 0 1); [lra | reflexivity].
    + unfold zero3. intros H. injection H as H _ _. lra.
Defined.

(** ** The shader cache *)

Section ShaderCacheFacts.

Variables program shader defines : Type.
Variable ShaderProgram : string -> string -> option defines -> program.

Lemma get_programs_cached (p : program)
  (calls : list (shader * shader * option shader * option defines)) :
  get_programs program shader defines ShaderProgram {| cached_program := Some p |} calls
  = repeat p (length calls).
Proof.
  induction calls as [|[[[v f] g] d] rest IH]; simpl; [reflexivity|]. now rewrite IH.
Qed.

(** A cache hands out one program for its whole life: every call returns
    the program that the first call built, from the two shader files of
    the evaluation mesh and the defines of that first call, whatever
    shaders and defines the later calls ask for. *)
Theorem shader_cache_keeps_first_program
  (vertex_shader fragment_shader : shader) (geometry_shader : option shader)
  (defs : option defines)
  (later : list (shader * shader * option shader * option defines)) :
  get_programs program shader defines ShaderProgram (new_cache program)
    ((vertex_shader, fragment_shader, geometry_shader, defs) :: later)
  = repeat (ShaderProgram "thirdparty/pyrender_shaders/evaluation_mesh.vert"
              "thirdparty/pyrender_shaders/evaluation_mesh.frag" defs)
      (S (length later)).
Proof.
  simpl. f_equal. apply get_programs_cached.
Qed.

End ShaderCacheFacts.

End EvaluationFacts.
